(** * NBTify (read-only, typeless fork): the NBT reader of [src/read.ts]

    A shallow embedding of the byte cursor, the grammar decoder and the
    format driver of [src/read.ts], together with the tag model of
    [src/tag.ts] and the error classes of [src/errors.ts].

    Conventions of the embedding.
    - A [Uint8Array] is a [list byte]; the [DataView] over it is the same
      list, read through bounds-checked getters that raise [RangeError]
      exactly where the JavaScript getters do.
    - A JavaScript [number] holding an integer is a [Z]; the 32-bit
      operators [&], [|], [^], [<<] and [>>] are written out with their
      wrap-around ([toInt32]) and with the shift count taken modulo 32.
      A [bigint] is an unbounded [Z].
    - Floating point values are carried as their IEEE-754 bit patterns.
    - [throw] is the [Err] outcome of the [res] monad; the recursive descent
      takes a fuel argument, since the source can loop on hostile input.
    - The number of keys that one [for ... in] can collect is a constant of
      the JavaScript engine; the reader takes it from the class [Engine],
      and the properties of the reader are proved for every engine. *)

From Stdlib Require Import ZArith List Bool Lia.
From Stdlib Require Import Strings.String Strings.Ascii Strings.Byte.
From Stdlib Require Import Sorting.Sorted Sorting.Permutation.
Import ListNotations.

Open Scope Z_scope.

(** ** Errors ([src/errors.ts]) and the outcome monad *)

Inductive error : Type :=
| UnexpectedEndTagError
| InvalidTagError
| VarNumTooLargeError
| UnexpectedBufferEndError
| InvalidOpeningTagError
| UnexpectedRootNameError
| RangeError        (* built-in: DataView access out of bounds, invalid typed array length *)
| DecompressError.  (* any failure of the external decompressor *)

Inductive res (A : Type) : Type :=
| OK (a : A)
| Err (e : error)
| OutOfFuel.

Arguments OK {A} a.
Arguments Err {A} e.
Arguments OutOfFuel {A}.

Definition bind {A B : Type} (m : res A) (k : A -> res B) : res B :=
  match m with
  | OK a => k a
  | Err e => Err e
  | OutOfFuel => OutOfFuel
  end.

Notation "x <- m ;; k" := (bind m (fun x => k))
  (at level 61, m at next level, right associativity).
Notation "' p <- m ;; k" := (bind m (fun x => match x with p => k end))
  (at level 61, p pattern, m at next level, right associativity).

(** [try { a } catch { b }]: only a thrown error reaches the handler. *)
Definition tryCatch {A : Type} (a : res A) (handler : error -> res A) : res A :=
  match a with
  | Err e => handler e
  | other => other
  end.

(** ** JavaScript 32-bit integer operators *)

Module JS.

Definition toInt32 (z : Z) : Z := (z + 2^31) mod 2^32 - 2^31.

Definition and (a b : Z) : Z := Z.land (toInt32 a) (toInt32 b).
Definition or (a b : Z) : Z := Z.lor (toInt32 a) (toInt32 b).
Definition xor (a b : Z) : Z := Z.lxor (toInt32 a) (toInt32 b).
Definition shl (a s : Z) : Z := toInt32 (Z.shiftl (toInt32 a) (s mod 32)).
Definition sar (a s : Z) : Z := Z.shiftr (toInt32 a) (s mod 32).

End JS.

(** ** Bytes, [Uint8Array] and [DataView] *)

Definition u8 (b : byte) : Z := Z.of_N (Byte.to_N b).

Definition byteOfZ (z : Z) : byte :=
  match Byte.of_N (Z.to_N (z mod 256)) with
  | Some b => b
  | None => x00
  end.

Definition bytes (l : list Z) : list byte := map byteOfZ l.

Definition toSigned (bits v : Z) : Z :=
  if v <? 2 ^ (bits - 1) then v else v - 2 ^ bits.

(** Conversion of an integer to a signed element of [bits] bits
    ([ToInt8], [ToInt16], [ToInt32], [ToBigInt64]). *)
Definition toIntN (bits z : Z) : Z :=
  (z + 2 ^ (bits - 1)) mod 2 ^ bits - 2 ^ (bits - 1).

(** Little-endian value of a byte string. *)
Fixpoint leValue (bs : list byte) : Z :=
  match bs with
  | [] => 0
  | b :: rest => u8 b + 256 * leValue rest
  end.

Definition byteLength (d : list byte) : Z := Z.of_nat (List.length d).

Module DataView.

(** The [n] bytes at [off], or the [RangeError] of an access outside the
    bounds of the view. *)
Definition slice (d : list byte) (off n : Z) : res (list byte) :=
  if (0 <=? off) && (off + n <=? byteLength d)
  then OK (firstn (Z.to_nat n) (skipn (Z.to_nat off) d))
  else Err RangeError.

Definition getUint (n : Z) (d : list byte) (off : Z) (littleEndian : bool) : res Z :=
  bs <- slice d off n ;;
  OK (leValue (if littleEndian then bs else rev bs)).

Definition getInt (n : Z) (d : list byte) (off : Z) (littleEndian : bool) : res Z :=
  v <- getUint n d off littleEndian ;;
  OK (toSigned (8 * n) v).

Definition getUint8 d off := getUint 1 d off false.
Definition getInt8 d off := getInt 1 d off false.
Definition getUint16 := getUint 2.
Definition getInt16 := getInt 2.
Definition getUint32 := getUint 4.
Definition getInt32 := getInt 4.
Definition getBigInt64 := getInt 8.
(* floats: the bit pattern *)
Definition getFloat32 := getUint 4.
Definition getFloat64 := getUint 8.

End DataView.

(** [TypedArray.prototype.subarray(begin, end)]: negative indices count from
    the end, and both are clamped to the array. *)
Definition relativeIndex (len i : Z) : Z :=
  if i <? 0 then Z.max (len + i) 0 else Z.min i len.

Definition subarray (d : list byte) (begin end_ : Z) : list byte :=
  let len := byteLength d in
  let b := relativeIndex len begin in
  let e := relativeIndex len end_ in
  firstn (Z.to_nat (Z.max (e - b) 0)) (skipn (Z.to_nat b) d).

(** ** Tag model ([src/tag.ts]) *)

Inductive TAG : Type :=
| END | BYTE | SHORT | INT | LONG | FLOAT | DOUBLE
| BYTE_ARRAY | STRING | LIST | COMPOUND | INT_ARRAY | LONG_ARRAY.

Definition TAG_code (t : TAG) : Z :=
  match t with
  | END => 0 | BYTE => 1 | SHORT => 2 | INT => 3 | LONG => 4 | FLOAT => 5
  | DOUBLE => 6 | BYTE_ARRAY => 7 | STRING => 8 | LIST => 9 | COMPOUND => 10
  | INT_ARRAY => 11 | LONG_ARRAY => 12
  end.

(** [isTagType]: [type in TAG] holds for the thirteen enum values; the
    result carries the member. *)
Definition isTagType (type : Z) : option TAG :=
  match type with
  | 0 => Some END | 1 => Some BYTE | 2 => Some SHORT | 3 => Some INT
  | 4 => Some LONG | 5 => Some FLOAT | 6 => Some DOUBLE
  | 7 => Some BYTE_ARRAY | 8 => Some STRING | 9 => Some LIST
  | 10 => Some COMPOUND | 11 => Some INT_ARRAY | 12 => Some LONG_ARRAY
  | _ => None
  end.

Inductive NumericArrayConstructor : Type :=
| Int8Array | Int16Array | Int32Array | BigInt64Array | Float32Array | Float64Array.

Definition getAppropriateTypedArray (type : TAG) : option NumericArrayConstructor :=
  match type with
  | BYTE => Some Int8Array
  | SHORT => Some Int16Array
  | INT => Some Int32Array
  | LONG => Some BigInt64Array
  | FLOAT => Some Float32Array
  | DOUBLE => Some Float64Array
  | _ => None
  end.

(** Element width of a packed buffer, in bits. *)
Definition BITS_PER_ELEMENT (c : NumericArrayConstructor) : Z :=
  match c with
  | Int8Array => 8
  | Int16Array => 16
  | Int32Array | Float32Array => 32
  | BigInt64Array | Float64Array => 64
  end.

(** The value tree.  [NumberTag] is a [number] read as an integer,
    [FloatTag w bits] a [number] read as a [w]-bit float. *)
#[warnings="-register-all"]
Inductive Tag : Type :=
| NumberTag (n : Z)
| FloatTag (width : Z) (bits : Z)
| BigIntTag (n : Z)
| StringTag (s : string)
| NumericArrayTag (c : NumericArrayConstructor) (elements : list Z)
| ArrayTag (elements : list Tag)
| CompoundTag (properties : list (string * Tag)).

(** ** Property assignment and key order of a [CompoundTag]

    A [CompoundTag] is an ordinary object created by [{}].  Its own
    properties are kept in creation order.  [value[name] = entry] updates an
    existing own property in place and otherwise creates one, except for
    the name [__proto__], which reaches the accessor inherited from
    [Object.prototype] and creates no own property.  The prototype slot
    itself is not tracked here: an entry named [__proto__] that is a list,
    a packed buffer or a compound becomes the prototype of the compound,
    and a later assignment to a name that is not yet an own property then
    goes through that prototype (a packed buffer ignores numeric names
    outside its bounds and refuses names such as [length] with a
    TypeError).  The own properties below are those of a compound whose
    prototype was never replaced.  Enumeration ([OrdinaryOwnPropertyKeys])
    lists the array-index keys first, in ascending numeric order, then the
    other keys in creation order.  Strings stand for JavaScript strings
    through any encoding that agrees with ASCII on ASCII. *)

Definition Properties : Type := list (string * Tag).

Fixpoint hasOwnProperty (o : Properties) (name : string) : bool :=
  match o with
  | [] => false
  | (k, _) :: rest => String.eqb k name || hasOwnProperty rest name
  end.

Fixpoint getProperty (o : Properties) (name : string) : option Tag :=
  match o with
  | [] => None
  | (k, v) :: rest => if String.eqb k name then Some v else getProperty rest name
  end.

Fixpoint replaceProperty (o : Properties) (name : string) (entry : Tag) : Properties :=
  match o with
  | [] => []
  | (k, v) :: rest =>
      if String.eqb k name then (k, entry) :: rest
      else (k, v) :: replaceProperty rest name entry
  end.

Definition setProperty (o : Properties) (name : string) (entry : Tag) : Properties :=
  if String.eqb name "__proto__" then o
  else if hasOwnProperty o name then replaceProperty o name entry
  else o ++ [(name, entry)].

Definition digitValue (c : ascii) : option N :=
  let n := N_of_ascii c in
  if ((48 <=? n) && (n <=? 57))%N then Some (n - 48)%N else None.

Fixpoint parseDigits (s : string) (acc : N) : option N :=
  match s with
  | EmptyString => Some acc
  | String c rest =>
      match digitValue c with
      | Some d => parseDigits rest (10 * acc + d)%N
      | None => None
      end
  end.

(** An array index is the canonical decimal numeral of an integer in
    [0, 2^32 - 2]. *)
Definition arrayIndex (s : string) : option N :=
  match s with
  | EmptyString => None
  | String c rest =>
      if Ascii.eqb c "0"
      then match rest with EmptyString => Some 0%N | _ => None end
      else match parseDigits s 0 with
           | Some n => if (n <=? 4294967294)%N then Some n else None
           | None => None
           end
  end.

Definition isArrayIndex (s : string) : bool :=
  match arrayIndex s with Some _ => true | None => false end.

Definition indexOf (s : string) : N :=
  match arrayIndex s with Some n => n | None => 0%N end.

Fixpoint insertKey (k : string) (sorted : list string) : list string :=
  match sorted with
  | [] => [k]
  | k' :: rest =>
      if (indexOf k <=? indexOf k')%N then k :: sorted
      else k' :: insertKey k rest
  end.

Definition sortKeys (l : list string) : list string :=
  fold_right insertKey [] l.

Definition ownKeys (o : Properties) : list string :=
  let names := map fst o in
  sortKeys (filter isArrayIndex names)
    ++ filter (fun k => negb (isArrayIndex k)) names.

(** ** Framing parameters ([ReadOptions])

    Modelled from the spec: [src/format.ts], which declares [Endian],
    [Compression], [RootName], [BedrockLevel] and [NBTData], is not part of
    the sources at hand; the values are those that [read] validates and
    that the specification lists. *)

Inductive Endian : Type := big | little | little_varint.

Inductive CompressionFormat : Type := deflate | deflate_raw | gzip.

(** [None] is [null]: no compression. *)
Definition Compression : Type := option CompressionFormat.

(** [None] is [null]: a nameless root. *)
Definition RootName : Type := option string.

Inductive RootNameOption : Type :=
| RootNameFlag (b : bool)
| RootNameIs (name : RootName).

Definition BedrockLevel : Type := bool.

Record ReadOptions : Type := {
  rootName : RootNameOption;
  endian : Endian;
  compression : Compression;
  bedrockLevel : BedrockLevel;
  strict : bool
}.

(** [Partial<ReadOptions>]: [None] is an omitted option. *)
Record PartialReadOptions : Type := {
  rootName_opt : option RootNameOption;
  endian_opt : option Endian;
  compression_opt : option Compression;
  bedrockLevel_opt : option BedrockLevel;
  strict_opt : option bool
}.

Record NBTData : Type := {
  nbt_data : Tag;
  nbt_rootName : RootName;
  nbt_endian : Endian;
  nbt_compression : Compression;
  nbt_bedrockLevel : BedrockLevel;
  nbt_byteOffset : option Z
}.

Definition Endian_eqb (a b : Endian) : bool :=
  match a, b with
  | big, big | little, little | little_varint, little_varint => true
  | _, _ => false
  end.

(** ** The byte cursor ([class NBTReader]) *)

Record NBTReader : Type := {
  byteOffset : Z;
  data : list byte;
  littleEndian : bool;
  varint : bool
}.

Definition advance (r : NBTReader) (n : Z) : NBTReader :=
  {| byteOffset := byteOffset r + n; data := data r;
     littleEndian := littleEndian r; varint := varint r |}.

Definition withData (r : NBTReader) (d : list byte) : NBTReader :=
  {| byteOffset := byteOffset r; data := d;
     littleEndian := littleEndian r; varint := varint r |}.

Definition hasGzipHeader (r : NBTReader) : res bool :=
  header <- DataView.getUint16 (data r) 0 false ;;
  OK (header =? 0x1F8B).

Definition hasZlibHeader (r : NBTReader) : res bool :=
  header <- DataView.getUint8 (data r) 0 ;;
  OK (header =? 0x78).

Definition hasBedrockLevelHeader (r : NBTReader) (endian : Endian) : res bool :=
  if negb (Endian_eqb endian little) || (byteLength (data r) <? 8) then OK false
  else
    len <- DataView.getUint32 (data r) 4 true ;;
    OK (len =? byteLength (data r) - 8).

Definition allocate (r : NBTReader) (len : Z) : res unit :=
  if byteOffset r + len >? byteLength (data r)
  then Err UnexpectedBufferEndError
  else OK tt.

(** The common shape of the fixed-width reads: bounds check, [DataView]
    access at the cursor, advance. *)
Definition readFixed (width : Z) (get : list byte -> Z -> res Z) (r : NBTReader)
  : res (Z * NBTReader) :=
  _ <- allocate r width ;;
  value <- get (data r) (byteOffset r) ;;
  OK (value, advance r width).

Definition readUnsignedByte (r : NBTReader) : res (Z * NBTReader) :=
  readFixed 1 DataView.getUint8 r.

Definition readByte (r : NBTReader) : res (Z * NBTReader) :=
  readFixed 1 DataView.getInt8 r.

Definition readUnsignedShort (r : NBTReader) : res (Z * NBTReader) :=
  readFixed 2 (fun d off => DataView.getUint16 d off (littleEndian r)) r.

Definition readShort (r : NBTReader) : res (Z * NBTReader) :=
  readFixed 2 (fun d off => DataView.getInt16 d off (littleEndian r)) r.

Definition readUnsignedInt (r : NBTReader) : res (Z * NBTReader) :=
  readFixed 4 (fun d off => DataView.getUint32 d off (littleEndian r)) r.

Definition readInt (r : NBTReader) : res (Z * NBTReader) :=
  readFixed 4 (fun d off => DataView.getInt32 d off (littleEndian r)) r.

Definition readLong (r : NBTReader) : res (Z * NBTReader) :=
  readFixed 8 (fun d off => DataView.getBigInt64 d off (littleEndian r)) r.

Definition readFloat (r : NBTReader) : res (Z * NBTReader) :=
  readFixed 4 (fun d off => DataView.getFloat32 d off (littleEndian r)) r.

Definition readDouble (r : NBTReader) : res (Z * NBTReader) :=
  readFixed 8 (fun d off => DataView.getFloat64 d off (littleEndian r)) r.

Definition readTagType (r : NBTReader) : res (TAG * NBTReader) :=
  '(type, r1) <- readUnsignedByte r ;;
  match isTagType type with
  | Some t => OK (t, r1)
  | None => Err InvalidTagError
  end.

(** *** Varints

    The [while (true)] loops run on a counter.  [readVarInt] has no bound of
    its own: it stops at the end of the buffer at the latest, so the bytes
    left (plus one) bound its iterations.  The two ZigZag loops leave after
    at most ten bytes. *)

Fixpoint readVarInt_loop (n : nat) (value shift : Z) (r : NBTReader)
  : res (Z * NBTReader) :=
  match n with
  | O => OutOfFuel
  | S n' =>
      '(byte, r1) <- readByte r ;;
      let value := JS.or value (JS.shl (JS.and byte 0x7F) shift) in
      if JS.and byte 0x80 =? 0 then OK (value, r1)
      else readVarInt_loop n' value (shift + 7) r1
  end.

Definition readVarInt (r : NBTReader) : res (Z * NBTReader) :=
  readVarInt_loop (S (Z.to_nat (byteLength (data r) - byteOffset r))) 0 0 r.

Fixpoint readVarIntZigZag_loop (n : nat) (result shift : Z) (r : NBTReader)
  : res (Z * NBTReader) :=
  match n with
  | O => OutOfFuel
  | S n' =>
      _ <- allocate r 1 ;;
      '(byte, r1) <- readByte r ;;
      let result := JS.or result (JS.shl (JS.and byte 0x7F) shift) in
      if JS.and byte 0x80 =? 0 then OK (result, r1)
      else
        let shift := shift + 7 in
        if shift >? 63 then Err VarNumTooLargeError
        else readVarIntZigZag_loop n' result shift r1
  end.

Definition readVarIntZigZag (r : NBTReader) : res (Z * NBTReader) :=
  '(result, r1) <- readVarIntZigZag_loop 10 0 0 r ;;
  let zigzag :=
    JS.xor (JS.sar (JS.xor (JS.sar (JS.shl result 63) 63) result) 1)
           (JS.and result (JS.shl 1 63)) in
  OK (zigzag, r1).

Fixpoint readVarLongZigZag_loop (n : nat) (result shift : Z) (r : NBTReader)
  : res (Z * NBTReader) :=
  match n with
  | O => OutOfFuel
  | S n' =>
      _ <- allocate r 1 ;;
      '(byte, r1) <- readByte r ;;
      let result := Z.lor result (Z.shiftl (Z.land byte 0x7F) shift) in
      if JS.and byte 0x80 =? 0 then OK (result, r1)
      else
        let shift := shift + 7 in
        if shift >? 63 then Err VarNumTooLargeError
        else readVarLongZigZag_loop n' result shift r1
  end.

Definition readVarLongZigZag (r : NBTReader) : res (Z * NBTReader) :=
  '(result, r1) <- readVarLongZigZag_loop 10 0 0 r ;;
  let zigzag := Z.lxor (Z.shiftr result 1) (- Z.land result 1) in
  OK (zigzag, r1).

(** ** The grammar decoder and the format driver

    The two external collaborators are parameters: the Modified UTF-8
    decoder of the [mutf-8] package (non-fatal by default, hence total) and
    [decompress] of [src/compression.ts], whose failure is [None]. *)

(** One limit of the JavaScript engine decides a result of the reader:
    [for (const i in value)] collects the keys of [value] before its first
    iteration, and the engine raises a [RangeError] (Invalid array length)
    when there are more keys than it can hold.  The capacity is a constant
    of the engine's build (in V8 the largest FixedArray, which differs
    between versions and lies below 2^27), so it is a parameter of the
    reader. *)
Class Engine : Type := { maxKeys : Z }.

Section Decoder.

Variable decode : list byte -> string.
Variable decompress : list byte -> CompressionFormat -> option (list byte).
Context {engine : Engine}.

Definition readLength (r : NBTReader) : res (Z * NBTReader) :=
  if varint r then readVarIntZigZag r else readInt r.

(** [new Int8Array(uint8array)]: every byte reinterpreted as signed. *)
Definition newInt8Array (bs : list byte) : list Z :=
  map (fun b => toSigned 8 (u8 b)) bs.

Definition readByteArray (r : NBTReader) : res (Tag * NBTReader) :=
  '(length, r1) <- readLength r ;;
  _ <- allocate r1 length ;;
  let value :=
    newInt8Array (subarray (data r1) (byteOffset r1) (byteOffset r1 + length)) in
  OK (NumericArrayTag Int8Array value, advance r1 length).

Definition readString (r : NBTReader) : res (string * NBTReader) :=
  '(length, r1) <- (if varint r then readVarInt r else readUnsignedShort r) ;;
  _ <- allocate r1 length ;;
  let value := decode (subarray (data r1) (byteOffset r1) (byteOffset r1 + length)) in
  OK (value, advance r1 length).

(** [new C(length)] for a packed buffer: zero-filled, and a [RangeError]
    for a negative length.  Allocation limits of the engine are not
    modelled. *)
Definition newTypedArray (length : Z) : res (list Z) :=
  if length <? 0 then Err RangeError
  else OK (repeat 0 (Z.to_nat length)).

(** [value[i] = entry] on a packed buffer; a store outside the buffer is
    ignored. *)
Fixpoint storeAt (value : list Z) (i : nat) (entry : Z) : list Z :=
  match value, i with
  | [], _ => []
  | _ :: rest, O => entry :: rest
  | x :: rest, S i' => x :: storeAt rest i' entry
  end.

Fixpoint readArray_loop (readEntry : NBTReader -> res (Z * NBTReader))
    (n i : nat) (value : list Z) (r : NBTReader) : res (list Z * NBTReader) :=
  match n with
  | O => OK (value, r)
  | S n' =>
      '(entry, r1) <- readEntry r ;;
      readArray_loop readEntry n' (S i) (storeAt value i entry) r1
  end.

(** [for (const i in value)] on a packed buffer of [length] elements: the
    keys ["0"] to [length - 1] are collected first, which the engine
    refuses above its capacity; they are then visited in ascending
    order. *)
Definition forIn (length : Z) : res unit :=
  if length >? maxKeys then Err RangeError else OK tt.

Definition readIntArray (r : NBTReader) : res (Tag * NBTReader) :=
  '(length, r1) <- readLength r ;;
  value <- newTypedArray length ;;
  _ <- forIn length ;;
  '(value, r2) <- readArray_loop readInt (Z.to_nat length) 0 value r1 ;;
  OK (NumericArrayTag Int32Array value, r2).

Definition readLongArray (r : NBTReader) : res (Tag * NBTReader) :=
  '(length, r1) <- readLength r ;;
  value <- newTypedArray length ;;
  _ <- forIn length ;;
  '(value, r2) <- readArray_loop readLong (Z.to_nat length) 0 value r1 ;;
  OK (NumericArrayTag BigInt64Array value, r2).

(** The number stored by [value[i] = entry] in a buffer built by [c], for
    an entry read with the element kind of the buffer: integers wrap to
    the element width, floats keep their bit pattern. *)
Definition elementOf (c : NumericArrayConstructor) (entry : Tag) : Z :=
  match entry with
  | NumberTag n | BigIntTag n => toIntN (BITS_PER_ELEMENT c) n
  | FloatTag _ bits => bits
  | _ => 0
  end.

Definition tagged {A : Type} (f : A -> Tag) (m : res (A * NBTReader))
  : res (Tag * NBTReader) :=
  '(v, r) <- m ;; OK (f v, r).

Section Recursion.

(** [readTag] at the nesting depth below the current one. *)
Variable readEntry : TAG -> NBTReader -> res (Tag * NBTReader).

Fixpoint readList_push (type : TAG) (n : nat) (value : list Tag) (r : NBTReader)
  : res (list Tag * NBTReader) :=
  match n with
  | O => OK (value, r)
  | S n' =>
      '(entry, r1) <- readEntry type r ;;
      readList_push type n' (value ++ [entry]) r1
  end.

Definition readList_with (r : NBTReader) : res (Tag * NBTReader) :=
  '(type, r1) <- readTagType r ;;
  '(length, r2) <- readLength r1 ;;
  match getAppropriateTypedArray type with
  | Some appropriateTypedArray =>
      value <- newTypedArray length ;;
      '(value, r3) <-
        readArray_loop (fun r => '(entry, r') <- readEntry type r ;;
                                 OK (elementOf appropriateTypedArray entry, r'))
                       (Z.to_nat length) 0 value r2 ;;
      OK (NumericArrayTag appropriateTypedArray value, r3)
  | None =>
      '(value, r3) <- readList_push type (Z.to_nat length) [] r2 ;;
      OK (ArrayTag value, r3)
  end.

Fixpoint readCompound_loop (n : nat) (value : Properties) (r : NBTReader)
  : res (Tag * NBTReader) :=
  match n with
  | O => OutOfFuel
  | S n' =>
      '(type, r1) <- readTagType r ;;
      match type with
      | END => OK (CompoundTag value, r1)
      | _ =>
          '(name, r2) <- readString r1 ;;
          '(entry, r3) <- readEntry type r2 ;;
          readCompound_loop n' (setProperty value name entry) r3
      end
  end.

End Recursion.

(** [fuel] bounds the nesting depth of lists and compounds and the number
    of entries read by one compound. *)
Fixpoint readTag (fuel : nat) (type : TAG) (r : NBTReader) {struct fuel}
  : res (Tag * NBTReader) :=
  match type with
  | END => Err UnexpectedEndTagError
  | BYTE => tagged NumberTag (readByte r)
  | SHORT => tagged NumberTag (readShort r)
  | INT => tagged NumberTag (if varint r then readVarIntZigZag r else readInt r)
  | LONG => tagged BigIntTag (if varint r then readVarLongZigZag r else readLong r)
  | FLOAT => tagged (FloatTag 32) (readFloat r)
  | DOUBLE => tagged (FloatTag 64) (readDouble r)
  | BYTE_ARRAY => readByteArray r
  | STRING => tagged StringTag (readString r)
  | LIST =>
      match fuel with
      | O => OutOfFuel
      | S fuel' => readList_with (readTag fuel') r
      end
  | COMPOUND =>
      match fuel with
      | O => OutOfFuel
      | S fuel' => readCompound_loop (readTag fuel') fuel [] r
      end
  | INT_ARRAY => readIntArray r
  | LONG_ARRAY => readLongArray r
  end.

Definition readList (fuel : nat) (r : NBTReader) : res (Tag * NBTReader) :=
  readTag fuel LIST r.

Definition readCompound (fuel : nat) (r : NBTReader) : res (Tag * NBTReader) :=
  readTag fuel COMPOUND r.

Definition readsRootName (rootName : RootNameOption) : bool :=
  match rootName with
  | RootNameIs (Some _) => true
  | RootNameIs None => false
  | RootNameFlag b => b
  end.

Definition rootNameMismatch (rootName : RootNameOption) (rootNameV : RootName) : bool :=
  match rootName, rootNameV with
  | RootNameIs (Some expected), Some found => negb (String.eqb found expected)
  | RootNameIs (Some _), None => true
  | _, _ => false
  end.

Definition readRoot (fuel : nat) (r : NBTReader) (o : ReadOptions) : res NBTData :=
  r <- match compression o with
       | Some format =>
           match decompress (data r) format with
           | Some d => OK (withData r d)
           | None => Err DecompressError
           end
       | None => OK r
       end ;;
  r <- (if bedrockLevel o
        then '(_, r1) <- readUnsignedInt r ;;
             '(_, r2) <- readUnsignedInt r1 ;;
             OK r2
        else OK r) ;;
  '(type, r) <- readTagType r ;;
  match type with
  | LIST | COMPOUND =>
      '(rootNameV, r) <-
        (if readsRootName (rootName o)
         then '(s, r') <- readString r ;; OK (Some s, r')
         else OK (None, r)) ;;
      if rootNameMismatch (rootName o) rootNameV then Err UnexpectedRootNameError
      else
        '(root, r) <- readTag fuel type r ;;
        if strict o && (byteLength (data r) >? byteOffset r)
        then Err UnexpectedEndTagError
        else OK {| nbt_data := root;
                   nbt_rootName := rootNameV;
                   nbt_endian := endian o;
                   nbt_compression := compression o;
                   nbt_bedrockLevel := bedrockLevel o;
                   nbt_byteOffset :=
                     if strict o then None else Some (byteOffset r) |}
  | _ => Err InvalidOpeningTagError
  end.

(** *** The format driver ([read])

    [read] re-enters itself with one more option set for every axis that
    is still open.  The three axes are resolved in a fixed order, so the
    re-entries are laid out as three layers: [read] settles the
    compression, [read_endian] the byte order, [read_rootName] the root
    name, and [read_resolved] is the tail of the function, reached once
    all three are known.  The option checks that raise [TypeError] are
    excluded by the types. *)

Definition newReader (input : list byte) (littleEndian varint : bool) : NBTReader :=
  {| byteOffset := 0; data := input;
     littleEndian := littleEndian; varint := varint |}.

Definition readerFor (input : list byte) (endian : option Endian) : NBTReader :=
  newReader input
    (match endian with Some big => false | _ => true end)
    (match endian with Some little_varint => true | _ => false end).

Definition strictOf (options : PartialReadOptions) : bool :=
  match strict_opt options with Some b => b | None => true end.

Definition read_resolved (fuel : nat) (input : list byte)
    (options : PartialReadOptions)
    (compression : Compression) (endian : Endian) (rootName : RootNameOption)
  : res NBTData :=
  let reader := readerFor input (Some endian) in
  (* data = await decompress(data, compression): rebinds the local only *)
  _ <- match compression with
       | Some format =>
           match decompress input format with
           | Some _ => OK tt
           | None => Err DecompressError
           end
       | None => OK tt
       end ;;
  bedrockLevel <- match bedrockLevel_opt options with
                  | Some b => OK b
                  | None => hasBedrockLevelHeader reader endian
                  end ;;
  readRoot fuel reader
    {| rootName := rootName; endian := endian; compression := compression;
       bedrockLevel := bedrockLevel; strict := strictOf options |}.

Definition read_rootName (fuel : nat) (input : list byte)
    (options : PartialReadOptions) (compression : Compression) (endian : Endian)
  : res NBTData :=
  match rootName_opt options with
  | Some rootName => read_resolved fuel input options compression endian rootName
  | None =>
      tryCatch
        (read_resolved fuel input options compression endian (RootNameFlag true))
        (fun error =>
           tryCatch
             (read_resolved fuel input options compression endian (RootNameFlag false))
             (fun _ => Err error))
  end.

Definition read_endian (fuel : nat) (input : list byte)
    (options : PartialReadOptions) (compression : Compression) : res NBTData :=
  match endian_opt options with
  | Some endian => read_rootName fuel input options compression endian
  | None =>
      tryCatch (read_rootName fuel input options compression big)
        (fun error =>
           tryCatch (read_rootName fuel input options compression little)
             (fun _ =>
                tryCatch (read_rootName fuel input options compression little_varint)
                  (fun _ => Err error)))
  end.

Definition read (fuel : nat) (input : list byte) (options : PartialReadOptions)
  : res NBTData :=
  match compression_opt options with
  | Some compression => read_endian fuel input options compression
  | None =>
      let reader := readerFor input (endian_opt options) in
      isGzip <- hasGzipHeader reader ;;
      if isGzip then read_endian fuel input options (Some gzip)
      else
        isZlib <- hasZlibHeader reader ;;
        if isZlib then read_endian fuel input options (Some deflate)
        else
          tryCatch (read_endian fuel input options None)
            (fun error =>
               tryCatch (read_endian fuel input options (Some deflate_raw))
                 (fun _ => Err error))
  end.

End Decoder.

(** ** Collaborator instances for concrete runs

    [asciiDecode] agrees with Modified UTF-8 on the bytes [01]..[7F].
    [storedDecompress] inflates the raw-deflate streams made of one final
    stored block (RFC 1951, 3.2.4: header byte [01], LEN, NLEN, LEN literal
    bytes) and refuses every other stream. *)

Definition asciiDecode (bs : list byte) : string := string_of_list_byte bs.

Definition storedDecompress (d : list byte) (format : CompressionFormat)
  : option (list byte) :=
  match format, d with
  | deflate_raw, x01 :: l0 :: l1 :: n0 :: n1 :: payload =>
      let len := u8 l0 + 256 * u8 l1 in
      let nlen := u8 n0 + 256 * u8 n1 in
      if (len + nlen =? 65535) && (byteLength payload =? len)
      then Some payload
      else None
  | _, _ => None
  end.

(** An engine whose for-in holds up to 2^27 - 1 keys. *)
Definition engine27 : Engine := {| maxKeys := 2^27 - 1 |}.

Definition defaults : PartialReadOptions :=
  {| rootName_opt := None; endian_opt := None; compression_opt := None;
     bedrockLevel_opt := None; strict_opt := None |}.

(** Readers over literal byte strings, for the concrete runs. *)

Definition bigEndianReader (l : list Z) : NBTReader :=
  {| byteOffset := 0; data := bytes l; littleEndian := false; varint := false |}.

Definition varintReader (l : list Z) : NBTReader :=
  {| byteOffset := 0; data := bytes l; littleEndian := true; varint := true |}.

(** ** Vocabulary of the statements *)

(** The bytes [bs] lie in the buffer at the cursor. *)
Definition bytesAt (r : NBTReader) (bs : list byte) : Prop :=
  exists pre post, data r = pre ++ bs ++ post /\ byteOffset r = byteLength pre.

(** Continuation flag and payload of a varint byte. *)
Definition continues (b : byte) : bool := Z.testbit (u8 b) 7.

Definition payload (b : byte) : Z := Z.land (u8 b) 127.

(** A varint: bytes with the continuation flag set, closed by one byte
    with the flag clear. *)
Fixpoint terminatedVarint (bs : list byte) : bool :=
  match bs with
  | [] => false
  | [b] => negb (continues b)
  | b :: rest => continues b && terminatedVarint rest
  end.

(** The unsigned value accumulated from the 7-bit groups, least significant
    group first. *)
Fixpoint varintValue (bs : list byte) : Z :=
  match bs with
  | [] => 0
  | b :: rest => payload b + 128 * varintValue rest
  end.

(** ZigZag decoding as the specification writes it:
    [(n >> 1) XOR -(n AND 1)] on the unsigned [n]. *)
Definition zigzagDecode (n : Z) : Z :=
  Z.lxor (Z.shiftr n 1) (- Z.land n 1).

(** The encoder of the round trip, following the words of the
    specification (the repository has no encoder): the 64-bit ZigZag word
    [(n << 1) XOR (n >> 63)], then the standard varint bytes, seven bits at
    a time, least significant group first. *)
Definition zigzagEncode64 (n : Z) : Z :=
  Z.lxor (Z.shiftl n 1) (Z.shiftr n 63) mod 2 ^ 64.

Fixpoint varintEncode (groups : nat) (z : Z) : list byte :=
  match groups with
  | O => []
  | S groups' =>
      if z <? 128 then [byteOfZ z]
      else byteOfZ (Z.lor (Z.land z 127) 128) :: varintEncode groups' (Z.shiftr z 7)
  end.

(** A 64-bit word takes at most ten groups. *)
Definition varLongEncode (n : Z) : list byte :=
  varintEncode 10 (zigzagEncode64 n).

(** Ten continuation bytes, then a closing byte. *)
Definition longVarint : list Z :=
  [0x80; 0x80; 0x80; 0x80; 0x80; 0x80; 0x80; 0x80; 0x80; 0x80; 0x01].

(** A Bedrock level file (version 8, payload length 4, an empty compound
    with an empty little-endian name) and the raw-deflate stream that holds
    it in one stored block. *)
Definition bedrockLevelFile : list Z :=
  [8; 0; 0; 0; 4; 0; 0; 0; 0x0A; 0; 0; 0].

Definition storedLevelFile : list Z :=
  [1; 12; 0; 0xF3; 0xFF] ++ bedrockLevelFile.

Definition withStrict (o : ReadOptions) (b : bool) : ReadOptions :=
  {| rootName := rootName o; endian := endian o; compression := compression o;
     bedrockLevel := bedrockLevel o; strict := b |}.

Definition withStrictOption (o : PartialReadOptions) (b : option bool)
  : PartialReadOptions :=
  {| rootName_opt := rootName_opt o; endian_opt := endian_opt o;
     compression_opt := compression_opt o;
     bedrockLevel_opt := bedrockLevel_opt o; strict_opt := b |}.

Definition withByteOffset (d : NBTData) (off : option Z) : NBTData :=
  {| nbt_data := nbt_data d; nbt_rootName := nbt_rootName d;
     nbt_endian := nbt_endian d; nbt_compression := nbt_compression d;
     nbt_bedrockLevel := nbt_bedrockLevel d; nbt_byteOffset := off |}.

(** The buffer that [readRoot] decodes: the input, or its decompressed
    form. *)
Definition decodedBuffer (decompress : list byte -> CompressionFormat -> option (list byte))
    (r : NBTReader) (o : ReadOptions) : option (list byte) :=
  match compression o with
  | Some format => decompress (data r) format
  | None => Some (data r)
  end.

(** A read leaves everything but the cursor offset as it was. *)
Definition moves (r r' : NBTReader) : Prop := exists k, r' = advance r k.

Definition moving {A : Type} (f : NBTReader -> res (A * NBTReader)) : Prop :=
  forall r v r', f r = OK (v, r') -> moves r r'.

(** Framing hints of the concrete runs: everything given but the Bedrock
    level flag. *)
Definition hintsFor (endian : Endian) (compression : Compression)
    (bedrockLevel : option BedrockLevel) (strict : option bool)
  : PartialReadOptions :=
  {| rootName_opt := Some (RootNameFlag true); endian_opt := Some endian;
     compression_opt := Some compression;
     bedrockLevel_opt := bedrockLevel; strict_opt := strict |}.

Definition emptyCompound (rootName : RootName) (endian : Endian)
    (compression : Compression) (bedrockLevel : BedrockLevel)
    (byteOffset : option Z) : NBTData :=
  {| nbt_data := CompoundTag []; nbt_rootName := rootName;
     nbt_endian := endian; nbt_compression := compression;
     nbt_bedrockLevel := bedrockLevel; nbt_byteOffset := byteOffset |}.

(** The numeric element kinds and their packed buffers, as the
    specification lists them. *)
Definition naturalBuffer : list (TAG * NumericArrayConstructor) :=
  [ (BYTE, Int8Array); (SHORT, Int16Array); (INT, Int32Array);
    (LONG, BigInt64Array); (FLOAT, Float32Array); (DOUBLE, Float64Array) ].

(** The element kinds whose payload has a fixed width in the dialect of the
    reader: all numeric kinds, except INT and LONG in varint mode. *)
Definition fixedWidthElement (r : NBTReader) (type : TAG) : bool :=
  match type with
  | BYTE | SHORT | FLOAT | DOUBLE => true
  | INT | LONG => negb (varint r)
  | _ => false
  end.

Definition BYTES_PER_ELEMENT (c : NumericArrayConstructor) : Z :=
  BITS_PER_ELEMENT c / 8.

(** The children of a list in wire order: [elements] are the successive
    results of [readEntry type], started at [r] and ending at [r']. *)
Inductive readsInOrder (readEntry : TAG -> NBTReader -> res (Tag * NBTReader))
    (type : TAG) : NBTReader -> list Tag -> NBTReader -> Prop :=
| readsInOrder_nil (r : NBTReader) : readsInOrder readEntry type r [] r
| readsInOrder_cons (r r1 r' : NBTReader) (entry : Tag) (rest : list Tag) :
    readEntry type r = OK (entry, r1) ->
    readsInOrder readEntry type r1 rest r' ->
    readsInOrder readEntry type r (entry :: rest) r'.

(** ** Vocabulary for compounds *)

(** The distinct names of a sequence, each at its first occurrence. *)
Fixpoint firstOccurrences (l : list string) : list string :=
  match l with
  | [] => []
  | x :: rest =>
      x :: filter (fun y => negb (String.eqb y x)) (firstOccurrences rest)
  end.

(** The value that the last occurrence of [name] carries. *)
Fixpoint lastValue (entries : list (string * Tag)) (name : string) : option Tag :=
  match entries with
  | [] => None
  | (k, v) :: rest =>
      match lastValue rest name with
      | Some later => Some later
      | None => if String.eqb k name then Some v else None
      end
  end.

(** The entries of a compound on the wire, in order: kind byte, name and
    payload, repeated until the END byte. *)
Inductive compoundEntries (decode : list byte -> string)
    (readEntry : TAG -> NBTReader -> res (Tag * NBTReader))
  : NBTReader -> list (string * Tag) -> NBTReader -> Prop :=
| compoundEntries_end (r r1 : NBTReader) :
    readTagType r = OK (END, r1) ->
    compoundEntries decode readEntry r [] r1
| compoundEntries_entry (r r1 r2 r3 r' : NBTReader) (type : TAG)
    (name : string) (entry : Tag) (rest : list (string * Tag)) :
    readTagType r = OK (type, r1) ->
    type <> END ->
    readString decode r1 = OK (name, r2) ->
    readEntry type r2 = OK (entry, r3) ->
    compoundEntries decode readEntry r3 rest r' ->
    compoundEntries decode readEntry r ((name, entry) :: rest) r'.

Definition assign (o : Properties) (e : string * Tag) : Properties :=
  setProperty o (fst e) (snd e).

Definition isOrdinaryName (k : string) : bool :=
  negb (String.eqb k "__proto__").

Definition absentFrom (acc : list string) (k : string) : bool :=
  negb (existsb (String.eqb k) acc).

(** Ascending numeric order of array-index keys. *)
Definition byIndex (a b : string) : Prop := (indexOf a <= indexOf b)%N.

(** [g] agrees with [f] wherever [f] does not run out of fuel. *)
Definition extends {A B C : Type} (f g : A -> B -> res C) : Prop :=
  forall a b, f a b <> OutOfFuel -> g a b = f a b.

(** A compound whose only entry is a BYTE_ARRAY of length -7 with an empty
    name: reading the entry takes the cursor back to where it started. *)
Definition loopingCompound : list Z :=
  [0x0A; 0; 0; 7; 0; 0; 0xFF; 0xFF; 0xFF; 0xF9].

(** ** Vocabulary of the further properties *)

(** The cursor is not past the end of the buffer. *)
Definition inBounds (r : NBTReader) : Prop :=
  byteOffset r <= byteLength (data r).

(** A successful read leaves the cursor within the buffer. *)
Definition landing {A : Type} (f : NBTReader -> res (A * NBTReader)) : Prop :=
  forall r v r', f r = OK (v, r') -> inBounds r'.

(** A compound entry that leads back to itself, big-endian: kind
    BYTE_ARRAY, an empty name, and the length -7. *)
Definition loopingEntry : list byte :=
  bytes [7; 0; 0; 0xFF; 0xFF; 0xFF; 0xF9].

Definition withRootName (o : ReadOptions) (rootName : RootNameOption) : ReadOptions :=
  {| rootName := rootName; endian := endian o; compression := compression o;
     bedrockLevel := bedrockLevel o; strict := strict o |}.

(** The hints that spell out the framing a result reports. *)
Definition resolvedHints (result : NBTData) (strict : option bool)
  : PartialReadOptions :=
  {| rootName_opt := Some (RootNameIs (nbt_rootName result));
     endian_opt := Some (nbt_endian result);
     compression_opt := Some (nbt_compression result);
     bedrockLevel_opt := Some (nbt_bedrockLevel result);
     strict_opt := strict |}.

(** * The command line arguments

    The module that reads [process.argv]: the input file, the output
    switches and the format options handed to the reader.  The patterns
    are anchored literals, so a pattern is embedded by its shape; [test]
    and [replace] are [RegExp.prototype.test] and
    [String.prototype.replace] with the empty replacement.  The [space]
    option goes through [Number] and is left out. *)

Module CLI.

Local Open Scope string_scope.

Inductive TypeError : Type :=
| MissingInput                        (* Missing argument 'input' *)
| UnexpectedArgument (arg : string)   (* Unexpected argument '${arg}' *)
| InvalidEndian                       (* Endian option must be a valid endian type *)
| InvalidCompression                  (* Compression option must be a valid compression type *)
| InvalidBedrockLevel.                (* Bedrock Level must be a boolean *)

Inductive outcome (A : Type) : Type :=
| Ok (a : A)
| Throw (e : TypeError).
Arguments Ok {A} a.
Arguments Throw {A} e.

Definition andThen {A B : Type} (m : outcome A) (k : A -> outcome B) : outcome B :=
  match m with
  | Ok a => k a
  | Throw e => Throw e
  end.

(** [afterPrefix p s] is what follows [p] in [s], when [s] starts with [p]. *)
Fixpoint afterPrefix (p s : string) : option string :=
  match p with
  | EmptyString => Some s
  | String a p' =>
      match s with
      | EmptyString => None
      | String b s' => if Ascii.eqb a b then afterPrefix p' s' else None
      end
  end.

Inductive Pattern : Type :=
| Exact (literal : string)     (* /^literal$/ *)
| Prefix (literal : string)    (* /^literal/ *)
| Alt (p q : Pattern).         (* /^(?:p|q)/ *)

Fixpoint test (p : Pattern) (arg : string) : bool :=
  match p with
  | Exact literal => String.eqb arg literal
  | Prefix literal =>
      match afterPrefix literal arg with Some _ => true | None => false end
  | Alt p q => test p arg || test q arg
  end.

Fixpoint replace (p : Pattern) (arg : string) : string :=
  match p with
  | Exact literal => if String.eqb arg literal then EmptyString else arg
  | Prefix literal =>
      match afterPrefix literal arg with Some rest => rest | None => arg end
  | Alt p q => if test p arg then replace p arg else replace q arg
  end.

Definition NBT_PATTERN : Pattern := Exact "--nbt".
Definition SNBT_PATTERN : Pattern := Exact "--snbt".
Definition JSON_PATTERN : Pattern := Exact "--json".
Definition ROOT_NAME_PATTERN : Pattern := Prefix "--root-name=".
Definition ENDIAN_PATTERN : Pattern := Prefix "--endian=".
Definition COMPRESSION_PATTERN : Pattern := Prefix "--compression=".
Definition BEDROCK_LEVEL_PATTERN : Pattern :=
  Alt (Exact "--bedrock-level") (Prefix "--bedrock-level=").
Definition SPACE_PATTERN : Pattern := Prefix "--space=".

Inductive Input : Type :=
| Stdin                    (* process.stdin.fd *)
| File (path : string).

(** [file], with the arguments left once [args.shift()] has run. *)
Definition file (isTTY : bool) (argv : list string) : outcome (Input * list string) :=
  if negb isTTY then Ok (Stdin, argv)
  else match argv with
       | first :: args => Ok (File first, args)
       | [] => Throw MissingInput
       end.

Definition expected (arg : string) : bool :=
  test NBT_PATTERN arg || test SNBT_PATTERN arg || test JSON_PATTERN arg
  || test ROOT_NAME_PATTERN arg || test ENDIAN_PATTERN arg
  || test COMPRESSION_PATTERN arg || test BEDROCK_LEVEL_PATTERN arg
  || test SPACE_PATTERN arg.

Fixpoint checkArguments (args : list string) : outcome unit :=
  match args with
  | [] => Ok tt
  | arg :: rest =>
      if expected arg then checkArguments rest
      else Throw (UnexpectedArgument arg)
  end.

(** [args.find(arg => PATTERN.test(arg))?.replace(PATTERN, "")] *)
Definition valueOf (p : Pattern) (args : list string) : option string :=
  option_map (replace p) (find (test p) args).

Definition nbt (args : list string) : bool := existsb (test NBT_PATTERN) args.
Definition snbt (args : list string) : bool := existsb (test SNBT_PATTERN) args.
Definition json (args : list string) : bool := existsb (test JSON_PATTERN) args.

Definition rootName (args : list string) : option string :=
  valueOf ROOT_NAME_PATTERN args.

Definition endian (args : list string) : outcome (option Endian) :=
  match valueOf ENDIAN_PATTERN args with
  | None => Ok None
  | Some value =>
      if String.eqb value "big" then Ok (Some big)
      else if String.eqb value "little" then Ok (Some little)
      else if String.eqb value "little-varint" then Ok (Some little_varint)
      else Throw InvalidEndian
  end.

Definition compression (args : list string) : outcome (option Compression) :=
  match valueOf COMPRESSION_PATTERN args with
  | None => Ok None
  | Some value =>
      if String.eqb value "deflate" then Ok (Some (Some deflate))
      else if String.eqb value "deflate-raw" then Ok (Some (Some deflate_raw))
      else if String.eqb value "gzip" then Ok (Some (Some gzip))
      else if String.eqb value "null" then Ok (Some None)
      else Throw InvalidCompression
  end.

Definition bedrockLevel (args : list string) : outcome (option bool) :=
  match valueOf BEDROCK_LEVEL_PATTERN args with
  | None => Ok None
  | Some value =>
      if String.eqb value "true" then Ok (Some true)
      else if String.eqb value "" then Ok (Some true)
      else if String.eqb value "false" then Ok (Some false)
      else Throw InvalidBedrockLevel
  end.

Record NBTDataOptions : Type := {
  format_rootName : option string;
  format_endian : option Endian;
  format_compression : option Compression;
  format_bedrockLevel : option bool
}.

Record Exports : Type := {
  exports_file : Input;
  exports_nbt : bool;
  exports_snbt : bool;
  exports_json : bool;
  exports_format : NBTDataOptions
}.

(** The module body, statement by statement. *)
Definition exports (isTTY : bool) (argv : list string) : outcome Exports :=
  andThen (file isTTY argv) (fun '(input, args) =>
  andThen (checkArguments args) (fun _ =>
  andThen (endian args) (fun e =>
  andThen (compression args) (fun c =>
  andThen (bedrockLevel args) (fun b =>
  Ok {| exports_file := input;
        exports_nbt := nbt args;
        exports_snbt := snbt args;
        exports_json := json args;
        exports_format :=
          {| format_rootName := rootName args;
             format_endian := e;
             format_compression := c;
             format_bedrockLevel := b |} |}))))).

(** The patterns the argument check knows. *)
Definition PATTERNS : list Pattern :=
  [NBT_PATTERN; SNBT_PATTERN; JSON_PATTERN; ROOT_NAME_PATTERN; ENDIAN_PATTERN;
   COMPRESSION_PATTERN; BEDROCK_LEVEL_PATTERN; SPACE_PATTERN].

(** Two arguments set the same option. *)
Definition sameOption (a b : string) : bool :=
  existsb (fun p => test p a && test p b) PATTERNS.

(** The arguments after the input file. *)
Definition optionArguments (isTTY : bool) (argv : list string) : list string :=
  if isTTY then tl argv else argv.

End CLI.

(** The part of [readRoot] that ends with the root tag: the decoded buffer,
    the Bedrock level header, the opening kind, the root name and the root
    tag itself.  The reader of the result stands where the root tag ended,
    on the decoded buffer. *)
Definition rootTag (decode : list byte -> string)
    (decompress : list byte -> CompressionFormat -> option (list byte))
    {engine : Engine} (fuel : nat) (r : NBTReader) (o : ReadOptions)
  : res (Tag * RootName * NBTReader) :=
  r <- match compression o with
       | Some format =>
           match decompress (data r) format with
           | Some d => OK (withData r d)
           | None => Err DecompressError
           end
       | None => OK r
       end ;;
  r <- (if bedrockLevel o
        then '(_, r1) <- readUnsignedInt r ;;
             '(_, r2) <- readUnsignedInt r1 ;;
             OK r2
        else OK r) ;;
  '(type, r) <- readTagType r ;;
  match type with
  | LIST | COMPOUND =>
      '(rootNameV, r) <-
        (if readsRootName (rootName o)
         then '(s, r') <- readString decode r ;; OK (Some s, r')
         else OK (None, r)) ;;
      if rootNameMismatch (rootName o) rootNameV then Err UnexpectedRootNameError
      else
        '(root, r) <- readTag decode fuel type r ;;
        OK (root, rootNameV, r)
  | _ => Err InvalidOpeningTagError
  end.

(** The hints that leave no trial to [read]: root name, byte order and
    compression are given; the Bedrock level flag and the strictness may
    be omitted. *)
Definition givenHints (rootName : RootNameOption) (endian : Endian)
    (compression : Compression) (bedrockLevel : option BedrockLevel)
    (strict : option bool) : PartialReadOptions :=
  {| rootName_opt := Some rootName; endian_opt := Some endian;
     compression_opt := Some compression;
     bedrockLevel_opt := bedrockLevel; strict_opt := strict |}.

(** The result of a decode whose root tag is [root], named [name]. *)
Definition resultOf (root : Tag) (name : RootName) (o : ReadOptions)
    (byteOffset : option Z) : NBTData :=
  {| nbt_data := root; nbt_rootName := name;
     nbt_endian := endian o; nbt_compression := compression o;
     nbt_bedrockLevel := bedrockLevel o; nbt_byteOffset := byteOffset |}.

(** ** Vocabulary for packed buffers *)

(** The bit pattern [bits] of a [width]-bit float is a NaN: the exponent is
    all ones and the fraction is not zero. *)
Definition isNaN (width bits : Z) : bool :=
  let fraction := if width =? 32 then 23 else 52 in
  let exponent := width - 1 - fraction in
  (Z.land (Z.shiftr bits fraction) (2 ^ exponent - 1) =? 2 ^ exponent - 1)
  && negb (Z.land bits (2 ^ fraction - 1) =? 0).

(** What an element of a packed buffer holds once [entry] has been stored
    in it: an integer read as a [number] is kept as it is, a [bigint] is
    wrapped into the signed 64-bit range, and a float that is not a NaN
    keeps its bit pattern. *)
Definition holds (entry : Tag) (element : Z) : Prop :=
  match entry with
  | NumberTag n => element = n
  | BigIntTag n => - 2^63 <= element < 2^63 /\ (element - n) mod 2^64 = 0
  | FloatTag width bits => isNaN width bits = false -> element = bits
  | _ => False
  end.

(** * Properties *)

(** ** Tag kinds *)

Lemma isTagType_code (t : TAG) : isTagType (TAG_code t) = Some t.
Proof. destruct t; reflexivity. Qed.

Lemma isTagType_range (type : Z) (t : TAG) :
  isTagType type = Some t -> 0 <= type <= 12 /\ TAG_code t = type.
Proof.
  unfold isTagType. intros H.
  destruct type as [ | p | p]; try discriminate.
  - inversion H; subst; simpl; lia.
  - do 4 (try match goal with q : positive |- _ => destruct q end;
          try discriminate);
      inversion H; subst; simpl; lia.
Qed.

(** ** Inversion of the monad and of the primitive reads *)

Lemma bind_OK {A B : Type} (m : res A) (k : A -> res B) (b : B) :
  bind m k = OK b -> exists a, m = OK a /\ k a = OK b.
Proof.
  destruct m as [a | e | ]; simpl; intros H; try discriminate.
  exists a; split; [reflexivity | exact H].
Qed.

Ltac inv_bind H :=
  let a := fresh "a" in
  let Ha := fresh "Hm" in
  apply bind_OK in H; destruct H as [a [Ha H]].

(** The properties of the reader hold for every engine. *)
Section Reads.

Context {engine : Engine}.

Lemma allocate_OK (r : NBTReader) (n : Z) :
  byteOffset r + n <= byteLength (data r) -> allocate r n = OK tt.
Proof.
  intros H. unfold allocate.
  destruct (Z.gtb_spec (byteOffset r + n) (byteLength (data r))); [lia | reflexivity].
Qed.

Lemma allocate_inv (r : NBTReader) (n : Z) (u : unit) :
  allocate r n = OK u -> byteOffset r + n <= byteLength (data r).
Proof.
  unfold allocate.
  destruct (Z.gtb_spec (byteOffset r + n) (byteLength (data r)));
    [discriminate | lia].
Qed.

Lemma allocate_cases (r : NBTReader) (n : Z) :
  allocate r n = OK tt \/ allocate r n = Err UnexpectedBufferEndError.
Proof.
  unfold allocate.
  destruct (byteOffset r + n >? byteLength (data r)); auto.
Qed.

Lemma readFixed_inv (w : Z) (get : list byte -> Z -> res Z) (r r' : NBTReader) (v : Z) :
  readFixed w get r = OK (v, r') ->
  byteOffset r + w <= byteLength (data r)
  /\ get (data r) (byteOffset r) = OK v
  /\ r' = advance r w.
Proof.
  unfold readFixed. intros H.
  inv_bind H. apply allocate_inv in Hm.
  inv_bind H. inversion H; subst. auto.
Qed.

Lemma readFixed_not_OutOfFuel (w : Z) (get : list byte -> Z -> res Z) (r : NBTReader) :
  (forall d off, get d off <> OutOfFuel) -> readFixed w get r <> OutOfFuel.
Proof.
  intros Hget. unfold readFixed.
  destruct (allocate_cases r w) as [-> | ->]; simpl; [ | discriminate].
  specialize (Hget (data r) (byteOffset r)).
  destruct (get (data r) (byteOffset r)); simpl; congruence.
Qed.

Lemma getUint_not_OutOfFuel (n : Z) (d : list byte) (off : Z) (le : bool) :
  DataView.getUint n d off le <> OutOfFuel.
Proof.
  unfold DataView.getUint, DataView.slice.
  destruct ((0 <=? off) && (off + n <=? byteLength d)); simpl; discriminate.
Qed.

Lemma getInt_not_OutOfFuel (n : Z) (d : list byte) (off : Z) (le : bool) :
  DataView.getInt n d off le <> OutOfFuel.
Proof.
  unfold DataView.getInt.
  pose proof (getUint_not_OutOfFuel n d off le) as H.
  destruct (DataView.getUint n d off le); simpl; congruence.
Qed.

Lemma readTag_END decode (fuel : nat) (r : NBTReader) :
  readTag decode fuel END r = Err UnexpectedEndTagError.
Proof. destruct fuel; reflexivity. Qed.

(** ** Empty input *)

(** C10.  On the empty input [read] ends in the unexpected-buffer-end error
    when the compression hint says "none", whatever the other hints are;
    when the compression hint is omitted, the gzip header peek reads two
    bytes through the [DataView] without a bounds check of its own and the
    call ends in the [RangeError] of that access instead. *)
Theorem read_empty_input :
  forall decode decompress fuel rn en bl st,
    read decode decompress fuel []
      {| rootName_opt := rn; endian_opt := en; compression_opt := Some None;
         bedrockLevel_opt := bl; strict_opt := st |}
    = Err UnexpectedBufferEndError
    /\ read decode decompress fuel []
         {| rootName_opt := rn; endian_opt := en; compression_opt := None;
            bedrockLevel_opt := bl; strict_opt := st |}
       = Err RangeError
    /\ read decode decompress fuel [] defaults = Err RangeError.
Proof.
  intros decode decompress fuel rn en bl st.
  split; [ | split; [ | reflexivity ] ].
  - destruct rn as [[[] | [s | ]] | ], en as [[] | ], bl as [[] | ]; reflexivity.
  - destruct en as [[] | ]; reflexivity.
Qed.

(** ** Lists whose element kind is END *)

(** C3, amended.  For a LIST whose element kind is END: with length 0 the
    decode succeeds with the empty sequence, leaving the cursor after the
    length; with length 1 or more it fails with the unexpected-end-tag
    error. *)
Theorem readList_END :
  forall decode fuel r r1 r2 length,
    readTagType r = OK (END, r1) ->
    readLength r1 = OK (length, r2) ->
    (length = 0 -> readList decode (S fuel) r = OK (ArrayTag [], r2))
    /\ (1 <= length -> readList decode (S fuel) r = Err UnexpectedEndTagError).
Proof.
  intros decode fuel r r1 r2 length Htype Hlen.
  unfold readList. cbn [readTag]. unfold readList_with.
  rewrite Htype. cbn [bind]. rewrite Hlen. cbn [bind getAppropriateTypedArray].
  split.
  - intros ->. reflexivity.
  - intros Hpos.
    destruct (Z.to_nat length) as [ | n] eqn:Hn; [lia | ].
    cbn [readList_push]. rewrite readTag_END. reflexivity.
Qed.

(** ** Negative array lengths *)

(** C6, amended.  For every INT_ARRAY or LONG_ARRAY whose decoded length
    prefix is negative the decode fails, with the [RangeError] raised when
    the packed buffer is allocated. *)
Theorem negative_array_length :
  forall r r1 length,
    readLength r = OK (length, r1) ->
    length < 0 ->
    readIntArray r = Err RangeError /\ readLongArray r = Err RangeError.
Proof.
  intros r r1 length Hlen Hneg.
  unfold readIntArray, readLongArray, newTypedArray.
  rewrite Hlen. cbn [bind].
  destruct (Z.ltb_spec length 0); [ | lia].
  split; reflexivity.
Qed.

(** ** Bytes at the cursor *)

Lemma byte_flag (b : byte) :
  (JS.and (toSigned 8 (u8 b)) 0x80 =? 0) = negb (continues b).
Proof. destruct b; reflexivity. Qed.

Lemma byte_payload (b : byte) :
  JS.and (toSigned 8 (u8 b)) 0x7F = payload b.
Proof. destruct b; reflexivity. Qed.

Lemma byte_payload_big (b : byte) :
  Z.land (toSigned 8 (u8 b)) 0x7F = payload b.
Proof. destruct b; reflexivity. Qed.

Lemma payload_range (b : byte) : 0 <= payload b < 128.
Proof. destruct b; vm_compute; split; congruence. Qed.

Lemma byteLength_app (a b : list byte) :
  byteLength (a ++ b) = byteLength a + byteLength b.
Proof. unfold byteLength. rewrite length_app. lia. Qed.

Lemma byteLength_nonneg (a : list byte) : 0 <= byteLength a.
Proof. unfold byteLength. lia. Qed.

Lemma byteLength_cons (b : byte) (l : list byte) :
  byteLength (b :: l) = 1 + byteLength l.
Proof. unfold byteLength. simpl List.length. lia. Qed.

Lemma readByte_at (r : NBTReader) (b : byte) (bs : list byte) :
  bytesAt r (b :: bs) ->
  readByte r = OK (toSigned 8 (u8 b), advance r 1) /\ bytesAt (advance r 1) bs.
Proof.
  intros (pre & post & Hd & Hoff).
  assert (Hlen : byteOffset r + 1 <= byteLength (data r)).
  { rewrite Hd, Hoff, !byteLength_app, byteLength_cons.
    pose proof (byteLength_nonneg bs). pose proof (byteLength_nonneg post). lia. }
  split.
  - unfold readByte, readFixed.
    rewrite allocate_OK by exact Hlen.
    cbn [bind].
    unfold DataView.getInt8, DataView.getInt, DataView.getUint, DataView.slice.
    replace ((0 <=? byteOffset r) && (byteOffset r + 1 <=? byteLength (data r))) with true.
    2:{ symmetry. apply andb_true_iff. split; apply Z.leb_le; [ | exact Hlen].
        rewrite Hoff. apply byteLength_nonneg. }
    cbn [bind].
    rewrite Hd, Hoff.
    unfold byteLength. rewrite Nat2Z.id.
    rewrite skipn_app, skipn_all, Nat.sub_diag. simpl.
    rewrite Z.add_0_r. reflexivity.
  - exists (pre ++ [b]), post. simpl.
    rewrite Hd, <- app_assoc. simpl. split; [reflexivity | ].
    rewrite Hoff, byteLength_app. reflexivity.
Qed.

End Reads.

(** ** The 32-bit operators, bit by bit *)

Module JSFacts.
Import JS.

Lemma toInt32_range (z : Z) : - 2^31 <= toInt32 z < 2^31.
Proof.
  unfold toInt32.
  pose proof (Z.mod_pos_bound (z + 2^31) (2^32) ltac:(lia)). lia.
Qed.

Lemma toInt32_id (z : Z) : - 2^31 <= z < 2^31 -> toInt32 z = z.
Proof.
  intros H. unfold toInt32. rewrite Z.mod_small; lia.
Qed.

Lemma toInt32_idem (z : Z) : toInt32 (toInt32 z) = toInt32 z.
Proof. apply toInt32_id, toInt32_range. Qed.

Lemma toInt32_mod (z : Z) : toInt32 z mod 2^32 = z mod 2^32.
Proof.
  unfold toInt32. rewrite Zminus_mod_idemp_l. f_equal. lia.
Qed.

Lemma sign_bits (a i : Z) :
  - 2^31 <= a < 2^31 -> 31 <= i -> Z.testbit a i = (a <? 0).
Proof.
  intros Ha Hi.
  destruct (Z.ltb_spec a 0) as [Hneg | Hpos].
  - apply Z.bits_above_log2_neg; [exact Hneg | ].
    destruct (Z.eq_dec (Z.pred (- a)) 0) as [-> | Hnz]; [simpl; lia | ].
    apply Z.log2_lt_pow2; [lia | ].
    apply Z.lt_le_trans with (2^31); [lia | ].
    apply Z.pow_le_mono_r; lia.
  - destruct (Z.eq_dec a 0) as [-> | Hnz]; [apply Z.bits_0 | ].
    apply Z.bits_above_log2; [exact Hpos | ].
    apply Z.log2_lt_pow2; [lia | ].
    apply Z.lt_le_trans with (2^31); [lia | ].
    apply Z.pow_le_mono_r; lia.
Qed.

Lemma toInt32_testbit (z i : Z) :
  0 <= i -> Z.testbit (toInt32 z) i = Z.testbit z (Z.min i 31).
Proof.
  intros Hi.
  assert (Hlow : forall j, 0 <= j < 32 -> Z.testbit (toInt32 z) j = Z.testbit z j).
  { intros j Hj.
    rewrite <- (Z.mod_pow2_bits_low (toInt32 z) 32 j) by lia.
    rewrite toInt32_mod. apply Z.mod_pow2_bits_low. lia. }
  destruct (Z.le_gt_cases i 31) as [Hle | Hgt].
  - rewrite Z.min_l by lia. apply Hlow. lia.
  - rewrite Z.min_r by lia.
    rewrite (sign_bits (toInt32 z) i) by (try apply toInt32_range; lia).
    rewrite <- (sign_bits (toInt32 z) 31) by (try apply toInt32_range; lia).
    apply Hlow. lia.
Qed.

Lemma toInt32_lor (a b : Z) : Z.lor (toInt32 a) (toInt32 b) = toInt32 (Z.lor a b).
Proof.
  apply Z.bits_inj'. intros i Hi.
  rewrite Z.lor_spec, !toInt32_testbit, Z.lor_spec by exact Hi. reflexivity.
Qed.

Lemma or_toInt32 (a b : Z) : or (toInt32 a) (toInt32 b) = toInt32 (Z.lor a b).
Proof. unfold or. rewrite !toInt32_idem. apply toInt32_lor. Qed.

Lemma land_disjoint (a p s : Z) :
  0 <= s -> 0 <= a < 2^s -> Z.land a (p * 2^s) = 0.
Proof.
  intros Hs Ha.
  apply Z.bits_inj'. intros i Hi.
  rewrite Z.land_spec, Z.bits_0.
  destruct (Z.lt_ge_cases i s) as [Hlt | Hge].
  - rewrite Z.mul_pow2_bits_low by lia. apply andb_false_r.
  - replace (Z.testbit a i) with false; [reflexivity | ].
    symmetry.
    destruct (Z.eq_dec a 0) as [-> | Hnz]; [apply Z.bits_0 | ].
    apply Z.bits_above_log2; [lia | ].
    apply Z.lt_le_trans with s; [ | exact Hge].
    apply Z.log2_lt_pow2; lia.
Qed.

Lemma lor_disjoint (a p s : Z) :
  0 <= s -> 0 <= a < 2^s -> Z.lor a (Z.shiftl p s) = a + p * 2^s.
Proof.
  intros Hs Ha.
  rewrite Z.shiftl_mul_pow2 by exact Hs.
  pose proof (land_disjoint a p s Hs Ha) as Hland.
  rewrite <- Z.lxor_lor by exact Hland.
  symmetry. apply Z.add_nocarry_lxor. exact Hland.
Qed.

End JSFacts.

Import JSFacts.

Section Decoding.

Context {engine : Engine}.

(** ** ZigZag varints *)

Lemma minus_bit_testbit (n i : Z) :
  0 <= i -> Z.testbit (- Z.land n 1) i = Z.testbit n 0.
Proof.
  intros Hi.
  assert (H : Z.land n 1 = if Z.testbit n 0 then 1 else 0).
  { change 1 with (Z.ones 1). rewrite Z.land_ones by lia.
    change (2^1) with 2. rewrite <- Z.bit0_mod.
    destruct (Z.testbit n 0); reflexivity. }
  rewrite H. destruct (Z.testbit n 0).
  - apply Z.bits_m1. exact Hi.
  - apply Z.bits_0.
Qed.

Lemma zigzag32 (n : Z) :
  0 <= n < 2^32 ->
  let result := JS.toInt32 n in
  JS.xor (JS.sar (JS.xor (JS.sar (JS.shl result 63) 63) result) 1)
         (JS.and result (JS.shl 1 63))
  = zigzagDecode n.
Proof.
  intros Hn result. subst result.
  unfold JS.xor, JS.sar, JS.and, JS.shl, zigzagDecode.
  change (63 mod 32) with 31. change (1 mod 32) with 1.
  rewrite !toInt32_idem.
  change (JS.toInt32 (Z.shiftl (JS.toInt32 1) 31)) with (JS.toInt32 (2^31)).
  apply Z.bits_inj'. intros i Hi.
  assert (Hhigh : forall j, 32 <= j -> Z.testbit n j = false).
  { intros j Hj. destruct (Z.eq_dec n 0) as [-> | Hnz]; [apply Z.bits_0 | ].
    apply Z.bits_above_log2; [lia | ].
    apply Z.lt_le_trans with 32; [ | exact Hj].
    apply Z.log2_lt_pow2; lia. }
  rewrite !Z.lxor_spec, minus_bit_testbit by exact Hi.
  rewrite Z.shiftr_spec by exact Hi.
  rewrite (toInt32_testbit _ i) by exact Hi.
  rewrite Z.shiftr_spec by lia.
  rewrite (toInt32_testbit _ (Z.min i 31 + 1)) by lia.
  rewrite Z.lxor_spec.
  rewrite (toInt32_testbit _ (Z.min (Z.min i 31 + 1) 31)) by lia.
  rewrite Z.shiftr_spec by lia.
  rewrite (toInt32_testbit _ (Z.min (Z.min (Z.min i 31 + 1) 31) 31 + 31)) by lia.
  rewrite Z.shiftl_spec by lia.
  rewrite (toInt32_testbit n (Z.min _ 31 - 31)) by lia.
  rewrite (toInt32_testbit n (Z.min (Z.min i 31 + 1) 31)) by lia.
  rewrite (toInt32_testbit _ i) by exact Hi.
  rewrite Z.land_spec.
  rewrite !(toInt32_testbit _ (Z.min i 31)) by lia.
  rewrite Z.pow2_bits_eqb by lia.
  destruct (Z.lt_ge_cases i 31) as [Hlt | Hge].
  - replace (Z.min (Z.min i 31) 31) with i by lia.
    replace (Z.min (Z.min (Z.min (Z.min i 31 + 1) 31) 31 + 31) 31 - 31) with 0 by lia.
    replace (Z.min (Z.min (Z.min i 31 + 1) 31) 31) with (i + 1) by lia.
    replace (31 =? i) with false by (symmetry; apply Z.eqb_neq; lia).
    rewrite andb_false_r, xorb_false_r. apply xorb_comm.
  - replace (Z.min (Z.min i 31) 31) with 31 by lia.
    replace (Z.min (Z.min (Z.min (Z.min i 31 + 1) 31) 31 + 31) 31 - 31) with 0 by lia.
    replace (Z.min (Z.min (Z.min i 31 + 1) 31) 31) with 31 by lia.
    rewrite Z.eqb_refl, andb_true_r.
    rewrite (Hhigh (i + 1)) by lia.
    change (Z.min 0 31) with 0.
    destruct (Z.testbit n 0), (Z.testbit n 31); reflexivity.
Qed.

Lemma allocate_at (r : NBTReader) (b : byte) (bs : list byte) :
  bytesAt r (b :: bs) -> allocate r 1 = OK tt.
Proof.
  intros (pre & post & Hd & Hoff). apply allocate_OK.
  rewrite Hd, Hoff, !byteLength_app, byteLength_cons.
  pose proof (byteLength_nonneg bs). pose proof (byteLength_nonneg post). lia.
Qed.

Lemma advance_advance (r : NBTReader) (a b : Z) :
  advance (advance r a) b = advance r (a + b).
Proof. unfold advance. simpl. f_equal. lia. Qed.

Lemma varintValue_nonneg (bs : list byte) : 0 <= varintValue bs.
Proof.
  induction bs as [ | b rest IH]; cbn [varintValue]; [lia | ].
  pose proof (payload_range b). lia.
Qed.

Lemma accumulate32 (acc p shift : Z) :
  0 <= shift -> 0 <= acc < 2^shift -> 0 <= p < 128 ->
  acc + p * 2^shift < 2^32 ->
  JS.or (JS.toInt32 acc) (JS.shl p shift) = JS.toInt32 (acc + p * 2^shift).
Proof.
  intros Hs Hacc Hp Hbound.
  unfold JS.shl. rewrite (toInt32_id p) by lia.
  rewrite or_toInt32. f_equal.
  destruct (Z.lt_ge_cases shift 32) as [Hlt | Hge].
  - rewrite Z.mod_small by lia. apply lor_disjoint; assumption.
  - assert (Hpow : 2^32 <= 2^shift) by (apply Z.pow_le_mono_r; lia).
    assert (p = 0) by nia. subst p.
    rewrite Z.shiftl_0_l, Z.lor_0_r. lia.
Qed.

Lemma readVarIntZigZag_loop_decodes :
  forall bs k acc shift r,
    terminatedVarint bs = true ->
    bytesAt r bs ->
    (List.length bs <= k)%nat ->
    0 <= shift -> shift + 7 * byteLength bs <= 70 ->
    0 <= acc < 2^shift ->
    acc + 2^shift * varintValue bs < 2^32 ->
    readVarIntZigZag_loop k (JS.toInt32 acc) shift r
    = OK (JS.toInt32 (acc + 2^shift * varintValue bs), advance r (byteLength bs)).
Proof.
  induction bs as [ | b rest IH]; intros k acc shift r Hterm Hat Hk Hs Hlim Hacc Hbound.
  - discriminate.
  - destruct k as [ | k']; [simpl in Hk; lia | ].
    cbn [readVarIntZigZag_loop].
    rewrite (allocate_at r b rest Hat). cbn [bind].
    destruct (readByte_at r b rest Hat) as [Hread Hat'].
    rewrite Hread. cbn [bind].
    rewrite byte_payload, byte_flag.
    pose proof (payload_range b) as Hp.
    pose proof (varintValue_nonneg rest) as Hv.
    assert (Hpow : 0 < 2^shift) by (apply Z.pow_pos_nonneg; lia).
    cbn [varintValue] in Hbound |- *.
    rewrite accumulate32 by (try assumption; nia).
    destruct rest as [ | b' rest'].
    + cbn [terminatedVarint] in Hterm. rewrite Hterm.
      cbn [varintValue]. do 2 f_equal. f_equal. ring.
    + assert (Hc : continues b = true /\ terminatedVarint (b' :: rest') = true).
      { apply andb_true_iff. exact Hterm. }
      destruct Hc as [Hc Hterm']. rewrite Hc. cbn [negb].
      rewrite !byteLength_cons in Hlim.
      pose proof (byteLength_nonneg rest').
      destruct (Z.gtb_spec (shift + 7) 63) as [Hbig | _]; [lia | ].
      rewrite (IH k' (acc + payload b * 2^shift) (shift + 7) (advance r 1)).
      * rewrite advance_advance. f_equal. f_equal.
        -- f_equal. rewrite Z.pow_add_r by lia. ring.
        -- rewrite (byteLength_cons b). reflexivity.
      * exact Hterm'.
      * exact Hat'.
      * simpl in Hk |- *. lia.
      * lia.
      * rewrite !byteLength_cons. lia.
      * rewrite Z.pow_add_r by lia. nia.
      * rewrite Z.pow_add_r by lia. nia.
Qed.

(** C4.  For a terminated varint of at most ten bytes at the cursor whose
    unsigned accumulated value [n] fits in 32 bits, the 32-bit ZigZag read
    returns [(n >> 1) XOR -(n AND 1)] and leaves the cursor after the
    varint; values with bit 31 set are included. *)
Theorem readVarIntZigZag_decodes :
  forall r bs,
    terminatedVarint bs = true ->
    (List.length bs <= 10)%nat ->
    bytesAt r bs ->
    varintValue bs < 2^32 ->
    readVarIntZigZag r
    = OK (zigzagDecode (varintValue bs), advance r (byteLength bs)).
Proof.
  intros r bs Hterm Hlen Hat Hbound.
  pose proof (varintValue_nonneg bs) as Hv.
  assert (Hloop : readVarIntZigZag_loop 10 (JS.toInt32 0) 0 r
                  = OK (JS.toInt32 (0 + 2^0 * varintValue bs), advance r (byteLength bs))).
  { apply readVarIntZigZag_loop_decodes; try assumption.
    - lia.
    - unfold byteLength. lia.
    - change (2^0) with 1. lia.
    - change (2^0) with 1. lia. }
  change (2^0) with 1 in Hloop. rewrite Z.add_0_l, Z.mul_1_l in Hloop.
  unfold readVarIntZigZag.
  change (readVarIntZigZag_loop 10 0 0 r)
    with (readVarIntZigZag_loop 10 (JS.toInt32 0) 0 r).
  rewrite Hloop. cbn [bind].
  rewrite (zigzag32 (varintValue bs)) by lia. reflexivity.
Qed.

Lemma u8_byteOfZ (v : Z) : 0 <= v < 256 -> u8 (byteOfZ v) = v.
Proof.
  intros Hv. unfold u8, byteOfZ. rewrite Z.mod_small by lia.
  destruct (Byte.of_N (Z.to_N v)) as [b | ] eqn:Hb.
  - apply Byte.to_of_N in Hb. rewrite Hb. lia.
  - apply Byte.of_N_None_iff in Hb. lia.
Qed.

Lemma low7_lor_shift (z acc shift : Z) :
  0 <= shift ->
  Z.lor (Z.lor acc (Z.shiftl (Z.land z 127) shift))
        (Z.shiftl (Z.shiftr z 7) (shift + 7))
  = Z.lor acc (Z.shiftl z shift).
Proof.
  intros Hs. apply Z.bits_inj'. intros i Hi.
  rewrite !Z.lor_spec, !Z.shiftl_spec by exact Hi.
  rewrite <- orb_assoc. f_equal.
  rewrite Z.land_spec. change 127 with (Z.ones 7).
  destruct (Z.lt_ge_cases (i - shift) 0) as [Hneg | Hpos].
  - rewrite !Z.testbit_neg_r by lia. reflexivity.
  - destruct (Z.lt_ge_cases (i - shift) 7) as [Hlow | Hhigh].
    + rewrite Z.ones_spec_low by lia.
      rewrite (Z.testbit_neg_r _ (i - (shift + 7))) by lia.
      rewrite andb_true_r, orb_false_r. reflexivity.
    + rewrite Z.ones_spec_high by lia.
      rewrite Z.shiftr_spec by lia.
      rewrite andb_false_r. cbn [orb]. f_equal. lia.
Qed.

Lemma continuation_byte (z : Z) :
  let v := Z.lor (Z.land z 127) 128 in
  0 <= v < 256 /\ Z.land v 127 = Z.land z 127 /\ Z.testbit v 7 = true.
Proof.
  intros v. subst v.
  assert (Hlow : 0 <= Z.land z 127 < 128).
  { change 127 with (Z.ones 7). rewrite Z.land_ones by lia.
    apply Z.mod_pos_bound. lia. }
  repeat split.
  - apply Z.lor_nonneg. lia.
  - change 128 with (Z.shiftl 1 7). rewrite lor_disjoint; lia.
  - apply Z.bits_inj'. intros i Hi.
    rewrite !Z.land_spec, Z.lor_spec, Z.land_spec.
    change 128 with (2^7). rewrite Z.pow2_bits_eqb by lia.
    change 127 with (Z.ones 7).
    destruct (Z.lt_ge_cases i 7).
    + rewrite Z.ones_spec_low by lia.
      replace (7 =? i) with false by (symmetry; apply Z.eqb_neq; lia).
      rewrite orb_false_r, !andb_true_r. reflexivity.
    + rewrite Z.ones_spec_high by lia. rewrite !andb_false_r. reflexivity.
  - rewrite Z.lor_spec. change 128 with (2^7).
    rewrite Z.pow2_bits_true by lia. apply orb_true_r.
Qed.

Lemma readVarLongZigZag_loop_decodes :
  forall n z acc shift r,
    (1 <= n)%nat ->
    0 <= z < 2 ^ (7 * Z.of_nat n) ->
    0 <= shift -> shift + 7 * Z.of_nat n <= 70 ->
    bytesAt r (varintEncode n z) ->
    readVarLongZigZag_loop n acc shift r
    = OK (Z.lor acc (Z.shiftl z shift), advance r (byteLength (varintEncode n z))).
Proof.
  induction n as [ | n' IH]; intros z acc shift r Hn Hz Hs Hlim Hat.
  - lia.
  - cbn [varintEncode] in Hat |- *. cbn [readVarLongZigZag_loop].
    destruct (Z.ltb_spec z 128) as [Hsmall | Hbig].
    + rewrite (allocate_at r _ _ Hat). cbn [bind].
      destruct (readByte_at r _ _ Hat) as [Hread _].
      rewrite Hread. cbn [bind].
      rewrite byte_payload_big, byte_flag. unfold payload, continues.
      rewrite u8_byteOfZ by lia.
      replace (Z.testbit z 7) with false.
      2:{ symmetry. destruct (Z.eq_dec z 0) as [-> | Hnz]; [apply Z.bits_0 | ].
          apply Z.bits_above_log2; [lia | ].
          apply Z.log2_lt_pow2; lia. }
      cbn [negb].
      replace (Z.land z 127) with z; [reflexivity | ].
      change 127 with (Z.ones 7). rewrite Z.land_ones by lia.
      symmetry. apply Z.mod_small. lia.
    + destruct (continuation_byte z) as (Hrange & Hpay & Hflag).
      rewrite (allocate_at r _ _ Hat). cbn [bind].
      destruct (readByte_at r _ _ Hat) as [Hread Hat'].
      rewrite Hread. cbn [bind].
      rewrite byte_payload_big, byte_flag. unfold payload, continues.
      rewrite u8_byteOfZ by exact Hrange.
      rewrite Hpay, Hflag. cbn [negb].
      assert (Hn' : (1 <= n')%nat).
      { destruct n' as [ | n'']; [ | lia].
        change (2 ^ (7 * Z.of_nat 1)) with 128 in Hz. lia. }
      destruct (Z.gtb_spec (shift + 7) 63) as [Hover | _]; [lia | ].
      rewrite (IH (Z.shiftr z 7) _ (shift + 7) (advance r 1)).
      * rewrite low7_lor_shift by exact Hs.
        rewrite advance_advance, byteLength_cons. reflexivity.
      * exact Hn'.
      * rewrite Z.shiftr_div_pow2 by lia. split.
        -- apply Z.div_pos; lia.
        -- apply Z.div_lt_upper_bound; [lia | ].
           rewrite <- Z.pow_add_r by lia.
           replace (7 + 7 * Z.of_nat n') with (7 * Z.of_nat (S n')) by lia.
           lia.
      * lia.
      * lia.
      * exact Hat'.
Qed.

Lemma zigzagEncode64_value (n : Z) :
  - 2^63 <= n < 2^63 ->
  zigzagEncode64 n = if n <? 0 then - 2 * n - 1 else 2 * n.
Proof.
  intros Hn. unfold zigzagEncode64.
  rewrite Z.shiftl_mul_pow2, Z.shiftr_div_pow2 by lia.
  destruct (Z.ltb_spec n 0) as [Hneg | Hpos].
  - replace (n / 2^63) with (-1).
    2:{ apply Z.div_unique with (n + 2^63); lia. }
    rewrite Z.lxor_m1_r. unfold Z.lnot.
    rewrite Z.mod_small; lia.
  - rewrite Z.div_small by lia. rewrite Z.lxor_0_r.
    rewrite Z.mod_small; lia.
Qed.

Lemma land_1 (z : Z) : Z.land z 1 = z mod 2.
Proof. change 1 with (Z.ones 1). rewrite Z.land_ones by lia. reflexivity. Qed.

Lemma zigzag_roundtrip (n : Z) :
  - 2^63 <= n < 2^63 -> zigzagDecode (zigzagEncode64 n) = n.
Proof.
  intros Hn. rewrite zigzagEncode64_value by exact Hn.
  unfold zigzagDecode.
  rewrite land_1, Z.shiftr_div_pow2 by lia. change (2^1) with 2.
  destruct (Z.ltb_spec n 0) as [Hneg | Hpos].
  - replace ((- 2 * n - 1) mod 2) with 1.
    2:{ apply Z.mod_unique with (- n - 1); lia. }
    replace ((- 2 * n - 1) / 2) with (- n - 1).
    2:{ apply Z.div_unique with 1; lia. }
    rewrite Z.lxor_m1_r. unfold Z.lnot. lia.
  - replace ((2 * n) mod 2) with 0.
    2:{ apply Z.mod_unique with n; lia. }
    replace (2 * n / 2) with n.
    2:{ apply Z.div_unique with 0; lia. }
    apply Z.lxor_0_r.
Qed.

(** C9.  For every signed 64-bit [n], the 64-bit ZigZag varint read of the
    bytes that encode [n] (ZigZag word, then varint bytes) returns [n] and
    leaves the cursor after them. *)
Theorem readVarLongZigZag_roundtrip :
  forall n r,
    - 2^63 <= n < 2^63 ->
    bytesAt r (varLongEncode n) ->
    readVarLongZigZag r = OK (n, advance r (byteLength (varLongEncode n))).
Proof.
  intros n r Hn Hat.
  unfold readVarLongZigZag, varLongEncode in *.
  rewrite (readVarLongZigZag_loop_decodes 10 (zigzagEncode64 n) 0 0 r).
  - cbn [bind]. rewrite Z.lor_0_l, Z.shiftl_0_r.
    change (Z.lxor (Z.shiftr (zigzagEncode64 n) 1) (- Z.land (zigzagEncode64 n) 1))
      with (zigzagDecode (zigzagEncode64 n)).
    rewrite zigzag_roundtrip by exact Hn. reflexivity.
  - lia.
  - rewrite zigzagEncode64_value by exact Hn.
    change (2 ^ (7 * Z.of_nat 10)) with (2^70).
    destruct (Z.ltb_spec n 0); lia.
  - lia.
  - simpl. lia.
  - exact Hat.
Qed.

Lemma readByte_error (r : NBTReader) (e : error) :
  readByte r = Err e -> e = UnexpectedBufferEndError \/ e = RangeError.
Proof.
  unfold readByte, readFixed.
  destruct (allocate_cases r 1) as [-> | ->]; cbn [bind].
  - unfold DataView.getInt8, DataView.getInt, DataView.getUint, DataView.slice.
    destruct ((0 <=? byteOffset r) && (byteOffset r + 1 <=? byteLength (data r)));
      cbn [bind]; intros H; inversion H; auto.
  - intros H; inversion H; auto.
Qed.

Lemma readByte_not_OutOfFuel (r : NBTReader) : readByte r <> OutOfFuel.
Proof.
  apply readFixed_not_OutOfFuel. intros d off. apply getInt_not_OutOfFuel.
Qed.

Lemma readVarInt_loop_never_too_large :
  forall n value shift r,
    readVarInt_loop n value shift r <> Err VarNumTooLargeError.
Proof.
  induction n as [ | n' IH]; intros value shift r; cbn [readVarInt_loop].
  - discriminate.
  - destruct (readByte r) as [[byte r1] | e | ] eqn:Hread; cbn [bind].
    + destruct (JS.and byte 128 =? 0); [discriminate | apply IH].
    + apply readByte_error in Hread. destruct Hread; subst; discriminate.
    + discriminate.
Qed.

Lemma readVarInt_loop_terminates :
  forall n value shift r,
    (Z.to_nat (byteLength (data r) - byteOffset r) < n)%nat ->
    readVarInt_loop n value shift r <> OutOfFuel.
Proof.
  induction n as [ | n' IH]; intros value shift r Hn; [lia | ].
  cbn [readVarInt_loop].
  destruct (readByte r) as [[byte r1] | e | ] eqn:Hread; cbn [bind].
  - destruct (JS.and byte 128 =? 0); [discriminate | ].
    apply readFixed_inv in Hread. destruct Hread as (Hlen & _ & ->).
    apply IH. unfold advance; simpl. lia.
  - discriminate.
  - exfalso. exact (readByte_not_OutOfFuel r Hread).
Qed.

Lemma readVarInt_terminates (r : NBTReader) : readVarInt r <> OutOfFuel.
Proof. apply readVarInt_loop_terminates. lia. Qed.

Lemma readVarIntZigZag_loop_terminates :
  forall n result shift r,
    shift <= 63 -> 63 < shift + 7 * Z.of_nat n ->
    readVarIntZigZag_loop n result shift r <> OutOfFuel.
Proof.
  induction n as [ | n' IH]; intros result shift r Hs Hn; [lia | ].
  cbn [readVarIntZigZag_loop].
  destruct (allocate_cases r 1) as [-> | ->]; cbn [bind]; [ | discriminate].
  destruct (readByte r) as [[byte r1] | e | ] eqn:Hread; cbn [bind].
  - destruct (JS.and byte 128 =? 0); [discriminate | ].
    destruct (Z.gtb_spec (shift + 7) 63); [discriminate | ].
    apply IH; lia.
  - discriminate.
  - exfalso. exact (readByte_not_OutOfFuel r Hread).
Qed.

Lemma readVarLongZigZag_loop_terminates :
  forall n result shift r,
    shift <= 63 -> 63 < shift + 7 * Z.of_nat n ->
    readVarLongZigZag_loop n result shift r <> OutOfFuel.
Proof.
  induction n as [ | n' IH]; intros result shift r Hs Hn; [lia | ].
  cbn [readVarLongZigZag_loop].
  destruct (allocate_cases r 1) as [-> | ->]; cbn [bind]; [ | discriminate].
  destruct (readByte r) as [[byte r1] | e | ] eqn:Hread; cbn [bind].
  - destruct (JS.and byte 128 =? 0); [discriminate | ].
    destruct (Z.gtb_spec (shift + 7) 63); [discriminate | ].
    apply IH; lia.
  - discriminate.
  - exfalso. exact (readByte_not_OutOfFuel r Hread).
Qed.

Lemma readVarIntZigZag_terminates (r : NBTReader) : readVarIntZigZag r <> OutOfFuel.
Proof.
  unfold readVarIntZigZag.
  pose proof (readVarIntZigZag_loop_terminates 10 0 0 r ltac:(lia) ltac:(lia)) as H.
  destruct (readVarIntZigZag_loop 10 0 0 r) as [[v r1] | e | ]; cbn [bind];
    congruence.
Qed.

Lemma readVarLongZigZag_terminates (r : NBTReader) : readVarLongZigZag r <> OutOfFuel.
Proof.
  unfold readVarLongZigZag.
  pose proof (readVarLongZigZag_loop_terminates 10 0 0 r ltac:(lia) ltac:(lia)) as H.
  destruct (readVarLongZigZag_loop 10 0 0 r) as [[v r1] | e | ]; cbn [bind];
    congruence.
Qed.

(** Ten bytes with the continuation flag: the ZigZag reads give up. *)
Lemma readVarIntZigZag_loop_too_large :
  forall bs n result shift r,
    List.length bs = n -> (1 <= n)%nat ->
    forallb continues bs = true ->
    bytesAt r bs ->
    shift + 7 * Z.of_nat n = 70 ->
    readVarIntZigZag_loop n result shift r = Err VarNumTooLargeError.
Proof.
  induction bs as [ | b rest IH]; intros n result shift r Hlen Hn Hc Hat Hs.
  - simpl in Hlen. lia.
  - destruct n as [ | n']; [lia | ].
    cbn [forallb] in Hc. apply andb_true_iff in Hc. destruct Hc as [Hb Hrest].
    cbn [readVarIntZigZag_loop].
    rewrite (allocate_at r b rest Hat). cbn [bind].
    destruct (readByte_at r b rest Hat) as [Hread Hat'].
    rewrite Hread. cbn [bind].
    rewrite byte_flag, Hb. cbn [negb].
    simpl in Hlen. injection Hlen as Hlen.
    destruct (Z.gtb_spec (shift + 7) 63) as [ | Hle]; [reflexivity | ].
    apply (IH n' _ (shift + 7) (advance r 1)); try assumption; lia.
Qed.

Lemma readVarLongZigZag_loop_too_large :
  forall bs n result shift r,
    List.length bs = n -> (1 <= n)%nat ->
    forallb continues bs = true ->
    bytesAt r bs ->
    shift + 7 * Z.of_nat n = 70 ->
    readVarLongZigZag_loop n result shift r = Err VarNumTooLargeError.
Proof.
  induction bs as [ | b rest IH]; intros n result shift r Hlen Hn Hc Hat Hs.
  - simpl in Hlen. lia.
  - destruct n as [ | n']; [lia | ].
    cbn [forallb] in Hc. apply andb_true_iff in Hc. destruct Hc as [Hb Hrest].
    cbn [readVarLongZigZag_loop].
    rewrite (allocate_at r b rest Hat). cbn [bind].
    destruct (readByte_at r b rest Hat) as [Hread Hat'].
    rewrite Hread. cbn [bind].
    rewrite byte_flag, Hb. cbn [negb].
    simpl in Hlen. injection Hlen as Hlen.
    destruct (Z.gtb_spec (shift + 7) 63) as [ | Hle]; [reflexivity | ].
    apply (IH n' _ (shift + 7) (advance r 1)); try assumption; lia.
Qed.

(** X5.  When ten bytes with the continuation flag set lie at the cursor,
    both ZigZag varint reads fail with the varnum-too-large error. *)
Lemma zigzag_varints_too_large (r : NBTReader) (bs : list byte) :
  List.length bs = 10%nat ->
  forallb continues bs = true ->
  bytesAt r bs ->
  readVarIntZigZag r = Err VarNumTooLargeError
  /\ readVarLongZigZag r = Err VarNumTooLargeError.
Proof.
  intros Hlen Hc Hat. unfold readVarIntZigZag, readVarLongZigZag.
  rewrite (readVarIntZigZag_loop_too_large bs 10 0 0 r) by (try assumption; lia).
  rewrite (readVarLongZigZag_loop_too_large bs 10 0 0 r) by (try assumption; lia).
  split; reflexivity.
Qed.

(** C5.  The two ZigZag reads fail with the varnum-too-large error after ten
    continuation bytes ([zigzag_varints_too_large]); the unsigned varint
    read has no such limit: it never raises that error, and on ten
    continuation bytes followed by [01] it returns 64.  In varint mode a
    root name whose length is written as eleven bytes is accepted. *)
Theorem readVarInt_has_no_size_limit :
  (forall r, readVarInt r <> Err VarNumTooLargeError)
  /\ readVarInt (varintReader longVarint)
     = OK (64, advance (varintReader longVarint) 11)
  /\ readVarIntZigZag (varintReader longVarint) = Err VarNumTooLargeError
  /\ readVarLongZigZag (varintReader longVarint) = Err VarNumTooLargeError
  /\ read asciiDecode storedDecompress 1
       (bytes ([0x0A; 0x80; 0x80; 0x80; 0x80; 0x80; 0x80; 0x80; 0x80; 0x80; 0x80; 0x00; 0x00]))
       {| rootName_opt := Some (RootNameFlag true); endian_opt := Some little_varint;
          compression_opt := Some None; bedrockLevel_opt := Some false;
          strict_opt := Some true |}
     = OK {| nbt_data := CompoundTag []; nbt_rootName := Some ""%string;
             nbt_endian := little_varint; nbt_compression := None;
             nbt_bedrockLevel := false; nbt_byteOffset := None |}.
Proof.
  split; [ | repeat split; reflexivity ].
  intros r. apply readVarInt_loop_never_too_large.
Qed.

(** ** Reads only move the cursor *)

Lemma moves_refl (r : NBTReader) : moves r r.
Proof. exists 0. destruct r. unfold advance. simpl. f_equal. lia. Qed.

Lemma moves_trans (r1 r2 r3 : NBTReader) : moves r1 r2 -> moves r2 r3 -> moves r1 r3.
Proof.
  intros [a ->] [b ->]. exists (a + b). apply advance_advance.
Qed.

Lemma moves_advance (r : NBTReader) (k : Z) : moves r (advance r k).
Proof. exists k. reflexivity. Qed.

Lemma moves_data (r r' : NBTReader) : moves r r' -> data r' = data r.
Proof. intros [k ->]. reflexivity. Qed.

Lemma moves_varint (r r' : NBTReader) : moves r r' -> varint r' = varint r.
Proof. intros [k ->]. reflexivity. Qed.

Lemma readFixed_moving w get : moving (readFixed w get).
Proof.
  intros r v r' H. apply readFixed_inv in H. destruct H as (_ & _ & ->).
  apply moves_advance.
Qed.

Ltac fixed_moving :=
  let r := fresh "r" in let v := fresh "v" in
  let r' := fresh "r'" in let H := fresh "H" in
  intros r v r' H; exact (readFixed_moving _ _ r v r' H).

Lemma readUnsignedByte_moving : moving readUnsignedByte.
Proof. fixed_moving. Qed.

Lemma readByte_moving : moving readByte.
Proof. fixed_moving. Qed.

Lemma readUnsignedShort_moving : moving readUnsignedShort.
Proof. fixed_moving. Qed.

Lemma readShort_moving : moving readShort.
Proof. fixed_moving. Qed.

Lemma readUnsignedInt_moving : moving readUnsignedInt.
Proof. fixed_moving. Qed.

Lemma readInt_moving : moving readInt.
Proof. fixed_moving. Qed.

Lemma readLong_moving : moving readLong.
Proof. fixed_moving. Qed.

Lemma readFloat_moving : moving readFloat.
Proof. fixed_moving. Qed.

Lemma readDouble_moving : moving readDouble.
Proof. fixed_moving. Qed.

Lemma readTagType_moving : moving readTagType.
Proof.
  intros r t r' H. unfold readTagType in H.
  inv_bind H. destruct a as [type r1].
  apply readUnsignedByte_moving in Hm.
  destruct (isTagType type); inversion H; subst. exact Hm.
Qed.

Lemma readVarInt_loop_moving n value shift : moving (readVarInt_loop n value shift).
Proof.
  revert value shift.
  induction n as [ | n' IH]; intros value shift r v r' H; [discriminate | ].
  cbn [readVarInt_loop] in H.
  inv_bind H. destruct a as [byte r1]. apply readByte_moving in Hm.
  destruct (JS.and byte 128 =? 0).
  - inversion H; subst. exact Hm.
  - apply IH in H. eapply moves_trans; eassumption.
Qed.

Lemma readVarInt_moving : moving readVarInt.
Proof. intros r v r' H. eapply readVarInt_loop_moving; exact H. Qed.

Lemma readVarIntZigZag_loop_moving n result shift :
  moving (readVarIntZigZag_loop n result shift).
Proof.
  revert result shift.
  induction n as [ | n' IH]; intros result shift r v r' H; [discriminate | ].
  cbn [readVarIntZigZag_loop] in H.
  inv_bind H. inv_bind H. destruct a0 as [byte r1]. apply readByte_moving in Hm0.
  destruct (JS.and byte 128 =? 0).
  - inversion H; subst. exact Hm0.
  - destruct (shift + 7 >? 63); [discriminate | ].
    apply IH in H. eapply moves_trans; eassumption.
Qed.

Lemma readVarIntZigZag_moving : moving readVarIntZigZag.
Proof.
  intros r v r' H. unfold readVarIntZigZag in H.
  inv_bind H. destruct a as [result r1].
  apply readVarIntZigZag_loop_moving in Hm. inversion H; subst. exact Hm.
Qed.

Lemma readVarLongZigZag_loop_moving n result shift :
  moving (readVarLongZigZag_loop n result shift).
Proof.
  revert result shift.
  induction n as [ | n' IH]; intros result shift r v r' H; [discriminate | ].
  cbn [readVarLongZigZag_loop] in H.
  inv_bind H. inv_bind H. destruct a0 as [byte r1]. apply readByte_moving in Hm0.
  destruct (JS.and byte 128 =? 0).
  - inversion H; subst. exact Hm0.
  - destruct (shift + 7 >? 63); [discriminate | ].
    apply IH in H. eapply moves_trans; eassumption.
Qed.

Lemma readVarLongZigZag_moving : moving readVarLongZigZag.
Proof.
  intros r v r' H. unfold readVarLongZigZag in H.
  inv_bind H. destruct a as [result r1].
  apply readVarLongZigZag_loop_moving in Hm. inversion H; subst. exact Hm.
Qed.

Lemma readLength_moving : moving readLength.
Proof.
  intros r v r' H. unfold readLength in H.
  destruct (varint r);
    [eapply readVarIntZigZag_moving | eapply readInt_moving]; exact H.
Qed.

Lemma readString_moving decode : moving (readString decode).
Proof.
  intros r v r' H. unfold readString in H.
  inv_bind H. destruct a as [length r1].
  inv_bind H. inversion H; subst.
  apply moves_trans with r1; [ | apply moves_advance].
  destruct (varint r);
    [eapply readVarInt_moving | eapply readUnsignedShort_moving]; exact Hm.
Qed.

Lemma readByteArray_moving : moving readByteArray.
Proof.
  intros r v r' H. unfold readByteArray in H.
  inv_bind H. destruct a as [length r1].
  inv_bind H. inversion H; subst.
  apply moves_trans with r1; [ | apply moves_advance].
  eapply readLength_moving; exact Hm.
Qed.

Lemma readArray_loop_moving readEntry :
  moving readEntry ->
  forall n i value, moving (readArray_loop readEntry n i value).
Proof.
  intros Hentry.
  induction n as [ | n' IH]; intros i value r v r' H; cbn [readArray_loop] in H.
  - inversion H; subst. apply moves_refl.
  - inv_bind H. destruct a as [entry r1].
    apply Hentry in Hm. apply IH in H. eapply moves_trans; eassumption.
Qed.

Lemma readIntArray_moving : moving readIntArray.
Proof.
  intros r v r' H. unfold readIntArray in H.
  inv_bind H. destruct a as [length r1]. apply readLength_moving in Hm.
  inv_bind H. inv_bind H. clear Hm1 a0. inv_bind H. destruct a0 as [value r2].
  inversion H; subst.
  apply (readArray_loop_moving readInt) in Hm1; [ | apply readInt_moving].
  eapply moves_trans; eassumption.
Qed.

Lemma readLongArray_moving : moving readLongArray.
Proof.
  intros r v r' H. unfold readLongArray in H.
  inv_bind H. destruct a as [length r1]. apply readLength_moving in Hm.
  inv_bind H. inv_bind H. clear Hm1 a0. inv_bind H. destruct a0 as [value r2].
  inversion H; subst.
  apply (readArray_loop_moving readLong) in Hm1; [ | apply readLong_moving].
  eapply moves_trans; eassumption.
Qed.

Lemma tagged_moving {A : Type} (f : A -> Tag) (read : NBTReader -> res (A * NBTReader)) :
  moving read -> moving (fun r => tagged f (read r)).
Proof.
  intros Hread r v r' H. unfold tagged in H.
  inv_bind H. destruct a as [x r1]. inversion H; subst.
  eapply Hread; exact Hm.
Qed.

Section MovingRecursion.

Variable decode : list byte -> string.
Variable readEntry : TAG -> NBTReader -> res (Tag * NBTReader).
Hypothesis readEntry_moving : forall type, moving (readEntry type).

Lemma readList_push_moving type n value :
  moving (readList_push readEntry type n value).
Proof.
  revert value.
  induction n as [ | n' IH]; intros value r v r' H; cbn [readList_push] in H.
  - inversion H; subst. apply moves_refl.
  - inv_bind H. destruct a as [entry r1].
    apply readEntry_moving in Hm. apply IH in H.
    eapply moves_trans; eassumption.
Qed.

Lemma readList_with_moving : moving (readList_with readEntry).
Proof.
  intros r v r' H. unfold readList_with in H.
  inv_bind H. destruct a as [type r1]. apply readTagType_moving in Hm.
  inv_bind H. destruct a as [length r2]. apply readLength_moving in Hm0.
  apply moves_trans with r2; [eapply moves_trans; eassumption | ].
  destruct (getAppropriateTypedArray type) as [c | ].
  - inv_bind H. inv_bind H. destruct a0 as [value r3]. inversion H; subst.
    eapply readArray_loop_moving; [ | exact Hm2].
    intros ra va ra' Ha. inv_bind Ha. destruct a0 as [entry rb].
    inversion Ha; subst. eapply readEntry_moving; exact Hm3.
  - inv_bind H. destruct a as [value r3]. inversion H; subst.
    eapply readList_push_moving; exact Hm1.
Qed.

Lemma readCompound_loop_moving n value :
  moving (readCompound_loop decode readEntry n value).
Proof.
  revert value.
  induction n as [ | n' IH]; intros value r v r' H; [discriminate | ].
  cbn [readCompound_loop] in H.
  inv_bind H. destruct a as [type r1]. apply readTagType_moving in Hm.
  assert (Hstep :
    (name_entry <- (
       '(name, r2) <- readString decode r1 ;;
       '(entry, r3) <- readEntry type r2 ;;
       OK (name, entry, r3)) ;;
     match name_entry with
     | (name, entry, r3) =>
         readCompound_loop decode readEntry n' (setProperty value name entry) r3
     end) = OK (v, r') -> moves r r').
  { intros H'. inv_bind H'. destruct a as [[name entry] r3].
    inv_bind Hm0. destruct a as [name' r2]. apply readString_moving in Hm1.
    inv_bind Hm0. destruct a as [entry' r3']. apply readEntry_moving in Hm2.
    inversion Hm0; subst. apply IH in H'.
    eapply moves_trans; [exact Hm | ].
    eapply moves_trans; [exact Hm1 | ].
    eapply moves_trans; eassumption. }
  destruct type;
    try (apply Hstep; destruct (readString decode r1) as [[name r2] | | ];
         cbn [bind] in H |- *; try discriminate;
         destruct (readEntry _ r2) as [[entry r3] | | ];
         cbn [bind] in H |- *; try discriminate; exact H).
  inversion H; subst. exact Hm.
Qed.

End MovingRecursion.

Lemma readTag_scalar_moving decode fuel type :
  type <> LIST -> type <> COMPOUND -> moving (readTag decode fuel type).
Proof.
  intros Hl Hc r v r' H.
  destruct fuel, type; cbn [readTag] in H; try congruence;
    try (eapply readByteArray_moving; exact H);
    try (eapply readIntArray_moving; exact H);
    try (eapply readLongArray_moving; exact H);
    unfold tagged in H; inv_bind H; destruct a as [x r1]; inversion H; subst.
  all: try (eapply readByte_moving; exact Hm).
  all: try (eapply readShort_moving; exact Hm).
  all: try (eapply readFloat_moving; exact Hm).
  all: try (eapply readDouble_moving; exact Hm).
  all: try (eapply readString_moving; exact Hm).
  all: destruct (varint r);
    first [ eapply readVarIntZigZag_moving; exact Hm
          | eapply readVarLongZigZag_moving; exact Hm
          | eapply readInt_moving; exact Hm
          | eapply readLong_moving; exact Hm ].
Qed.

Lemma readTag_moving decode fuel : forall type, moving (readTag decode fuel type).
Proof.
  induction fuel as [ | fuel' IH]; intros type r v r' H.
  - destruct type; try (eapply readTag_scalar_moving; [ | | exact H]; congruence);
      discriminate.
  - destruct type; try (eapply readTag_scalar_moving; [ | | exact H]; congruence).
    + eapply readList_with_moving; [exact IH | exact H].
    + eapply readCompound_loop_moving; [exact IH | exact H].
Qed.

(** ** Strict mode *)

Lemma readRoot_after_rootTag decode decompress fuel r o :
  readRoot decode decompress fuel r o
  = ('(root, name, r') <- rootTag decode decompress fuel r o ;;
     if strict o && (byteLength (data r') >? byteOffset r')
     then Err UnexpectedEndTagError
     else OK (resultOf root name o
                (if strict o then None else Some (byteOffset r')))).
Proof.
  unfold readRoot, rootTag, resultOf.
  destruct (match compression o with
            | Some format =>
                match decompress (data r) format with
                | Some d => OK (withData r d)
                | None => Err DecompressError
                end
            | None => OK r
            end) as [r0 | e | ]; cbn [bind]; try reflexivity.
  destruct (if bedrockLevel o
            then '(_, r1) <- readUnsignedInt r0 ;;
                 '(_, r2) <- readUnsignedInt r1 ;; OK r2
            else OK r0) as [r1 | e | ]; cbn [bind]; try reflexivity.
  destruct (readTagType r1) as [[type r2] | e | ]; cbn [bind]; try reflexivity.
  destruct type; try reflexivity.
  all: destruct (if readsRootName (rootName o)
                 then '(s, r') <- readString decode r2 ;; OK (Some s, r')
                 else OK (None, r2)) as [[name r3] | e | ]; cbn [bind];
    try reflexivity;
    destruct (rootNameMismatch (rootName o) name); try reflexivity;
    match goal with
    | |- context [readTag ?d ?f ?t ?r] =>
        destruct (readTag d f t r) as [[root r4] | e | ]
    end; cbn [bind]; reflexivity.
Qed.

Lemma rootTag_strict decode decompress fuel r o b :
  rootTag decode decompress fuel r (withStrict o b)
  = rootTag decode decompress fuel r o.
Proof. reflexivity. Qed.

Lemma read_given_hints decode decompress fuel input rn e c bl s b :
  match bl with
  | Some given => OK given
  | None => hasBedrockLevelHeader (readerFor input (Some e)) e
  end = OK b ->
  read decode decompress fuel input (givenHints rn e c bl s)
  = readRoot decode decompress fuel (readerFor input (Some e))
      {| rootName := rn; endian := e; compression := c; bedrockLevel := b;
         strict := match s with Some given => given | None => true end |}.
Proof.
  intros Hb.
  unfold read, read_endian, read_rootName, read_resolved, givenHints.
  cbn [compression_opt endian_opt rootName_opt bedrockLevel_opt]. cbv zeta.
  unfold strictOf. cbn [strict_opt].
  assert (Hdata : data (readerFor input (Some e)) = input) by reflexivity.
  destruct c as [format | ]; cbn [bind].
  - destruct (decompress input format) as [d | ] eqn:Hd; cbn [bind].
    + destruct bl as [given | ].
      * injection Hb as ->. reflexivity.
      * rewrite Hb. reflexivity.
    + unfold readRoot. cbn [compression]. rewrite Hdata, Hd. reflexivity.
  - destruct bl as [given | ].
    + injection Hb as ->. reflexivity.
    + rewrite Hb. reflexivity.
Qed.

(** C7, amended.  Let the root tag complete, leaving the cursor at [r'] on
    the decoded buffer.  One decoding attempt ([readRoot]) then behaves as
    follows: non-strict, it succeeds and reports the offset of [r']; strict,
    it fails with the unexpected-end-tag error when bytes remain after
    [r'] and succeeds, reporting no offset, when none remain.  [read]
    behaves in the same way whenever root name, byte order and compression
    are given, with an omitted strictness counting as strict = true. *)
Theorem strict_trailing_bytes :
  forall decode decompress fuel,
    (forall r o root name r',
       rootTag decode decompress fuel r o = OK (root, name, r') ->
       readRoot decode decompress fuel r (withStrict o false)
       = OK (resultOf root name o (Some (byteOffset r')))
       /\ (byteOffset r' < byteLength (data r') ->
           readRoot decode decompress fuel r (withStrict o true)
           = Err UnexpectedEndTagError)
       /\ (byteLength (data r') <= byteOffset r' ->
           readRoot decode decompress fuel r (withStrict o true)
           = OK (resultOf root name o None)))
    /\ (forall input rootName endian compression bedrockLevel b root name r',
          let o := {| rootName := rootName; endian := endian;
                      compression := compression; bedrockLevel := b;
                      strict := true |} in
          match bedrockLevel with
          | Some given => OK given
          | None => hasBedrockLevelHeader (readerFor input (Some endian)) endian
          end = OK b ->
          rootTag decode decompress fuel (readerFor input (Some endian)) o
          = OK (root, name, r') ->
          read decode decompress fuel input
            (givenHints rootName endian compression bedrockLevel (Some false))
          = OK (resultOf root name o (Some (byteOffset r')))
          /\ forall strict,
               strict = None \/ strict = Some true ->
               (byteOffset r' < byteLength (data r') ->
                read decode decompress fuel input
                  (givenHints rootName endian compression bedrockLevel strict)
                = Err UnexpectedEndTagError)
               /\ (byteLength (data r') <= byteOffset r' ->
                   read decode decompress fuel input
                     (givenHints rootName endian compression bedrockLevel strict)
                   = OK (resultOf root name o None))).
Proof.
  intros decode decompress fuel.
  assert (Hroot : forall r o root name r',
             rootTag decode decompress fuel r o = OK (root, name, r') ->
             readRoot decode decompress fuel r (withStrict o false)
             = OK (resultOf root name o (Some (byteOffset r')))
             /\ (byteOffset r' < byteLength (data r') ->
                 readRoot decode decompress fuel r (withStrict o true)
                 = Err UnexpectedEndTagError)
             /\ (byteLength (data r') <= byteOffset r' ->
                 readRoot decode decompress fuel r (withStrict o true)
                 = OK (resultOf root name o None))).
  { intros r o root name r' H.
    rewrite !readRoot_after_rootTag, !rootTag_strict, H.
    cbn [bind withStrict strict andb].
    split; [reflexivity | split]; intros Hcmp;
      destruct (Z.gtb_spec (byteLength (data r')) (byteOffset r')); try lia;
      reflexivity. }
  split; [exact Hroot | ].
  intros input rn e c bl b root name r' o Hb H.
  destruct (Hroot _ _ _ _ _ H) as (Hfalse & Hrest & Hnone).
  split.
  - rewrite (read_given_hints _ _ _ _ _ _ _ _ _ b Hb). exact Hfalse.
  - intros s Hs.
    assert (Heq : read decode decompress fuel input (givenHints rn e c bl s)
                  = readRoot decode decompress fuel (readerFor input (Some e))
                      (withStrict o true)).
    { rewrite (read_given_hints _ _ _ _ _ _ _ _ _ b Hb).
      destruct Hs as [-> | ->]; reflexivity. }
    rewrite Heq. split; assumption.
Qed.

(** ** Witnesses of the varint theorems *)

Lemma readVarIntZigZag_decodes_witness :
  let r := varintReader [0xFF; 0xFF; 0xFF; 0xFF; 0x0F] in
  readVarIntZigZag r = OK (-2147483648, advance r 5).
Proof.
  cbv zeta.
  apply (readVarIntZigZag_decodes
           (varintReader [0xFF; 0xFF; 0xFF; 0xFF; 0x0F])
           (bytes [0xFF; 0xFF; 0xFF; 0xFF; 0x0F])).
  - reflexivity.
  - simpl. lia.
  - exists [], []. split; reflexivity.
  - vm_compute. reflexivity.
Defined.

Lemma readVarLongZigZag_roundtrip_witness :
  let r := varintReader [0xFF; 0xFF; 0xFF; 0xFF; 0xFF; 0xFF; 0xFF; 0xFF; 0xFF; 0x01] in
  varLongEncode (- 2^63) = data r
  /\ readVarLongZigZag r = OK (- 2^63, advance r 10).
Proof.
  cbv zeta. split; [reflexivity | ].
  apply (readVarLongZigZag_roundtrip (- 2^63)
           (varintReader [0xFF; 0xFF; 0xFF; 0xFF; 0xFF; 0xFF; 0xFF; 0xFF; 0xFF; 0x01])).
  - lia.
  - exists [], []. split; reflexivity.
Defined.

(** ** The Bedrock level header and compressed input *)

Lemma readRoot_framing decode decompress fuel r o result :
  readRoot decode decompress fuel r o = OK result ->
  nbt_endian result = endian o
  /\ nbt_compression result = compression o
  /\ nbt_bedrockLevel result = bedrockLevel o.
Proof.
  unfold readRoot. intros H.
  inv_bind H. inv_bind H. inv_bind H. destruct a1 as [type r2].
  destruct type; try discriminate.
  all: inv_bind H; destruct a1 as [rootNameV r3];
    destruct (rootNameMismatch (rootName o) rootNameV); try discriminate;
    inv_bind H; destruct a1 as [root r4];
    destruct (strict o && (byteLength (data r4) >? byteOffset r4));
    try discriminate; inversion H; subst; auto.
Qed.

(** With a compression scheme and no Bedrock level hint, the flag that
    [read] reports is the header predicate of the input as given, that is,
    of the compressed bytes. *)
Lemma read_bedrockLevel_of_compressed_input
    decode decompress fuel input format endian rootName strict result :
  read decode decompress fuel input
    {| rootName_opt := Some rootName; endian_opt := Some endian;
       compression_opt := Some (Some format);
       bedrockLevel_opt := None; strict_opt := strict |} = OK result ->
  hasBedrockLevelHeader (readerFor input (Some endian)) endian
  = OK (nbt_bedrockLevel result).
Proof.
  unfold read, read_endian, read_rootName, read_resolved.
  cbn [compression_opt endian_opt rootName_opt bedrockLevel_opt].
  intros H. inv_bind H. inv_bind H.
  apply readRoot_framing in H. destruct H as (_ & _ & ->).
  exact Hm0.
Qed.

(** C2.  The header predicate is evaluated on the compressed bytes: for a
    Bedrock level file held in a raw-deflate stored block, read with the
    little-endian and raw-deflate hints and no Bedrock level hint, the
    predicate holds on the decompressed buffer but [read] takes it on the
    stream, finds it false and fails on the version word; with the hint
    given, or on the decompressed file, the same read succeeds. *)
Theorem bedrock_header_checked_on_compressed_bytes :
  storedDecompress (bytes storedLevelFile) deflate_raw = Some (bytes bedrockLevelFile)
  /\ hasBedrockLevelHeader (readerFor (bytes bedrockLevelFile) (Some little)) little
     = OK true
  /\ hasBedrockLevelHeader (readerFor (bytes storedLevelFile) (Some little)) little
     = OK false
  /\ read asciiDecode storedDecompress 1 (bytes storedLevelFile)
       (hintsFor little (Some deflate_raw) None None)
     = Err InvalidOpeningTagError
  /\ read asciiDecode storedDecompress 1 (bytes storedLevelFile)
       (hintsFor little (Some deflate_raw) (Some true) None)
     = OK (emptyCompound (Some ""%string) little (Some deflate_raw) true None)
  /\ read asciiDecode storedDecompress 1 (bytes bedrockLevelFile)
       (hintsFor little None None None)
     = OK (emptyCompound (Some ""%string) little None true None).
Proof.
  repeat split; reflexivity.
Qed.

(** ** Lists of numeric kinds *)

Lemma storeAt_length (value : list Z) (i : nat) (entry : Z) :
  List.length (storeAt value i entry) = List.length value.
Proof.
  revert i. induction value as [ | x rest IH]; intros i; [reflexivity | ].
  destruct i; simpl; [reflexivity | ]. rewrite IH. reflexivity.
Qed.

Lemma readArray_loop_length readEntry :
  forall n i value r value' r',
    readArray_loop readEntry n i value r = OK (value', r') ->
    List.length value' = List.length value.
Proof.
  induction n as [ | n' IH]; intros i value r value' r' H; cbn [readArray_loop] in H.
  - inversion H; subst. reflexivity.
  - inv_bind H. destruct a as [entry r1]. apply IH in H.
    rewrite H. apply storeAt_length.
Qed.

Lemma readArray_loop_terminates readEntry :
  (forall r, readEntry r <> OutOfFuel) ->
  forall n i value r, readArray_loop readEntry n i value r <> OutOfFuel.
Proof.
  intros Hentry.
  induction n as [ | n' IH]; intros i value r; cbn [readArray_loop].
  - discriminate.
  - specialize (Hentry r).
    destruct (readEntry r) as [[entry r1] | e | ]; cbn [bind];
      [apply IH | discriminate | congruence].
Qed.

Lemma tagged_not_OutOfFuel {A : Type} (f : A -> Tag) (m : res (A * NBTReader)) :
  m <> OutOfFuel -> tagged f m <> OutOfFuel.
Proof.
  intros H. unfold tagged. destruct m as [[v r] | e | ]; cbn [bind]; congruence.
Qed.

Ltac fixed_terminates :=
  apply readFixed_not_OutOfFuel; intros ? ?;
  first [apply getInt_not_OutOfFuel | apply getUint_not_OutOfFuel].

Lemma readShort_not_OutOfFuel (r : NBTReader) : readShort r <> OutOfFuel.
Proof. unfold readShort, DataView.getInt16. fixed_terminates. Qed.

Lemma readInt_not_OutOfFuel (r : NBTReader) : readInt r <> OutOfFuel.
Proof. unfold readInt, DataView.getInt32. fixed_terminates. Qed.

Lemma readLong_not_OutOfFuel (r : NBTReader) : readLong r <> OutOfFuel.
Proof. unfold readLong, DataView.getBigInt64. fixed_terminates. Qed.

Lemma readFloat_not_OutOfFuel (r : NBTReader) : readFloat r <> OutOfFuel.
Proof. unfold readFloat, DataView.getFloat32. fixed_terminates. Qed.

Lemma readDouble_not_OutOfFuel (r : NBTReader) : readDouble r <> OutOfFuel.
Proof. unfold readDouble, DataView.getFloat64. fixed_terminates. Qed.

Lemma readTag_numeric_terminates decode fuel type c r :
  getAppropriateTypedArray type = Some c ->
  readTag decode fuel type r <> OutOfFuel.
Proof.
  intros Hc.
  destruct type; try discriminate; destruct fuel; cbn [readTag];
    apply tagged_not_OutOfFuel.
  1, 2: apply readByte_not_OutOfFuel.
  1, 2: apply readShort_not_OutOfFuel.
  1, 2: destruct (varint r);
    [apply readVarIntZigZag_terminates | apply readInt_not_OutOfFuel].
  1, 2: destruct (varint r);
    [apply readVarLongZigZag_terminates | apply readLong_not_OutOfFuel].
  1, 2: apply readFloat_not_OutOfFuel.
  1, 2: apply readDouble_not_OutOfFuel.
Qed.

Lemma naturalBuffer_spec (type : TAG) (c : NumericArrayConstructor) :
  In (type, c) naturalBuffer <-> getAppropriateTypedArray type = Some c.
Proof.
  split.
  - intros H. simpl in H.
    repeat (destruct H as [H | H]; [inversion H; reflexivity | ]). contradiction.
  - intros H. destruct type; inversion H; subst; simpl; tauto.
Qed.

Lemma slice_OK (d : list byte) (off n : Z) :
  0 <= off -> off + n <= byteLength d ->
  DataView.slice d off n = OK (firstn (Z.to_nat n) (skipn (Z.to_nat off) d)).
Proof.
  intros Hoff Hlen. unfold DataView.slice.
  destruct (Z.leb_spec 0 off); [ | lia].
  destruct (Z.leb_spec (off + n) (byteLength d)); [ | lia].
  reflexivity.
Qed.

Lemma readFixed_getUint_OK (n : Z) (le : NBTReader -> bool) (r : NBTReader) :
  0 <= byteOffset r -> byteOffset r + n <= byteLength (data r) ->
  exists v, readFixed n (fun d off => DataView.getUint n d off (le r)) r
            = OK (v, advance r n).
Proof.
  intros Hoff Hlen. unfold readFixed, DataView.getUint.
  rewrite allocate_OK by exact Hlen. cbn [bind].
  rewrite slice_OK by assumption. cbn [bind]. eexists. reflexivity.
Qed.

Lemma readFixed_getInt_OK (n : Z) (le : NBTReader -> bool) (r : NBTReader) :
  0 <= byteOffset r -> byteOffset r + n <= byteLength (data r) ->
  exists v, readFixed n (fun d off => DataView.getInt n d off (le r)) r
            = OK (v, advance r n).
Proof.
  intros Hoff Hlen. unfold readFixed, DataView.getInt, DataView.getUint.
  rewrite allocate_OK by exact Hlen. cbn [bind].
  rewrite slice_OK by assumption. cbn [bind]. eexists. reflexivity.
Qed.

Lemma readTag_fixedWidth_OK decode fuel type c r :
  getAppropriateTypedArray type = Some c ->
  fixedWidthElement r type = true ->
  0 <= byteOffset r ->
  byteOffset r + BYTES_PER_ELEMENT c <= byteLength (data r) ->
  exists entry, readTag decode fuel type r = OK (entry, advance r (BYTES_PER_ELEMENT c)).
Proof.
  intros Hc Hfixed Hoff Hlen.
  destruct type; inversion Hc; subst c; cbn [fixedWidthElement] in Hfixed;
    destruct fuel; cbn [readTag]; unfold tagged;
    try (destruct (varint r); [discriminate | ]).
  1, 2: change (BYTES_PER_ELEMENT Int8Array) with 1 in *;
    destruct (readFixed_getInt_OK 1 (fun _ => false) r Hoff Hlen) as [v Hv];
    unfold readByte, DataView.getInt8; rewrite Hv; cbn [bind]; eexists; reflexivity.
  1, 2: change (BYTES_PER_ELEMENT Int16Array) with 2 in *;
    destruct (readFixed_getInt_OK 2 littleEndian r Hoff Hlen) as [v Hv];
    unfold readShort, DataView.getInt16; rewrite Hv; cbn [bind]; eexists; reflexivity.
  1, 2: change (BYTES_PER_ELEMENT Int32Array) with 4 in *;
    destruct (readFixed_getInt_OK 4 littleEndian r Hoff Hlen) as [v Hv];
    unfold readInt, DataView.getInt32; rewrite Hv; cbn [bind]; eexists; reflexivity.
  1, 2: change (BYTES_PER_ELEMENT BigInt64Array) with 8 in *;
    destruct (readFixed_getInt_OK 8 littleEndian r Hoff Hlen) as [v Hv];
    unfold readLong, DataView.getBigInt64; rewrite Hv; cbn [bind]; eexists; reflexivity.
  1, 2: change (BYTES_PER_ELEMENT Float32Array) with 4 in *;
    destruct (readFixed_getUint_OK 4 littleEndian r Hoff Hlen) as [v Hv];
    unfold readFloat, DataView.getFloat32; rewrite Hv; cbn [bind]; eexists; reflexivity.
  1, 2: change (BYTES_PER_ELEMENT Float64Array) with 8 in *;
    destruct (readFixed_getUint_OK 8 littleEndian r Hoff Hlen) as [v Hv];
    unfold readDouble, DataView.getFloat64; rewrite Hv; cbn [bind]; eexists; reflexivity.
Qed.

Lemma advance_0 (r : NBTReader) : advance r 0 = r.
Proof. destruct r. unfold advance. simpl. f_equal. lia. Qed.

Lemma readArray_loop_OK (readEntry : NBTReader -> res (Z * NBTReader)) (w : Z)
    (P : NBTReader -> Prop) :
  0 <= w ->
  (forall r k, P r -> P (advance r k)) ->
  (forall r, P r -> 0 <= byteOffset r -> byteOffset r + w <= byteLength (data r) ->
             exists v, readEntry r = OK (v, advance r w)) ->
  forall n i value r,
    P r ->
    0 <= byteOffset r ->
    byteOffset r + Z.of_nat n * w <= byteLength (data r) ->
    exists value',
      readArray_loop readEntry n i value r = OK (value', advance r (Z.of_nat n * w)).
Proof.
  intros Hw Hstable Hentry.
  induction n as [ | n' IH]; intros i value r HP Hoff Hlen; cbn [readArray_loop].
  - exists value. change (Z.of_nat 0 * w) with 0. rewrite advance_0. reflexivity.
  - destruct (Hentry r HP Hoff) as [v Hv]; [nia | ].
    rewrite Hv. cbn [bind].
    destruct (IH (S i) (storeAt value i v) (advance r w)) as [value' Hloop].
    + apply Hstable. exact HP.
    + unfold advance; simpl. lia.
    + unfold advance; simpl. nia.
    + exists value'. rewrite Hloop, advance_advance. do 3 f_equal. lia.
Qed.

Lemma readList_push_inOrder readEntry type :
  forall n value r value' r',
    readList_push readEntry type n value r = OK (value', r') ->
    exists elements,
      value' = value ++ elements
      /\ List.length elements = n
      /\ readsInOrder readEntry type r elements r'.
Proof.
  induction n as [ | n' IH]; intros value r value' r' H; cbn [readList_push] in H.
  - inversion H; subst. exists []. rewrite app_nil_r.
    repeat split. constructor.
  - inv_bind H. destruct a as [entry r1].
    apply IH in H. destruct H as (elements & -> & Hlen & Horder).
    exists (entry :: elements). rewrite <- app_assoc. repeat split.
    + simpl. rewrite Hlen. reflexivity.
    + econstructor; eassumption.
Qed.

Lemma readFixed_nonneg (w : Z) (n : Z) (le : bool) (getter : Z -> list byte -> Z -> bool -> res Z)
    (r r' : NBTReader) (v : Z) :
  (forall d off, getter n d off le <> Err RangeError -> getter n d off le <> OutOfFuel -> 0 <= off) ->
  0 <= w ->
  readFixed w (fun d off => getter n d off le) r = OK (v, r') ->
  0 <= byteOffset r'.
Proof.
  intros Hget Hw H. apply readFixed_inv in H. destruct H as (_ & Hv & ->).
  unfold advance; simpl.
  assert (0 <= byteOffset r); [ | lia].
  apply (Hget (data r)); rewrite Hv; discriminate.
Qed.

Lemma getInt_nonneg (n : Z) (d : list byte) (off : Z) (le : bool) :
  DataView.getInt n d off le <> Err RangeError ->
  DataView.getInt n d off le <> OutOfFuel -> 0 <= off.
Proof.
  unfold DataView.getInt, DataView.getUint, DataView.slice.
  destruct (Z.leb_spec 0 off); [auto | ].
  cbn [andb bind]. congruence.
Qed.

Lemma readByte_nonneg (r r' : NBTReader) (v : Z) :
  readByte r = OK (v, r') -> 0 <= byteOffset r'.
Proof.
  apply (readFixed_nonneg 1 1 false DataView.getInt); [ | lia].
  intros d off. apply getInt_nonneg.
Qed.

Lemma readInt_nonneg (r r' : NBTReader) (v : Z) :
  readInt r = OK (v, r') -> 0 <= byteOffset r'.
Proof.
  apply (readFixed_nonneg 4 4 (littleEndian r) DataView.getInt); [ | lia].
  intros d off. apply getInt_nonneg.
Qed.

Lemma readVarIntZigZag_loop_nonneg :
  forall n result shift r v r',
    readVarIntZigZag_loop n result shift r = OK (v, r') -> 0 <= byteOffset r'.
Proof.
  induction n as [ | n' IH]; intros result shift r v r' H; [discriminate | ].
  cbn [readVarIntZigZag_loop] in H.
  inv_bind H. inv_bind H. destruct a0 as [byte r1].
  destruct (JS.and byte 128 =? 0).
  - inversion H; subst. eapply readByte_nonneg; exact Hm0.
  - destruct (shift + 7 >? 63); [discriminate | ].
    eapply IH; exact H.
Qed.

Lemma readLength_nonneg (r r' : NBTReader) (length : Z) :
  readLength r = OK (length, r') -> 0 <= byteOffset r'.
Proof.
  unfold readLength. destruct (varint r).
  - unfold readVarIntZigZag. intros H. inv_bind H. destruct a as [result r1].
    inversion H; subst. eapply readVarIntZigZag_loop_nonneg; exact Hm.
  - apply readInt_nonneg.
Qed.

(** ** Compounds: key order and retained values *)

Section CompoundLoop.

Variable decode : list byte -> string.
Variable readEntry : TAG -> NBTReader -> res (Tag * NBTReader).

Lemma readCompound_loop_entries :
  forall n value r tag r',
    readCompound_loop decode readEntry n value r = OK (tag, r') ->
    exists entries,
      compoundEntries decode readEntry r entries r'
      /\ tag = CompoundTag (fold_left assign entries value).
Proof.
  induction n as [ | n' IH]; intros value r tag r' H; [discriminate | ].
  cbn [readCompound_loop] in H.
  inv_bind H. destruct a as [type r1].
  destruct (match type with END => true | _ => false end) eqn:Hend.
  - destruct type; try discriminate.
    inversion H; subst. exists []. split; [ | reflexivity].
    constructor. exact Hm.
  - assert (Hne : type <> END) by (intros ->; discriminate).
    assert (Hstep :
      (' (name, r2) <- readString decode r1;;
       ' (entry, r3) <- readEntry type r2;;
       readCompound_loop decode readEntry n' (setProperty value name entry) r3)
      = OK (tag, r')) by (destruct type; try discriminate; exact H).
    clear H. inv_bind Hstep. destruct a as [name r2].
    inv_bind Hstep. destruct a as [entry r3].
    apply IH in Hstep. destruct Hstep as (rest & Hrest & ->).
    exists ((name, entry) :: rest). split; [ | reflexivity].
    econstructor; eassumption.
Qed.

End CompoundLoop.

(** *** Property assignment *)

Lemma hasOwnProperty_In (o : Properties) (name : string) :
  hasOwnProperty o name = true <-> In name (map fst o).
Proof.
  induction o as [ | [k v] rest IH]; simpl.
  - split; [discriminate | contradiction].
  - rewrite orb_true_iff, IH, String.eqb_eq. tauto.
Qed.

Lemma replaceProperty_keys (o : Properties) (name : string) (entry : Tag) :
  map fst (replaceProperty o name entry) = map fst o.
Proof.
  induction o as [ | [k v] rest IH]; simpl; [reflexivity | ].
  destruct (String.eqb k name); simpl; [reflexivity | ].
  rewrite IH. reflexivity.
Qed.

Lemma getProperty_replaceProperty (o : Properties) (name k : string) (entry : Tag) :
  hasOwnProperty o k = true ->
  getProperty (replaceProperty o k entry) name
  = if String.eqb k name then Some entry else getProperty o name.
Proof.
  induction o as [ | [k' v] rest IH]; simpl; [discriminate | ].
  destruct (String.eqb_spec k' k) as [-> | Hne]; simpl.
  - intros _. destruct (String.eqb k name); reflexivity.
  - intros H.
    destruct (String.eqb_spec k' name) as [-> | Hne'].
    + destruct (String.eqb_spec k name) as [-> | _]; [congruence | reflexivity].
    + apply IH. exact H.
Qed.

Lemma getProperty_app_new (o : Properties) (name k : string) (entry : Tag) :
  hasOwnProperty o k = false ->
  getProperty (o ++ [(k, entry)]) name
  = if String.eqb k name then Some entry else getProperty o name.
Proof.
  induction o as [ | [k' v] rest IH]; simpl.
  - intros _. reflexivity.
  - intros H. apply orb_false_iff in H. destruct H as [Hk Hrest].
    destruct (String.eqb_spec k' name) as [-> | Hne'].
    + rewrite String.eqb_sym, Hk. reflexivity.
    + apply IH. exact Hrest.
Qed.

Lemma getProperty_setProperty (o : Properties) (name k : string) (entry : Tag) :
  isOrdinaryName k = true ->
  getProperty (setProperty o k entry) name
  = if String.eqb k name then Some entry else getProperty o name.
Proof.
  unfold isOrdinaryName, setProperty. intros Hk.
  apply negb_true_iff in Hk. rewrite Hk.
  destruct (hasOwnProperty o k) eqn:Hown.
  - apply getProperty_replaceProperty. exact Hown.
  - apply getProperty_app_new. exact Hown.
Qed.

Lemma setProperty_keys (o : Properties) (k : string) (entry : Tag) :
  isOrdinaryName k = true ->
  map fst (setProperty o k entry)
  = if hasOwnProperty o k then map fst o else map fst o ++ [k].
Proof.
  unfold isOrdinaryName, setProperty. intros Hk.
  apply negb_true_iff in Hk. rewrite Hk.
  destruct (hasOwnProperty o k).
  - apply replaceProperty_keys.
  - rewrite map_app. reflexivity.
Qed.

(** *** First occurrences *)

Lemma absentFrom_In (acc : list string) (k : string) :
  absentFrom acc k = false <-> In k acc.
Proof.
  unfold absentFrom. rewrite negb_false_iff, existsb_exists. split.
  - intros (x & Hx & Heq). apply String.eqb_eq in Heq. subst. exact Hx.
  - intros H. exists k. split; [exact H | apply String.eqb_refl].
Qed.

Lemma filter_filter {A : Type} (p q : A -> bool) (l : list A) :
  filter p (filter q l) = filter (fun x => q x && p x) l.
Proof.
  induction l as [ | x rest IH]; simpl; [reflexivity | ].
  destruct (q x); simpl; [ | exact IH].
  destruct (p x); rewrite IH; reflexivity.
Qed.

Lemma filter_comm {A : Type} (p q : A -> bool) (l : list A) :
  filter p (filter q l) = filter q (filter p l).
Proof.
  rewrite !filter_filter. apply filter_ext. intros x. apply andb_comm.
Qed.

Lemma filter_all {A : Type} (p : A -> bool) (l : list A) :
  (forall x, In x l -> p x = true) -> filter p l = l.
Proof.
  induction l as [ | x rest IH]; simpl; intros H; [reflexivity | ].
  rewrite (H x) by auto. rewrite IH by auto. reflexivity.
Qed.

Lemma firstOccurrences_In (l : list string) (x : string) :
  In x (firstOccurrences l) <-> In x l.
Proof.
  induction l as [ | y rest IH]; simpl; [tauto | ].
  rewrite filter_In, IH, negb_true_iff, String.eqb_neq.
  destruct (String.eqb_spec y x) as [-> | Hne]; [tauto | ].
  split; [tauto | ]. intros [H | H]; [congruence | ]. right. split; [exact H | congruence].
Qed.

Lemma firstOccurrences_NoDup (l : list string) : NoDup (firstOccurrences l).
Proof.
  induction l as [ | y rest IH]; simpl; constructor.
  - rewrite filter_In, String.eqb_refl. simpl. intros [_ H]. discriminate.
  - apply NoDup_filter. exact IH.
Qed.

Lemma filter_firstOccurrences (p : string -> bool) (l : list string) :
  filter p (firstOccurrences l) = firstOccurrences (filter p l).
Proof.
  induction l as [ | x rest IH]; simpl; [reflexivity | ].
  destruct (p x) eqn:Hp; simpl.
  - rewrite filter_comm, IH. reflexivity.
  - rewrite filter_comm, IH. apply filter_all.
    intros y Hy. apply firstOccurrences_In, filter_In in Hy.
    apply negb_true_iff, String.eqb_neq. intros ->. destruct Hy. congruence.
Qed.

(** The keys in creation order after a run of assignments. *)
Lemma assign_keys (entries : list (string * Tag)) :
  forall o,
    map fst (fold_left assign entries o)
    = map fst o
      ++ filter (absentFrom (map fst o))
           (firstOccurrences (filter isOrdinaryName (map fst entries))).
Proof.
  induction entries as [ | [k v] rest IH]; intros o; cbn [fold_left map filter fst].
  - cbn [firstOccurrences filter]. rewrite app_nil_r. reflexivity.
  - rewrite IH.
    destruct (isOrdinaryName k) eqn:Hk.
    + assert (Hkeys : map fst (assign o (k, v))
                      = if hasOwnProperty o k then map fst o else map fst o ++ [k])
        by (apply setProperty_keys; exact Hk).
      rewrite Hkeys. clear Hkeys.
      cbn [firstOccurrences filter].
      destruct (hasOwnProperty o k) eqn:Hown.
      * assert (Habs : absentFrom (map fst o) k = false)
          by (apply absentFrom_In, hasOwnProperty_In; exact Hown).
        rewrite Habs. f_equal.
        rewrite filter_filter. apply filter_ext. intros y.
        destruct (String.eqb_spec y k) as [-> | Hne]; simpl; [ | reflexivity].
        exact Habs.
      * assert (Habs : absentFrom (map fst o) k = true).
        { destruct (absentFrom (map fst o) k) eqn:E; [reflexivity | ].
          apply absentFrom_In, hasOwnProperty_In in E. congruence. }
        rewrite Habs. rewrite <- app_assoc. cbn [app]. do 2 f_equal.
        rewrite filter_filter. apply filter_ext. intros y.
        unfold absentFrom. rewrite existsb_app. cbn [existsb].
        rewrite orb_false_r, negb_orb. apply andb_comm.
    + assert (Hsame : assign o (k, v) = o).
      { unfold assign, setProperty. cbn [fst snd].
        unfold isOrdinaryName in Hk. apply negb_false_iff in Hk.
        rewrite Hk. reflexivity. }
      rewrite Hsame. reflexivity.
Qed.

Lemma assign_values (entries : list (string * Tag)) (name : string) :
  Forall (fun e => isOrdinaryName (fst e) = true) entries ->
  forall o,
    getProperty (fold_left assign entries o) name
    = match lastValue entries name with
      | Some v => Some v
      | None => getProperty o name
      end.
Proof.
  induction 1 as [ | [k v] rest Hk Hrest IH]; intros o; cbn [fold_left lastValue].
  - reflexivity.
  - rewrite IH. destruct (lastValue rest name) as [later | ]; [reflexivity | ].
    unfold assign. cbn [fst snd].
    rewrite getProperty_setProperty by exact Hk.
    destruct (String.eqb k name); reflexivity.
Qed.

(** *** Enumeration order *)

Lemma insertKey_permutation (k : string) (l : list string) :
  Permutation (insertKey k l) (k :: l).
Proof.
  induction l as [ | x rest IH]; cbn [insertKey]; [reflexivity | ].
  destruct (indexOf k <=? indexOf x)%N; [reflexivity | ].
  rewrite IH. apply perm_swap.
Qed.

Lemma sortKeys_permutation (l : list string) : Permutation (sortKeys l) l.
Proof.
  induction l as [ | x rest IH]; cbn [sortKeys fold_right]; [reflexivity | ].
  fold (sortKeys rest). rewrite insertKey_permutation. constructor. exact IH.
Qed.

Lemma insertKey_sorted (k : string) (l : list string) :
  Sorted byIndex l -> Sorted byIndex (insertKey k l).
Proof.
  induction l as [ | x rest IH]; cbn [insertKey]; intros Hs.
  - repeat constructor.
  - destruct (N.leb_spec (indexOf k) (indexOf x)) as [Hle | Hgt].
    + constructor; [exact Hs | constructor; exact Hle].
    + inversion Hs as [ | ? ? Hrest Hhd]; subst.
      constructor; [apply IH; exact Hrest | ].
      destruct rest as [ | y rest']; cbn [insertKey].
      * constructor. unfold byIndex. lia.
      * destruct (indexOf k <=? indexOf y)%N.
        -- constructor. unfold byIndex. lia.
        -- inversion Hhd; subst. constructor. assumption.
Qed.

Lemma sortKeys_sorted (l : list string) : Sorted byIndex (sortKeys l).
Proof.
  induction l as [ | x rest IH]; cbn [sortKeys fold_right]; [constructor | ].
  apply insertKey_sorted. exact IH.
Qed.

Lemma ownKeys_of_creation_order (o : Properties) (names : list string) :
  map fst o = firstOccurrences names ->
  ownKeys o
  = sortKeys (firstOccurrences (filter isArrayIndex names))
      ++ firstOccurrences (filter (fun k => negb (isArrayIndex k)) names).
Proof.
  intros H. unfold ownKeys. rewrite H, !filter_firstOccurrences. reflexivity.
Qed.

Lemma ownKeys_each_once (names : list string) :
  let keys := sortKeys (firstOccurrences (filter isArrayIndex names))
                ++ firstOccurrences (filter (fun k => negb (isArrayIndex k)) names) in
  NoDup keys /\ (forall k, In k keys <-> In k names).
Proof.
  cbv zeta.
  pose proof (sortKeys_permutation (firstOccurrences (filter isArrayIndex names)))
    as Hperm.
  split.
  - apply NoDup_app.
    + eapply Permutation_NoDup; [symmetry; exact Hperm | ].
      apply firstOccurrences_NoDup.
    + apply firstOccurrences_NoDup.
    + intros k Hk Hk'.
      apply (Permutation_in _ Hperm), firstOccurrences_In, filter_In in Hk.
      apply firstOccurrences_In, filter_In in Hk'.
      destruct Hk as [_ Hk], Hk' as [_ Hk']. rewrite Hk in Hk'. discriminate.
  - intros k. rewrite in_app_iff. split.
    + intros [Hk | Hk].
      * apply (Permutation_in _ Hperm), firstOccurrences_In, filter_In in Hk. tauto.
      * apply firstOccurrences_In, filter_In in Hk. tauto.
    + intros Hk. destruct (isArrayIndex k) eqn:Hidx.
      * left. apply (Permutation_in _ (Permutation_sym Hperm)).
        apply firstOccurrences_In, filter_In. auto.
      * right. apply firstOccurrences_In, filter_In. rewrite Hidx. auto.
Qed.

(** C8, amended.  For every decoded COMPOUND none of whose names on the
    wire is [__proto__], the keys of the resulting mapping are the distinct
    names on the wire, each exactly once: first the names that are array
    indices, in ascending numeric order, then all other names in
    first-occurrence wire order; and the value retained for a name is the
    one of its last occurrence. *)
Theorem readCompound_keys :
  forall decode fuel r tag r',
    readCompound decode fuel r = OK (tag, r') ->
    exists entries properties,
      tag = CompoundTag properties
      /\ compoundEntries decode (readTag decode (pred fuel)) r entries r'
      /\ (~ In "__proto__"%string (map fst entries) ->
          let names := map fst entries in
          ownKeys properties
          = sortKeys (firstOccurrences (filter isArrayIndex names))
              ++ firstOccurrences (filter (fun k => negb (isArrayIndex k)) names)
          /\ NoDup (ownKeys properties)
          /\ (forall k, In k (ownKeys properties) <-> In k names)
          /\ (forall name, getProperty properties name = lastValue entries name)).
Proof.
  intros decode fuel r tag r' H.
  unfold readCompound in H. destruct fuel as [ | fuel']; [discriminate | ].
  cbn [readTag] in H. apply readCompound_loop_entries in H.
  destruct H as (entries & Hentries & ->).
  exists entries, (fold_left assign entries []).
  split; [reflexivity | ]. split; [exact Hentries | ].
  intros Hproto names.
  assert (Hord : Forall (fun e => isOrdinaryName (fst e) = true) entries).
  { apply Forall_forall. intros e He. unfold isOrdinaryName.
    apply negb_true_iff, String.eqb_neq. intros Heq.
    apply Hproto. rewrite <- Heq. apply in_map. exact He. }
  assert (Hkeys : map fst (fold_left assign entries []) = firstOccurrences names).
  { rewrite assign_keys. cbn [map app].
    rewrite filter_all by reflexivity.
    f_equal. apply filter_all. intros k Hk.
    apply in_map_iff in Hk. destruct Hk as (e & <- & He).
    rewrite Forall_forall in Hord. apply Hord. exact He. }
  pose proof (ownKeys_of_creation_order _ _ Hkeys) as Horder.
  destruct (ownKeys_each_once names) as [Hnodup Hin].
  split; [exact Horder | ].
  rewrite Horder. split; [exact Hnodup | ]. split; [exact Hin | ].
  intros name. rewrite assign_values by exact Hord.
  destruct (lastValue entries name); reflexivity.
Qed.

(** ** Fuel

    The fuel of [readTag] is sound: a result that is reached does not change
    when more fuel is given.  It is also needed: the source loops for ever
    on some inputs. *)

Lemma bind_settled {A B : Type} (m : res A) (k : A -> res B) :
  bind m k <> OutOfFuel -> m <> OutOfFuel.
Proof. destruct m; cbn [bind]; congruence. Qed.

Lemma readArray_loop_extends (f g : NBTReader -> res (Z * NBTReader)) :
  (forall r, f r <> OutOfFuel -> g r = f r) ->
  forall n i value r,
    readArray_loop f n i value r <> OutOfFuel ->
    readArray_loop g n i value r = readArray_loop f n i value r.
Proof.
  intros Hfg.
  induction n as [ | n' IH]; intros i value r H; cbn [readArray_loop] in *.
  - reflexivity.
  - rewrite (Hfg r) by (eapply bind_settled; exact H).
    destruct (f r) as [[entry r1] | e | ]; cbn [bind] in *; try reflexivity.
    apply IH. exact H.
Qed.

Section ExtendsRecursion.

Variable decode : list byte -> string.
Variables f g : TAG -> NBTReader -> res (Tag * NBTReader).
Hypothesis Hfg : extends f g.

Lemma readList_push_extends type :
  forall n value r,
    readList_push f type n value r <> OutOfFuel ->
    readList_push g type n value r = readList_push f type n value r.
Proof.
  induction n as [ | n' IH]; intros value r H; cbn [readList_push] in *.
  - reflexivity.
  - rewrite (Hfg type r) by (eapply bind_settled; exact H).
    destruct (f type r) as [[entry r1] | e | ]; cbn [bind] in *; try reflexivity.
    apply IH. exact H.
Qed.

Lemma readList_with_extends (r : NBTReader) :
  readList_with f r <> OutOfFuel -> readList_with g r = readList_with f r.
Proof.
  unfold readList_with. intros H.
  destruct (readTagType r) as [[type r1] | e | ]; cbn [bind] in *; try reflexivity.
  destruct (readLength r1) as [[length r2] | e | ]; cbn [bind] in *; try reflexivity.
  destruct (getAppropriateTypedArray type) as [c | ].
  - destruct (newTypedArray length) as [value | e | ]; cbn [bind] in *;
      try reflexivity.
    rewrite (readArray_loop_extends
               (fun r0 => ' (entry, r') <- f type r0;; OK (elementOf c entry, r'))
               (fun r0 => ' (entry, r') <- g type r0;; OK (elementOf c entry, r'))).
    + reflexivity.
    + intros r0 H0. rewrite (Hfg type r0) by (eapply bind_settled; exact H0).
      reflexivity.
    + eapply bind_settled; exact H.
  - rewrite readList_push_extends by (eapply bind_settled; exact H).
    reflexivity.
Qed.

Lemma readCompound_loop_extends :
  forall n m value r,
    (n <= m)%nat ->
    readCompound_loop decode f n value r <> OutOfFuel ->
    readCompound_loop decode g m value r = readCompound_loop decode f n value r.
Proof.
  induction n as [ | n' IH]; intros m value r Hnm H;
    [exfalso; apply H; reflexivity | ].
  destruct m as [ | m']; [lia | ].
  cbn [readCompound_loop] in *.
  destruct (readTagType r) as [[type r1] | e | ]; cbn [bind] in *; try reflexivity.
  assert (Hstep :
    (' (name, r2) <- readString decode r1;;
     ' (entry, r3) <- f type r2;;
     readCompound_loop decode f n' (setProperty value name entry) r3) <> OutOfFuel ->
    (' (name, r2) <- readString decode r1;;
     ' (entry, r3) <- g type r2;;
     readCompound_loop decode g m' (setProperty value name entry) r3)
    = (' (name, r2) <- readString decode r1;;
       ' (entry, r3) <- f type r2;;
       readCompound_loop decode f n' (setProperty value name entry) r3)).
  { intros H'.
    destruct (readString decode r1) as [[name r2] | e | ]; cbn [bind] in *;
      try reflexivity.
    rewrite (Hfg type r2) by (eapply bind_settled; exact H').
    destruct (f type r2) as [[entry r3] | e | ]; cbn [bind] in *; try reflexivity.
    apply IH; [lia | exact H']. }
  destruct type; try (apply Hstep; exact H); reflexivity.
Qed.

End ExtendsRecursion.

Lemma readTag_scalar_fuel decode fuel fuel' type r :
  type <> LIST -> type <> COMPOUND ->
  readTag decode fuel' type r = readTag decode fuel type r.
Proof.
  intros Hl Hc. destruct fuel, fuel', type; try congruence; reflexivity.
Qed.

(** More fuel never changes a result that was reached. *)
Lemma readTag_fuel_monotone decode :
  forall fuel fuel', (fuel <= fuel')%nat ->
    extends (readTag decode fuel) (readTag decode fuel').
Proof.
  induction fuel as [ | fuel IH]; intros fuel' Hle type r H.
  - destruct type; try (apply readTag_scalar_fuel; congruence);
      exfalso; apply H; reflexivity.
  - destruct fuel' as [ | fuel'']; [lia | ].
    destruct type; try (apply readTag_scalar_fuel; congruence); cbn [readTag] in *.
    + apply readList_with_extends; [apply IH; lia | exact H].
    + apply readCompound_loop_extends; [apply IH; lia | lia | exact H].
Qed.

(** The source does not terminate on every input: on [loopingCompound] the
    compound loop comes back to the same cursor with the same mapping, so
    no amount of fuel settles the read. *)
Lemma readCompound_loop_diverges :
  forall n fuel value,
    value = [] \/ value = [(""%string, NumericArrayTag Int8Array [])] ->
    readCompound_loop asciiDecode (readTag asciiDecode fuel) n value
      (advance (bigEndianReader loopingCompound) 3)
    = OutOfFuel.
Proof.
  induction n as [ | n' IH]; intros fuel value Hvalue; [reflexivity | ].
  cbn [readCompound_loop].
  change (readTagType (advance (bigEndianReader loopingCompound) 3))
    with (OK (BYTE_ARRAY, advance (bigEndianReader loopingCompound) 4)).
  cbn [bind].
  change (readString asciiDecode (advance (bigEndianReader loopingCompound) 4))
    with (OK (""%string, advance (bigEndianReader loopingCompound) 6)).
  cbn [bind].
  replace (readTag asciiDecode fuel BYTE_ARRAY
             (advance (bigEndianReader loopingCompound) 6))
    with (OK (NumericArrayTag Int8Array [],
              advance (bigEndianReader loopingCompound) 3))
    by (destruct fuel; reflexivity).
  cbn [bind].
  apply IH. right. destruct Hvalue as [-> | ->]; reflexivity.
Qed.

Lemma read_loopingCompound_diverges (fuel : nat) :
  read asciiDecode storedDecompress fuel (bytes loopingCompound)
    (hintsFor big None (Some false) None)
  = OutOfFuel.
Proof.
  destruct fuel as [ | fuel']; [reflexivity | ].
  unfold read, read_endian, read_rootName, read_resolved, hintsFor.
  cbn [compression_opt endian_opt rootName_opt bedrockLevel_opt bind].
  unfold readRoot.
  cbn [compression bedrockLevel rootName bind readsRootName].
  change (readTagType (readerFor (bytes loopingCompound) (Some big)))
    with (OK (COMPOUND, advance (bigEndianReader loopingCompound) 1)).
  cbn [bind].
  change (readString asciiDecode (advance (bigEndianReader loopingCompound) 1))
    with (OK (""%string, advance (bigEndianReader loopingCompound) 3)).
  cbn [bind rootNameMismatch readTag].
  rewrite readCompound_loop_diverges by (left; reflexivity).
  reflexivity.
Qed.

(** * Further properties *)

(** ** The cursor stays within the buffer *)

Lemma readFixed_landing w get : landing (readFixed w get).
Proof.
  intros r v r' H. apply readFixed_inv in H. destruct H as (Hlen & _ & ->).
  unfold inBounds, advance. simpl. exact Hlen.
Qed.

Ltac fixed_landing :=
  let r := fresh "r" in let v := fresh "v" in
  let r' := fresh "r'" in let H := fresh "H" in
  intros r v r' H; exact (readFixed_landing _ _ r v r' H).

Lemma readUnsignedByte_landing : landing readUnsignedByte.
Proof. fixed_landing. Qed.

Lemma readByte_landing : landing readByte.
Proof. fixed_landing. Qed.

Lemma readUnsignedShort_landing : landing readUnsignedShort.
Proof. fixed_landing. Qed.

Lemma readShort_landing : landing readShort.
Proof. fixed_landing. Qed.

Lemma readUnsignedInt_landing : landing readUnsignedInt.
Proof. fixed_landing. Qed.

Lemma readInt_landing : landing readInt.
Proof. fixed_landing. Qed.

Lemma readLong_landing : landing readLong.
Proof. fixed_landing. Qed.

Lemma readFloat_landing : landing readFloat.
Proof. fixed_landing. Qed.

Lemma readDouble_landing : landing readDouble.
Proof. fixed_landing. Qed.

Lemma readTagType_landing : landing readTagType.
Proof.
  intros r t r' H. unfold readTagType in H.
  inv_bind H. destruct a as [type r1]. apply readUnsignedByte_landing in Hm.
  destruct (isTagType type); inversion H; subst. exact Hm.
Qed.

Lemma readVarInt_loop_landing n value shift : landing (readVarInt_loop n value shift).
Proof.
  revert value shift.
  induction n as [ | n' IH]; intros value shift r v r' H; [discriminate | ].
  cbn [readVarInt_loop] in H.
  inv_bind H. destruct a as [byte r1]. apply readByte_landing in Hm.
  destruct (JS.and byte 128 =? 0).
  - inversion H; subst. exact Hm.
  - eapply IH; exact H.
Qed.

Lemma readVarIntZigZag_loop_landing n result shift :
  landing (readVarIntZigZag_loop n result shift).
Proof.
  revert result shift.
  induction n as [ | n' IH]; intros result shift r v r' H; [discriminate | ].
  cbn [readVarIntZigZag_loop] in H.
  inv_bind H. inv_bind H. destruct a0 as [byte r1]. apply readByte_landing in Hm0.
  destruct (JS.and byte 128 =? 0).
  - inversion H; subst. exact Hm0.
  - destruct (shift + 7 >? 63); [discriminate | ]. eapply IH; exact H.
Qed.

Lemma readVarIntZigZag_landing : landing readVarIntZigZag.
Proof.
  intros r v r' H. unfold readVarIntZigZag in H.
  inv_bind H. destruct a as [result r1]. inversion H; subst.
  eapply readVarIntZigZag_loop_landing; exact Hm.
Qed.

Lemma readVarLongZigZag_loop_landing n result shift :
  landing (readVarLongZigZag_loop n result shift).
Proof.
  revert result shift.
  induction n as [ | n' IH]; intros result shift r v r' H; [discriminate | ].
  cbn [readVarLongZigZag_loop] in H.
  inv_bind H. inv_bind H. destruct a0 as [byte r1]. apply readByte_landing in Hm0.
  destruct (JS.and byte 128 =? 0).
  - inversion H; subst. exact Hm0.
  - destruct (shift + 7 >? 63); [discriminate | ]. eapply IH; exact H.
Qed.

Lemma readVarLongZigZag_landing : landing readVarLongZigZag.
Proof.
  intros r v r' H. unfold readVarLongZigZag in H.
  inv_bind H. destruct a as [result r1]. inversion H; subst.
  eapply readVarLongZigZag_loop_landing; exact Hm.
Qed.

Lemma readLength_landing : landing readLength.
Proof.
  intros r v r' H. unfold readLength in H.
  destruct (varint r);
    [eapply readVarIntZigZag_landing | eapply readInt_landing]; exact H.
Qed.

Lemma advance_inBounds (r : NBTReader) (n : Z) (u : unit) :
  allocate r n = OK u -> inBounds (advance r n).
Proof.
  intros H. apply allocate_inv in H. unfold inBounds, advance. simpl. exact H.
Qed.

Lemma readString_landing decode : landing (readString decode).
Proof.
  intros r v r' H. unfold readString in H.
  inv_bind H. destruct a as [length r1].
  inv_bind H. inversion H; subst. eapply advance_inBounds; exact Hm0.
Qed.

Lemma readByteArray_landing : landing readByteArray.
Proof.
  intros r v r' H. unfold readByteArray in H.
  inv_bind H. destruct a as [length r1].
  inv_bind H. inversion H; subst. eapply advance_inBounds; exact Hm0.
Qed.

Lemma readArray_loop_inBounds readEntry :
  landing readEntry ->
  forall n i value r value' r',
    inBounds r ->
    readArray_loop readEntry n i value r = OK (value', r') -> inBounds r'.
Proof.
  intros Hentry.
  induction n as [ | n' IH]; intros i value r value' r' Hr H;
    cbn [readArray_loop] in H.
  - inversion H; subst. exact Hr.
  - inv_bind H. destruct a as [entry r1]. apply Hentry in Hm.
    eapply IH; [exact Hm | exact H].
Qed.

Lemma readIntArray_landing : landing readIntArray.
Proof.
  intros r v r' H. unfold readIntArray in H.
  inv_bind H. destruct a as [length r1]. apply readLength_landing in Hm.
  inv_bind H. inv_bind H. clear Hm1 a0. inv_bind H. destruct a0 as [value r2].
  inversion H; subst.
  eapply (readArray_loop_inBounds readInt); [apply readInt_landing | exact Hm | exact Hm1].
Qed.

Lemma readLongArray_landing : landing readLongArray.
Proof.
  intros r v r' H. unfold readLongArray in H.
  inv_bind H. destruct a as [length r1]. apply readLength_landing in Hm.
  inv_bind H. inv_bind H. clear Hm1 a0. inv_bind H. destruct a0 as [value r2].
  inversion H; subst.
  eapply (readArray_loop_inBounds readLong); [apply readLong_landing | exact Hm | exact Hm1].
Qed.

Section LandingRecursion.

Variable decode : list byte -> string.
Variable readEntry : TAG -> NBTReader -> res (Tag * NBTReader).
Hypothesis readEntry_landing : forall type, landing (readEntry type).

Lemma readList_push_inBounds type :
  forall n value r value' r',
    inBounds r ->
    readList_push readEntry type n value r = OK (value', r') -> inBounds r'.
Proof.
  induction n as [ | n' IH]; intros value r value' r' Hr H;
    cbn [readList_push] in H.
  - inversion H; subst. exact Hr.
  - inv_bind H. destruct a as [entry r1]. apply readEntry_landing in Hm.
    eapply IH; [exact Hm | exact H].
Qed.

Lemma readList_with_landing : landing (readList_with readEntry).
Proof.
  intros r v r' H. unfold readList_with in H.
  inv_bind H. destruct a as [type r1].
  inv_bind H. destruct a as [length r2]. apply readLength_landing in Hm0.
  destruct (getAppropriateTypedArray type) as [c | ].
  - inv_bind H. inv_bind H. destruct a0 as [value r3]. inversion H; subst.
    eapply readArray_loop_inBounds; [ | exact Hm0 | exact Hm2].
    intros ra va ra' Ha. inv_bind Ha. destruct a0 as [entry rb].
    inversion Ha; subst. eapply readEntry_landing; exact Hm3.
  - inv_bind H. destruct a as [value r3]. inversion H; subst.
    eapply readList_push_inBounds; [exact Hm0 | exact Hm1].
Qed.

Lemma readCompound_loop_landing n value :
  landing (readCompound_loop decode readEntry n value).
Proof.
  intros r v r' H.
  apply readCompound_loop_entries in H. destruct H as (entries & Hentries & _).
  induction Hentries as [ ra rb Hend | ]; [ | assumption].
  eapply readTagType_landing; exact Hend.
Qed.

End LandingRecursion.

Lemma readTag_scalar_landing decode fuel type :
  type <> LIST -> type <> COMPOUND -> landing (readTag decode fuel type).
Proof.
  intros Hl Hc r v r' H.
  destruct type; try congruence;
    rewrite (readTag_scalar_fuel decode 0 fuel) in H by congruence;
    cbn [readTag] in H; try discriminate;
    try (eapply readByteArray_landing; exact H);
    try (eapply readIntArray_landing; exact H);
    try (eapply readLongArray_landing; exact H);
    unfold tagged in H; inv_bind H; destruct a as [x r1]; inversion H; subst.
  - eapply readByte_landing; exact Hm.
  - eapply readShort_landing; exact Hm.
  - destruct (varint r);
      [eapply readVarIntZigZag_landing | eapply readInt_landing]; exact Hm.
  - destruct (varint r);
      [eapply readVarLongZigZag_landing | eapply readLong_landing]; exact Hm.
  - eapply readFloat_landing; exact Hm.
  - eapply readDouble_landing; exact Hm.
  - eapply readString_landing; exact Hm.
Qed.

Lemma readTag_landing decode fuel : forall type, landing (readTag decode fuel type).
Proof.
  induction fuel as [ | fuel' IH]; intros type r v r' H.
  - destruct type; try (eapply readTag_scalar_landing; [ | | exact H]; congruence);
      discriminate.
  - destruct type; try (eapply readTag_scalar_landing; [ | | exact H]; congruence).
    + eapply readList_with_landing; [exact IH | exact H].
    + eapply readCompound_loop_landing; exact H.
Qed.

Lemma readRoot_run decode decompress fuel r o result :
  readRoot decode decompress fuel r o = OK result ->
  exists buffer offset,
    decodedBuffer decompress r o = Some buffer
    /\ offset <= byteLength buffer
    /\ forall b,
         readRoot decode decompress fuel r (withStrict o b)
         = if b && (byteLength buffer >? offset)
           then Err UnexpectedEndTagError
           else OK (withByteOffset result (if b then None else Some offset)).
Proof.
  unfold readRoot, decodedBuffer.
  cbn [withStrict compression bedrockLevel rootName endian strict].
  intros H.
  inv_bind H. rename a into r0. rewrite Hm. cbn [bind].
  assert (Hbuf : (match compression o with
                  | Some format => decompress (data r) format
                  | None => Some (data r)
                  end) = Some (data r0)).
  { destruct (compression o) as [format | ].
    - destruct (decompress (data r) format); inversion Hm; reflexivity.
    - inversion Hm; reflexivity. }
  rewrite Hbuf.
  inv_bind H. rename a into r1. rewrite Hm0. cbn [bind].
  assert (H01 : moves r0 r1).
  { destruct (bedrockLevel o).
    - inv_bind Hm0. destruct a as [x ra]. inv_bind Hm0. destruct a as [y rb].
      inversion Hm0; subst.
      apply readUnsignedInt_moving in Hm1. apply readUnsignedInt_moving in Hm2.
      eapply moves_trans; eassumption.
    - inversion Hm0; subst. apply moves_refl. }
  inv_bind H. destruct a as [type r2]. rewrite Hm1. cbn [bind].
  apply readTagType_moving in Hm1.
  destruct type; try discriminate.
  all: inv_bind H; rewrite Hm2; cbn [bind]; destruct a as [rootNameV r3];
    destruct (rootNameMismatch (rootName o) rootNameV); try discriminate;
    inv_bind H; rewrite Hm3; cbn [bind]; destruct a as [root r4];
    assert (H23 : moves r2 r3)
      by (destruct (readsRootName (rootName o));
          [ inv_bind Hm2; destruct a as [s r'']; inversion Hm2; subst;
            eapply readString_moving; exact Hm4
          | inversion Hm2; subst; apply moves_refl ]);
    pose proof (readTag_landing _ _ _ _ _ _ Hm3) as Hland;
    apply readTag_moving in Hm3;
    assert (Hdata : data r4 = data r0)
      by (apply moves_data;
          eapply moves_trans; [exact H01 | ];
          eapply moves_trans; [exact Hm1 | ];
          eapply moves_trans; eassumption);
    unfold inBounds in Hland; rewrite Hdata in Hland, H |- *;
    exists (data r0), (byteOffset r4);
    (split; [reflexivity | split; [exact Hland | ]]);
    intros b;
    destruct (strict o && (byteLength (data r0) >? byteOffset r4));
    try discriminate; inversion H; subst result;
    destruct b; cbn [andb];
    destruct (byteLength (data r0) >? byteOffset r4); reflexivity.
Qed.

(** X14.  When a strict decoding attempt succeeds, the non-strict attempt on
    the same input yields the same result with the byte offset equal to the
    length of the decoded buffer; the byte offset reported by any successful
    non-strict attempt is at most that length. *)
Theorem readRoot_consumes_buffer :
  forall decode decompress fuel r o result,
    (readRoot decode decompress fuel r (withStrict o true) = OK result ->
     exists buffer,
       decodedBuffer decompress r o = Some buffer
       /\ readRoot decode decompress fuel r (withStrict o false)
          = OK (withByteOffset result (Some (byteLength buffer))))
    /\ (readRoot decode decompress fuel r (withStrict o false) = OK result ->
        exists buffer offset,
          decodedBuffer decompress r o = Some buffer
          /\ nbt_byteOffset result = Some offset
          /\ offset <= byteLength buffer).
Proof.
  intros decode decompress fuel r o result. split; intros H.
  - pose proof H as Hrun. apply readRoot_run in Hrun.
    destruct Hrun as (buffer & offset & Hbuf & Hle & Hall).
    exists buffer. split; [exact Hbuf | ].
    pose proof (Hall true) as Htrue. pose proof (Hall false) as Hfalse.
    change (withStrict (withStrict o true) true) with (withStrict o true) in Htrue.
    change (withStrict (withStrict o true) false) with (withStrict o false) in Hfalse.
    rewrite H in Htrue. cbn [andb] in Htrue, Hfalse.
    destruct (Z.gtb_spec (byteLength buffer) offset) as [Hgt | Hge];
      [discriminate | ].
    rewrite Hfalse. replace offset with (byteLength buffer) by lia. reflexivity.
  - pose proof H as Hrun. apply readRoot_run in Hrun.
    destruct Hrun as (buffer & offset & Hbuf & Hle & Hall).
    exists buffer, offset. split; [exact Hbuf | ]. split; [ | exact Hle].
    pose proof (Hall false) as Hfalse.
    change (withStrict (withStrict o false) false) with (withStrict o false) in Hfalse.
    rewrite H in Hfalse. cbn [andb] in Hfalse.
    inversion Hfalse as [Heq]. rewrite Heq at 1. reflexivity.
Qed.

(** ** Bounds of the primitive reads *)

Lemma allocate_short (r : NBTReader) (n : Z) :
  byteLength (data r) < byteOffset r + n ->
  allocate r n = Err UnexpectedBufferEndError.
Proof.
  intros H. unfold allocate.
  destruct (Z.gtb_spec (byteOffset r + n) (byteLength (data r))); [reflexivity | lia].
Qed.

Lemma slice_negative (d : list byte) (off n : Z) :
  off < 0 -> DataView.slice d off n = Err RangeError.
Proof.
  intros H. unfold DataView.slice.
  destruct (Z.leb_spec 0 off); [lia | reflexivity].
Qed.

Lemma slice_at (r : NBTReader) (bs : list byte) :
  bytesAt r bs ->
  DataView.slice (data r) (byteOffset r) (byteLength bs) = OK bs.
Proof.
  intros (pre & post & Hd & Hoff).
  rewrite slice_OK.
  - rewrite Hd, Hoff. unfold byteLength. rewrite !Nat2Z.id.
    rewrite skipn_app, skipn_all, Nat.sub_diag. cbn [skipn app].
    rewrite firstn_app, firstn_all, Nat.sub_diag. cbn [firstn].
    rewrite app_nil_r. reflexivity.
  - rewrite Hoff. apply byteLength_nonneg.
  - rewrite Hd, Hoff, !byteLength_app. pose proof (byteLength_nonneg post). lia.
Qed.

Lemma allocate_bytesAt (r : NBTReader) (bs : list byte) :
  bytesAt r bs -> allocate r (byteLength bs) = OK tt.
Proof.
  intros (pre & post & Hd & Hoff). apply allocate_OK.
  rewrite Hd, Hoff, !byteLength_app. pose proof (byteLength_nonneg post). lia.
Qed.

Lemma bytesAt_app (r : NBTReader) (a b : list byte) :
  bytesAt r (a ++ b) ->
  bytesAt r a /\ bytesAt (advance r (byteLength a)) b.
Proof.
  intros (pre & post & Hd & Hoff). split.
  - exists pre, (b ++ post). rewrite Hd, <- app_assoc. auto.
  - exists (pre ++ a), post. simpl. rewrite Hd, <- !app_assoc. split; [reflexivity | ].
    rewrite Hoff, byteLength_app. reflexivity.
Qed.

Lemma bytesAt_nonneg (r : NBTReader) (bs : list byte) :
  bytesAt r bs -> 0 <= byteOffset r /\ byteOffset r + byteLength bs <= byteLength (data r).
Proof.
  intros (pre & post & Hd & Hoff).
  rewrite Hd, Hoff, !byteLength_app.
  pose proof (byteLength_nonneg pre). pose proof (byteLength_nonneg post). lia.
Qed.

(** The three outcomes of a fixed-width read, by the position of the
    cursor. *)
Lemma readFixed_getInt_short (n : Z) (le : bool) (r : NBTReader) :
  byteLength (data r) < byteOffset r + n ->
  readFixed n (fun d off => DataView.getInt n d off le) r
  = Err UnexpectedBufferEndError.
Proof. intros H. unfold readFixed. rewrite allocate_short by exact H. reflexivity. Qed.

Lemma readFixed_getUint_short (n : Z) (le : bool) (r : NBTReader) :
  byteLength (data r) < byteOffset r + n ->
  readFixed n (fun d off => DataView.getUint n d off le) r
  = Err UnexpectedBufferEndError.
Proof. intros H. unfold readFixed. rewrite allocate_short by exact H. reflexivity. Qed.

Lemma readFixed_getInt_negative (n : Z) (le : bool) (r : NBTReader) :
  byteOffset r + n <= byteLength (data r) -> byteOffset r < 0 ->
  readFixed n (fun d off => DataView.getInt n d off le) r = Err RangeError.
Proof.
  intros Hlen Hneg. unfold readFixed, DataView.getInt, DataView.getUint.
  rewrite allocate_OK by exact Hlen. cbn [bind].
  rewrite slice_negative by exact Hneg. reflexivity.
Qed.

Lemma readFixed_getUint_negative (n : Z) (le : bool) (r : NBTReader) :
  byteOffset r + n <= byteLength (data r) -> byteOffset r < 0 ->
  readFixed n (fun d off => DataView.getUint n d off le) r = Err RangeError.
Proof.
  intros Hlen Hneg. unfold readFixed, DataView.getUint.
  rewrite allocate_OK by exact Hlen. cbn [bind].
  rewrite slice_negative by exact Hneg. reflexivity.
Qed.

(** X2.  A fixed-width numeric tag (BYTE, SHORT, FLOAT, DOUBLE, and INT and
    LONG outside varint mode) fails with the unexpected-buffer-end error
    when fewer bytes than its width remain, fails with RangeError when the
    bytes remain but the cursor is negative, and otherwise succeeds and
    advances the cursor by exactly its width. *)
Theorem readTag_fixed_width_bounds :
  forall decode fuel type c r,
    getAppropriateTypedArray type = Some c ->
    fixedWidthElement r type = true ->
    (byteLength (data r) < byteOffset r + BYTES_PER_ELEMENT c ->
     readTag decode fuel type r = Err UnexpectedBufferEndError)
    /\ (byteOffset r + BYTES_PER_ELEMENT c <= byteLength (data r) ->
        byteOffset r < 0 ->
        readTag decode fuel type r = Err RangeError)
    /\ (byteOffset r + BYTES_PER_ELEMENT c <= byteLength (data r) ->
        0 <= byteOffset r ->
        exists entry,
          readTag decode fuel type r = OK (entry, advance r (BYTES_PER_ELEMENT c))).
Proof.
  intros decode fuel type c r Hc Hfixed.
  split; [ | split].
  - intros Hshort.
    destruct type; inversion Hc; subst c; cbn [fixedWidthElement] in Hfixed;
      rewrite (readTag_scalar_fuel decode 0 fuel) by congruence;
      cbn [readTag]; unfold tagged;
      try (destruct (varint r); [discriminate | ]).
    + change (BYTES_PER_ELEMENT Int8Array) with 1 in Hshort.
      unfold readByte, DataView.getInt8.
      rewrite (readFixed_getInt_short 1 false r Hshort). reflexivity.
    + change (BYTES_PER_ELEMENT Int16Array) with 2 in Hshort.
      unfold readShort, DataView.getInt16.
      rewrite (readFixed_getInt_short 2 (littleEndian r) r Hshort). reflexivity.
    + change (BYTES_PER_ELEMENT Int32Array) with 4 in Hshort.
      unfold readInt, DataView.getInt32.
      rewrite (readFixed_getInt_short 4 (littleEndian r) r Hshort). reflexivity.
    + change (BYTES_PER_ELEMENT BigInt64Array) with 8 in Hshort.
      unfold readLong, DataView.getBigInt64.
      rewrite (readFixed_getInt_short 8 (littleEndian r) r Hshort). reflexivity.
    + change (BYTES_PER_ELEMENT Float32Array) with 4 in Hshort.
      unfold readFloat, DataView.getFloat32.
      rewrite (readFixed_getUint_short 4 (littleEndian r) r Hshort). reflexivity.
    + change (BYTES_PER_ELEMENT Float64Array) with 8 in Hshort.
      unfold readDouble, DataView.getFloat64.
      rewrite (readFixed_getUint_short 8 (littleEndian r) r Hshort). reflexivity.
  - intros Hroom Hneg.
    destruct type; inversion Hc; subst c; cbn [fixedWidthElement] in Hfixed;
      rewrite (readTag_scalar_fuel decode 0 fuel) by congruence;
      cbn [readTag]; unfold tagged;
      try (destruct (varint r); [discriminate | ]).
    + change (BYTES_PER_ELEMENT Int8Array) with 1 in Hroom.
      unfold readByte, DataView.getInt8.
      rewrite (readFixed_getInt_negative 1 false r Hroom Hneg). reflexivity.
    + change (BYTES_PER_ELEMENT Int16Array) with 2 in Hroom.
      unfold readShort, DataView.getInt16.
      rewrite (readFixed_getInt_negative 2 (littleEndian r) r Hroom Hneg). reflexivity.
    + change (BYTES_PER_ELEMENT Int32Array) with 4 in Hroom.
      unfold readInt, DataView.getInt32.
      rewrite (readFixed_getInt_negative 4 (littleEndian r) r Hroom Hneg). reflexivity.
    + change (BYTES_PER_ELEMENT BigInt64Array) with 8 in Hroom.
      unfold readLong, DataView.getBigInt64.
      rewrite (readFixed_getInt_negative 8 (littleEndian r) r Hroom Hneg). reflexivity.
    + change (BYTES_PER_ELEMENT Float32Array) with 4 in Hroom.
      unfold readFloat, DataView.getFloat32.
      rewrite (readFixed_getUint_negative 4 (littleEndian r) r Hroom Hneg). reflexivity.
    + change (BYTES_PER_ELEMENT Float64Array) with 8 in Hroom.
      unfold readDouble, DataView.getFloat64.
      rewrite (readFixed_getUint_negative 8 (littleEndian r) r Hroom Hneg). reflexivity.
  - intros Hroom Hpos.
    apply readTag_fixedWidth_OK; assumption.
Qed.

(** The kind byte. *)
Lemma readUnsignedByte_at (r : NBTReader) (b : byte) (bs : list byte) :
  bytesAt r (b :: bs) -> readUnsignedByte r = OK (u8 b, advance r 1).
Proof.
  intros Hat. change (b :: bs) with ([b] ++ bs) in Hat.
  apply bytesAt_app in Hat. destruct Hat as [Hat _].
  unfold readUnsignedByte, readFixed, DataView.getUint8, DataView.getUint.
  change 1 with (byteLength [b]).
  rewrite (allocate_bytesAt r [b] Hat). cbn [bind].
  rewrite (slice_at r [b] Hat). cbn [bind rev app leValue].
  rewrite Z.mul_0_r, Z.add_0_r. reflexivity.
Qed.

(** X1.  Reading a tag kind consumes one byte: a byte from 0 to 12 yields
    the kind with that code and advances the cursor by one, a byte above 12
    fails with the invalid-tag error, and a cursor at or past the end of the
    buffer fails with the unexpected-buffer-end error. *)
Theorem readTagType_cases :
  forall r,
    (forall b rest,
       bytesAt r (b :: rest) ->
       (u8 b <= 12 ->
        exists t, TAG_code t = u8 b /\ readTagType r = OK (t, advance r 1))
       /\ (12 < u8 b -> readTagType r = Err InvalidTagError))
    /\ (byteLength (data r) <= byteOffset r ->
        readTagType r = Err UnexpectedBufferEndError).
Proof.
  intros r. split.
  - intros b rest Hat. unfold readTagType.
    rewrite (readUnsignedByte_at r b rest Hat). cbn [bind].
    destruct (isTagType (u8 b)) as [t | ] eqn:Ht.
    + apply isTagType_range in Ht. destruct Ht as [Hrange Hcode].
      split; [ | lia]. intros _. exists t. auto.
    + split; [ | reflexivity]. intros Hle. exfalso.
      assert (Hb : 0 <= u8 b) by (unfold u8; lia).
      assert (Hsome : exists t, isTagType (u8 b) = Some t).
      { destruct (u8 b) as [ | p | p]; [eexists; reflexivity | | lia].
        do 4 (try destruct p as [p | p | ]; try lia); eexists; reflexivity. }
      destruct Hsome as [t Ht']. congruence.
  - intros Hend. unfold readTagType, readUnsignedByte, readFixed.
    rewrite allocate_short by lia. reflexivity.
Qed.

(** ** Values of the varint reads *)

Lemma readVarInt_loop_value :
  forall bs k acc shift r,
    terminatedVarint bs = true ->
    bytesAt r bs ->
    (List.length bs <= k)%nat ->
    0 <= shift ->
    0 <= acc < 2^shift ->
    acc + 2^shift * varintValue bs < 2^32 ->
    readVarInt_loop k (JS.toInt32 acc) shift r
    = OK (JS.toInt32 (acc + 2^shift * varintValue bs), advance r (byteLength bs)).
Proof.
  induction bs as [ | b rest IH]; intros k acc shift r Hterm Hat Hk Hs Hacc Hbound.
  - discriminate.
  - destruct k as [ | k']; [simpl in Hk; lia | ].
    cbn [readVarInt_loop].
    destruct (readByte_at r b rest Hat) as [Hread Hat'].
    rewrite Hread. cbn [bind].
    rewrite byte_payload, byte_flag.
    pose proof (payload_range b) as Hp.
    pose proof (varintValue_nonneg rest) as Hv.
    assert (Hpow : 0 < 2^shift) by (apply Z.pow_pos_nonneg; lia).
    cbn [varintValue] in Hbound |- *.
    rewrite accumulate32 by (try assumption; nia).
    destruct rest as [ | b' rest'].
    + cbn [terminatedVarint] in Hterm. rewrite Hterm.
      cbn [varintValue]. do 2 f_equal. f_equal. ring.
    + assert (Hc : continues b = true /\ terminatedVarint (b' :: rest') = true)
        by (apply andb_true_iff; exact Hterm).
      destruct Hc as [Hc Hterm']. rewrite Hc. cbn [negb].
      rewrite (IH k' (acc + payload b * 2^shift) (shift + 7) (advance r 1)).
      * rewrite advance_advance. f_equal. f_equal.
        -- f_equal. rewrite Z.pow_add_r by lia. ring.
        -- rewrite (byteLength_cons b). reflexivity.
      * exact Hterm'.
      * exact Hat'.
      * simpl in Hk |- *. lia.
      * lia.
      * rewrite Z.pow_add_r by lia. nia.
      * rewrite Z.pow_add_r by lia. nia.
Qed.

(** X3.  On a terminated varint whose accumulated value is below 2^32 the
    unsigned varint read returns that value wrapped to a signed 32-bit
    integer and advances past the varint: the value itself when it is below
    2^31, a negative number when it is 2^31 or more. *)
Theorem readVarInt_value :
  forall r bs,
    terminatedVarint bs = true ->
    bytesAt r bs ->
    varintValue bs < 2^32 ->
    readVarInt r = OK (JS.toInt32 (varintValue bs), advance r (byteLength bs))
    /\ (varintValue bs < 2^31 -> JS.toInt32 (varintValue bs) = varintValue bs)
    /\ (2^31 <= varintValue bs -> JS.toInt32 (varintValue bs) < 0).
Proof.
  intros r bs Hterm Hat Hbound.
  pose proof (varintValue_nonneg bs) as Hv.
  split; [ | split].
  - assert (Hloop : forall k, (List.length bs <= k)%nat ->
                      readVarInt_loop k (JS.toInt32 0) 0 r
                      = OK (JS.toInt32 (0 + 2^0 * varintValue bs),
                            advance r (byteLength bs))).
    { intros k Hk. apply readVarInt_loop_value; try assumption.
      - lia.
      - change (2^0) with 1. lia.
      - change (2^0) with 1. lia. }
    change (2^0) with 1 in Hloop. rewrite Z.add_0_l, Z.mul_1_l in Hloop.
    unfold readVarInt.
    change (readVarInt_loop ?k 0 0 r) with (readVarInt_loop k (JS.toInt32 0) 0 r).
    apply Hloop.
    apply bytesAt_nonneg in Hat. unfold byteLength in *. lia.
  - intros Hsmall. apply toInt32_id. lia.
  - intros Hbig. unfold JS.toInt32.
    replace ((varintValue bs + 2^31) mod 2^32) with (varintValue bs - 2^31).
    + lia.
    + apply Z.mod_unique with 1; lia.
Qed.

Lemma readVarLongZigZag_loop_value :
  forall bs k acc shift r,
    terminatedVarint bs = true ->
    bytesAt r bs ->
    (List.length bs <= k)%nat ->
    0 <= shift -> shift + 7 * byteLength bs <= 70 ->
    0 <= acc < 2^shift ->
    readVarLongZigZag_loop k acc shift r
    = OK (acc + 2^shift * varintValue bs, advance r (byteLength bs)).
Proof.
  induction bs as [ | b rest IH]; intros k acc shift r Hterm Hat Hk Hs Hlim Hacc.
  - discriminate.
  - destruct k as [ | k']; [simpl in Hk; lia | ].
    cbn [readVarLongZigZag_loop].
    rewrite (allocate_at r b rest Hat). cbn [bind].
    destruct (readByte_at r b rest Hat) as [Hread Hat'].
    rewrite Hread. cbn [bind].
    rewrite byte_payload_big, byte_flag.
    pose proof (payload_range b) as Hp.
    rewrite lor_disjoint by assumption.
    cbn [varintValue].
    destruct rest as [ | b' rest'].
    + cbn [terminatedVarint] in Hterm. rewrite Hterm.
      cbn [varintValue]. do 2 f_equal. ring.
    + assert (Hc : continues b = true /\ terminatedVarint (b' :: rest') = true)
        by (apply andb_true_iff; exact Hterm).
      destruct Hc as [Hc Hterm']. rewrite Hc. cbn [negb].
      rewrite !byteLength_cons in Hlim.
      pose proof (byteLength_nonneg rest').
      destruct (Z.gtb_spec (shift + 7) 63) as [Hbig | _]; [lia | ].
      rewrite (IH k' (acc + payload b * 2^shift) (shift + 7) (advance r 1)).
      * rewrite advance_advance. f_equal. f_equal.
        -- rewrite Z.pow_add_r by lia. ring.
        -- rewrite (byteLength_cons b). reflexivity.
      * exact Hterm'.
      * exact Hat'.
      * simpl in Hk |- *. lia.
      * lia.
      * rewrite !byteLength_cons. lia.
      * rewrite Z.pow_add_r by lia. nia.
Qed.

(** X4.  On every terminated varint of at most ten bytes the long ZigZag
    read returns (n >> 1) XOR -(n AND 1) of the accumulated unsigned value n
    as an unbounded integer (up to 70 payload bits, not truncated to 64) and
    advances past the varint. *)
Theorem readVarLongZigZag_decodes :
  forall r bs,
    terminatedVarint bs = true ->
    (List.length bs <= 10)%nat ->
    bytesAt r bs ->
    readVarLongZigZag r
    = OK (zigzagDecode (varintValue bs), advance r (byteLength bs)).
Proof.
  intros r bs Hterm Hlen Hat.
  unfold readVarLongZigZag.
  rewrite (readVarLongZigZag_loop_value bs 10 0 0 r); try assumption.
  - cbn [bind]. change (2^0) with 1. rewrite Z.add_0_l, Z.mul_1_l. reflexivity.
  - lia.
  - unfold byteLength. lia.
  - change (2^0) with 1. lia.
Qed.

(** ** Length-prefixed payloads *)

Lemma subarray_at (r : NBTReader) (bs : list byte) :
  bytesAt r bs ->
  subarray (data r) (byteOffset r) (byteOffset r + byteLength bs) = bs.
Proof.
  intros Hat. pose proof (bytesAt_nonneg r bs Hat) as [Hoff Hlen].
  pose proof (byteLength_nonneg bs) as Hbs.
  assert (Heq : firstn (Z.to_nat (byteLength bs))
                  (skipn (Z.to_nat (byteOffset r)) (data r)) = bs).
  { pose proof (slice_at r bs Hat) as Hslice.
    rewrite slice_OK in Hslice by assumption. congruence. }
  unfold subarray, relativeIndex.
  destruct (Z.ltb_spec (byteOffset r) 0); [lia | ].
  destruct (Z.ltb_spec (byteOffset r + byteLength bs) 0); [lia | ].
  rewrite (Z.min_l (byteOffset r)) by lia.
  rewrite (Z.min_l (byteOffset r + byteLength bs)) by lia.
  replace (Z.max (byteOffset r + byteLength bs - byteOffset r) 0)
    with (byteLength bs) by lia.
  exact Heq.
Qed.

Lemma subarray_backwards (d : list byte) (b e : Z) :
  0 <= e -> e <= b -> subarray d b e = [].
Proof.
  intros He Hb. unfold subarray, relativeIndex.
  destruct (Z.ltb_spec b 0); [lia | ].
  destruct (Z.ltb_spec e 0); [lia | ].
  replace (Z.max (Z.min e (byteLength d) - Z.min b (byteLength d)) 0) with 0 by lia.
  reflexivity.
Qed.

(** X6.  After the length prefix of a string is read, the read fails with
    the unexpected-buffer-end error when fewer bytes than the length remain;
    when the payload of that length lies at the cursor the result is the
    decoder applied to exactly those bytes and the cursor advances by the
    length. *)
Theorem readString_payload :
  forall decode r length r1,
    (if varint r then readVarInt r else readUnsignedShort r) = OK (length, r1) ->
    (byteLength (data r1) < byteOffset r1 + length ->
     readString decode r = Err UnexpectedBufferEndError)
    /\ (forall payload,
          bytesAt r1 payload -> byteLength payload = length ->
          readString decode r = OK (decode payload, advance r1 length)).
Proof.
  intros decode r length r1 Hlen. unfold readString. rewrite Hlen. cbn [bind].
  split.
  - intros Hshort. rewrite allocate_short by exact Hshort. reflexivity.
  - intros payload Hat <-.
    rewrite (allocate_bytesAt r1 payload Hat). cbn [bind].
    rewrite (subarray_at r1 payload Hat). reflexivity.
Qed.

(** X7.  After the length prefix of a BYTE_ARRAY is read, the read fails
    with the unexpected-buffer-end error when fewer bytes than the length
    remain; when the payload of that length lies at the cursor the result is
    those bytes reinterpreted as signed 8-bit integers and the cursor
    advances by the length. *)
Theorem readByteArray_payload :
  forall r length r1,
    readLength r = OK (length, r1) ->
    (byteLength (data r1) < byteOffset r1 + length ->
     readByteArray r = Err UnexpectedBufferEndError)
    /\ (forall payload,
          bytesAt r1 payload -> byteLength payload = length ->
          readByteArray r
          = OK (NumericArrayTag Int8Array (map (fun b => toSigned 8 (u8 b)) payload),
                advance r1 length)).
Proof.
  intros r length r1 Hlen. unfold readByteArray. rewrite Hlen. cbn [bind].
  split.
  - intros Hshort. rewrite allocate_short by exact Hshort. reflexivity.
  - intros payload Hat <-.
    rewrite (allocate_bytesAt r1 payload Hat). cbn [bind].
    rewrite (subarray_at r1 payload Hat). reflexivity.
Qed.

(** X8.  A BYTE_ARRAY whose length prefix is negative is not rejected: the
    read succeeds and moves the cursor backwards by that amount, and the
    array is empty whenever the new cursor is not negative. *)
Theorem readByteArray_negative_length :
  forall r length r1,
    readLength r = OK (length, r1) ->
    length < 0 ->
    exists elements,
      readByteArray r = OK (NumericArrayTag Int8Array elements, advance r1 length)
      /\ byteOffset (advance r1 length) < byteOffset r1
      /\ (0 <= byteOffset r1 + length -> elements = []).
Proof.
  intros r length r1 Hlen Hneg. unfold readByteArray. rewrite Hlen. cbn [bind].
  pose proof (readLength_landing _ _ _ Hlen) as Hland. unfold inBounds in Hland.
  rewrite allocate_OK by lia. cbn [bind].
  eexists. split; [reflexivity | ]. split.
  - unfold advance. simpl. lia.
  - intros Hpos. rewrite subarray_backwards by lia. reflexivity.
Qed.

(** *** Arrays of fixed-width elements *)

Lemma readArray_loop_short (readEntry : NBTReader -> res (Z * NBTReader)) (w : Z) :
  0 < w ->
  (forall r, 0 <= byteOffset r -> byteOffset r + w <= byteLength (data r) ->
             exists v, readEntry r = OK (v, advance r w)) ->
  (forall r, byteLength (data r) < byteOffset r + w ->
             readEntry r = Err UnexpectedBufferEndError) ->
  forall n i value r,
    0 <= byteOffset r ->
    byteLength (data r) < byteOffset r + Z.of_nat n * w ->
    inBounds r ->
    readArray_loop readEntry n i value r = Err UnexpectedBufferEndError.
Proof.
  intros Hw Hok Hshort.
  induction n as [ | n' IH]; intros i value r Hoff Hlen Hin; cbn [readArray_loop].
  - unfold inBounds in Hin. lia.
  - destruct (Z.le_gt_cases (byteOffset r + w) (byteLength (data r))) as [Hroom | Hno].
    + destruct (Hok r Hoff Hroom) as [v Hv]. rewrite Hv. cbn [bind].
      apply IH; unfold inBounds, advance; simpl; lia.
    + rewrite Hshort by lia. reflexivity.
Qed.

Lemma readInt_OK (r : NBTReader) :
  0 <= byteOffset r -> byteOffset r + 4 <= byteLength (data r) ->
  exists v, readInt r = OK (v, advance r 4).
Proof. intros Hoff Hlen. apply (readFixed_getInt_OK 4 littleEndian r Hoff Hlen). Qed.

Lemma readLong_OK (r : NBTReader) :
  0 <= byteOffset r -> byteOffset r + 8 <= byteLength (data r) ->
  exists v, readLong r = OK (v, advance r 8).
Proof. intros Hoff Hlen. apply (readFixed_getInt_OK 8 littleEndian r Hoff Hlen). Qed.

Lemma readInt_short (r : NBTReader) :
  byteLength (data r) < byteOffset r + 4 -> readInt r = Err UnexpectedBufferEndError.
Proof. apply readFixed_getInt_short. Qed.

Lemma readLong_short (r : NBTReader) :
  byteLength (data r) < byteOffset r + 8 -> readLong r = Err UnexpectedBufferEndError.
Proof. apply readFixed_getInt_short. Qed.

(** X9.  An INT_ARRAY or LONG_ARRAY with a non-negative length prefix:
    when the length exceeds the number of keys the for-in of the engine can
    collect, the read fails with [RangeError] before any element is read;
    otherwise it succeeds with exactly that many elements, advancing 4
    (respectively 8) bytes per element, when the buffer holds them, and
    fails with the unexpected-buffer-end error when it does not.  The
    elements are fixed-width also in varint mode. *)
Theorem fixed_width_arrays :
  forall r length r1,
    readLength r = OK (length, r1) ->
    0 <= length ->
    (maxKeys < length ->
     readIntArray r = Err RangeError /\ readLongArray r = Err RangeError)
    /\ (length <= maxKeys ->
        (byteOffset r1 + 4 * length <= byteLength (data r1) ->
         exists elements,
           readIntArray r
           = OK (NumericArrayTag Int32Array elements, advance r1 (4 * length))
           /\ Z.of_nat (List.length elements) = length)
        /\ (byteLength (data r1) < byteOffset r1 + 4 * length ->
            readIntArray r = Err UnexpectedBufferEndError)
        /\ (byteOffset r1 + 8 * length <= byteLength (data r1) ->
            exists elements,
              readLongArray r
              = OK (NumericArrayTag BigInt64Array elements, advance r1 (8 * length))
              /\ Z.of_nat (List.length elements) = length)
        /\ (byteLength (data r1) < byteOffset r1 + 8 * length ->
            readLongArray r = Err UnexpectedBufferEndError)).
Proof.
  intros r length r1 Hlen Hpos.
  pose proof (readLength_nonneg _ _ _ Hlen) as Hoff.
  pose proof (readLength_landing _ _ _ Hlen) as Hland.
  assert (Hok : forall (readEntry : NBTReader -> res (Z * NBTReader)) (w : Z),
            0 < w ->
            (forall r0, 0 <= byteOffset r0 ->
                        byteOffset r0 + w <= byteLength (data r0) ->
                        exists v, readEntry r0 = OK (v, advance r0 w)) ->
            byteOffset r1 + w * length <= byteLength (data r1) ->
            exists elements,
              readArray_loop readEntry (Z.to_nat length) 0
                (repeat 0 (Z.to_nat length)) r1
              = OK (elements, advance r1 (w * length))
              /\ Z.of_nat (List.length elements) = length).
  { intros readEntry w Hw Hentry Hroom.
    destruct (readArray_loop_OK readEntry w (fun _ => True) ltac:(lia)
                (fun _ _ _ => I) (fun r0 _ => Hentry r0)
                (Z.to_nat length) 0%nat (repeat 0 (Z.to_nat length)) r1 I Hoff)
      as [elements Hloop].
    - rewrite Z2Nat.id by lia. lia.
    - exists elements. rewrite Hloop, Z2Nat.id by lia. split.
      + do 3 f_equal. lia.
      + apply readArray_loop_length in Hloop. rewrite Hloop, repeat_length. lia. }
  assert (Hno : forall (readEntry : NBTReader -> res (Z * NBTReader)) (w : Z),
            0 < w ->
            (forall r0, 0 <= byteOffset r0 ->
                        byteOffset r0 + w <= byteLength (data r0) ->
                        exists v, readEntry r0 = OK (v, advance r0 w)) ->
            (forall r0, byteLength (data r0) < byteOffset r0 + w ->
                        readEntry r0 = Err UnexpectedBufferEndError) ->
            byteLength (data r1) < byteOffset r1 + w * length ->
            readArray_loop readEntry (Z.to_nat length) 0
              (repeat 0 (Z.to_nat length)) r1
            = Err UnexpectedBufferEndError).
  { intros readEntry w Hw Hentry Hshort Hless.
    apply (readArray_loop_short readEntry w Hw Hentry Hshort); try assumption.
    rewrite Z2Nat.id by lia. lia. }
  unfold readIntArray, readLongArray, newTypedArray, forIn.
  rewrite Hlen. cbn [bind].
  destruct (Z.ltb_spec length 0) as [ | _]; [lia | ]. cbn [bind].
  split; [intros Hmany | intros Hfew];
    (destruct (Z.gtb_spec length maxKeys); [ | ]; try lia); cbn [bind].
  { split; reflexivity. }
  split; [ | split; [ | split]].
  - intros Hroom.
    destruct (Hok readInt 4 ltac:(lia) readInt_OK Hroom) as (elements & Hloop & Hn).
    rewrite Hloop. cbn [bind]. exists elements. auto.
  - intros Hshort.
    rewrite (Hno readInt 4 ltac:(lia) readInt_OK readInt_short Hshort). reflexivity.
  - intros Hroom.
    destruct (Hok readLong 8 ltac:(lia) readLong_OK Hroom) as (elements & Hloop & Hn).
    rewrite Hloop. cbn [bind]. exists elements. auto.
  - intros Hshort.
    rewrite (Hno readLong 8 ltac:(lia) readLong_OK readLong_short Hshort). reflexivity.
Qed.

(** ** Lists and arrays of the same elements *)

Lemma u8_range (b : byte) : 0 <= u8 b < 256.
Proof.
  unfold u8. pose proof (Byte.to_N_bounded b). lia.
Qed.

Lemma leValue_range (bs : list byte) :
  0 <= leValue bs < 2 ^ (8 * byteLength bs).
Proof.
  induction bs as [ | b rest IH]; cbn [leValue].
  - change (2 ^ (8 * byteLength [])) with 1. lia.
  - rewrite byteLength_cons. pose proof (u8_range b).
    pose proof (byteLength_nonneg rest).
    replace (8 * (1 + byteLength rest)) with (8 + 8 * byteLength rest) by lia.
    rewrite Z.pow_add_r by lia. change (2^8) with 256. nia.
Qed.

Lemma toSigned_range (bits v : Z) :
  0 < bits -> 0 <= v < 2 ^ bits ->
  - 2 ^ (bits - 1) <= toSigned bits v < 2 ^ (bits - 1).
Proof.
  intros Hb Hv.
  assert (Hsplit : 2 ^ bits = 2 * 2 ^ (bits - 1)).
  { replace bits with (1 + (bits - 1)) at 1 by lia.
    rewrite Z.pow_add_r by lia. reflexivity. }
  assert (Hpos : 0 < 2 ^ (bits - 1)) by (apply Z.pow_pos_nonneg; lia).
  unfold toSigned.
  destruct (Z.ltb_spec v (2 ^ (bits - 1))); lia.
Qed.

Lemma getUint_range (n : Z) (d : list byte) (off : Z) (le : bool) (u : Z) :
  0 <= n ->
  DataView.getUint n d off le = OK u -> 0 <= u < 2 ^ (8 * n).
Proof.
  intros Hn H. unfold DataView.getUint in H.
  inv_bind H. rename a into bs. injection H as <-.
  assert (Hbs : byteLength bs <= n).
  { unfold DataView.slice in Hm.
    destruct ((0 <=? off) && (off + n <=? byteLength d)); [ | discriminate].
    injection Hm as <-. unfold byteLength.
    pose proof (firstn_le_length (Z.to_nat n) (skipn (Z.to_nat off) d)). lia. }
  assert (Hlen : byteLength (if le then bs else rev bs) <= n).
  { destruct le; [assumption | ].
    unfold byteLength in *. rewrite length_rev. assumption. }
  pose proof (leValue_range (if le then bs else rev bs)) as Hr.
  pose proof (byteLength_nonneg (if le then bs else rev bs)) as Hnn.
  assert (Hpow : 2 ^ (8 * byteLength (if le then bs else rev bs)) <= 2 ^ (8 * n))
    by (apply Z.pow_le_mono_r; lia).
  lia.
Qed.

Lemma getInt_range (n : Z) (d : list byte) (off : Z) (le : bool) (v : Z) :
  0 < n ->
  DataView.getInt n d off le = OK v ->
  - 2 ^ (8 * n - 1) <= v < 2 ^ (8 * n - 1).
Proof.
  intros Hn H. unfold DataView.getInt in H.
  inv_bind H. injection H as <-.
  apply getUint_range in Hm; [ | lia].
  apply toSigned_range; [lia | exact Hm].
Qed.

Lemma toIntN_id (bits z : Z) :
  0 < bits -> - 2 ^ (bits - 1) <= z < 2 ^ (bits - 1) -> toIntN bits z = z.
Proof.
  intros Hb Hz. unfold toIntN.
  assert (Hsplit : 2 ^ bits = 2 * 2 ^ (bits - 1)).
  { replace bits with (1 + (bits - 1)) at 1 by lia.
    rewrite Z.pow_add_r by lia. reflexivity. }
  rewrite Z.mod_small; lia.
Qed.

Lemma readInt_range (r r' : NBTReader) (v : Z) :
  readInt r = OK (v, r') -> - 2^31 <= v < 2^31.
Proof.
  intros H. apply readFixed_inv in H. destruct H as (_ & Hget & _).
  apply (getInt_range 4) in Hget; [exact Hget | lia].
Qed.

Lemma readLong_range (r r' : NBTReader) (v : Z) :
  readLong r = OK (v, r') -> - 2^63 <= v < 2^63.
Proof.
  intros H. apply readFixed_inv in H. destruct H as (_ & Hget & _).
  apply (getInt_range 8) in Hget; [exact Hget | lia].
Qed.

Lemma readArray_loop_agree (f g : NBTReader -> res (Z * NBTReader))
    (P : NBTReader -> Prop) :
  (forall r, P r -> f r = g r) ->
  (forall r v r', P r -> g r = OK (v, r') -> P r') ->
  forall n i value r,
    P r -> readArray_loop f n i value r = readArray_loop g n i value r.
Proof.
  intros Hfg Hkeep.
  induction n as [ | n' IH]; intros i value r HP; cbn [readArray_loop].
  - reflexivity.
  - rewrite (Hfg r HP).
    destruct (g r) as [[v r1] | e | ] eqn:Hg; cbn [bind]; try reflexivity.
    apply IH. eapply Hkeep; eassumption.
Qed.

(** X10.  Outside varint mode, and when the length prefix does not exceed
    the number of keys the for-in of the engine can collect, a LIST whose
    element kind is INT reads exactly as an INT_ARRAY started after the
    kind byte, and a LIST of LONG exactly as a LONG_ARRAY: same result, same
    error, same final cursor. *)
Theorem list_of_ints_reads_as_array :
  forall decode fuel r r1,
    varint r = false ->
    (forall length r2, readLength r1 = OK (length, r2) -> length <= maxKeys) ->
    (readTagType r = OK (INT, r1) ->
     readList decode (S fuel) r = readIntArray r1)
    /\ (readTagType r = OK (LONG, r1) ->
        readList decode (S fuel) r = readLongArray r1).
Proof.
  intros decode fuel r r1 Hfixed Hkeys.
  assert (Hflag : forall r2, moves r r2 -> varint r2 = false)
    by (intros r2 Hm; rewrite (moves_varint _ _ Hm); exact Hfixed).
  split; intros Htype;
    pose proof (readTagType_moving _ _ _ Htype) as H01;
    unfold readList; cbn [readTag]; unfold readList_with, readIntArray, readLongArray;
    rewrite Htype; cbn [bind getAppropriateTypedArray];
    destruct (readLength r1) as [[length r2] | e | ] eqn:Hlen; cbn [bind];
    try reflexivity;
    pose proof (readLength_moving _ _ _ Hlen) as H12;
    pose proof (Hkeys _ _ eq_refl) as Hfew;
    destruct (newTypedArray length) as [value | e | ]; cbn [bind]; try reflexivity;
    unfold forIn; (destruct (Z.gtb_spec length maxKeys); [lia | ]); cbn [bind].
  - rewrite (readArray_loop_agree _ readInt (fun r0 => varint r0 = false)).
    + reflexivity.
    + intros r0 Hv.
      rewrite (readTag_scalar_fuel decode 0 fuel) by congruence.
      cbn [readTag]. rewrite Hv. unfold tagged.
      destruct (readInt r0) as [[v r'] | e | ] eqn:Hr; cbn [bind]; try reflexivity.
      cbn [elementOf]. change (BITS_PER_ELEMENT Int32Array) with 32.
      rewrite toIntN_id; [reflexivity | lia | ].
      apply readInt_range in Hr. exact Hr.
    + intros r0 v r' Hv Hr. apply readInt_moving in Hr.
      rewrite (moves_varint _ _ Hr). exact Hv.
    + apply Hflag. eapply moves_trans; eassumption.
  - rewrite (readArray_loop_agree _ readLong (fun r0 => varint r0 = false)).
    + reflexivity.
    + intros r0 Hv.
      rewrite (readTag_scalar_fuel decode 0 fuel) by congruence.
      cbn [readTag]. rewrite Hv. unfold tagged.
      destruct (readLong r0) as [[v r'] | e | ] eqn:Hr; cbn [bind]; try reflexivity.
      cbn [elementOf]. change (BITS_PER_ELEMENT BigInt64Array) with 64.
      rewrite toIntN_id; [reflexivity | lia | ].
      apply readLong_range in Hr. exact Hr.
    + intros r0 v r' Hv Hr. apply readLong_moving in Hr.
      rewrite (moves_varint _ _ Hr). exact Hv.
    + apply Hflag. eapply moves_trans; eassumption.
Qed.

(** ** Lists without elements *)

(** X12.  A LIST whose length prefix is zero or negative reads no element:
    for a non-numeric element kind it is the empty sequence (a negative
    length is accepted), for a numeric kind it is the empty packed buffer
    when the length is zero and a RangeError when the length is negative. *)
Theorem readList_without_elements :
  forall decode fuel r type r1 length r2,
    readTagType r = OK (type, r1) ->
    readLength r1 = OK (length, r2) ->
    length <= 0 ->
    match getAppropriateTypedArray type with
    | None => readList decode (S fuel) r = OK (ArrayTag [], r2)
    | Some c =>
        (length = 0 -> readList decode (S fuel) r = OK (NumericArrayTag c [], r2))
        /\ (length < 0 -> readList decode (S fuel) r = Err RangeError)
    end.
Proof.
  intros decode fuel r type r1 length r2 Htype Hlen Hle.
  unfold readList. cbn [readTag]. unfold readList_with.
  rewrite Htype. cbn [bind]. rewrite Hlen. cbn [bind].
  destruct (getAppropriateTypedArray type) as [c | ].
  - unfold newTypedArray. split.
    + intros ->. reflexivity.
    + intros Hneg. destruct (Z.ltb_spec length 0); [reflexivity | lia].
  - replace (Z.to_nat length) with 0%nat by lia. reflexivity.
Qed.

(** ** A compound that never ends *)

Lemma readFixed_getUint_at (w : Z) (le : bool) (r : NBTReader) (bs : list byte) :
  bytesAt r bs -> byteLength bs = w ->
  readFixed w (fun d off => DataView.getUint w d off le) r
  = OK (leValue (if le then bs else rev bs), advance r w).
Proof.
  intros Hat <-. unfold readFixed, DataView.getUint.
  rewrite (allocate_bytesAt r bs Hat). cbn [bind].
  rewrite (slice_at r bs Hat). reflexivity.
Qed.

Lemma readFixed_getInt_at (w : Z) (le : bool) (r : NBTReader) (bs : list byte) :
  bytesAt r bs -> byteLength bs = w ->
  readFixed w (fun d off => DataView.getInt w d off le) r
  = OK (toSigned (8 * w) (leValue (if le then bs else rev bs)), advance r w).
Proof.
  intros Hat <-. unfold readFixed, DataView.getInt, DataView.getUint.
  rewrite (allocate_bytesAt r bs Hat). cbn [bind].
  rewrite (slice_at r bs Hat). reflexivity.
Qed.

Lemma bytesAt_inBounds (r : NBTReader) (bs : list byte) :
  bytesAt r bs -> inBounds r.
Proof.
  intros Hat. apply bytesAt_nonneg in Hat. pose proof (byteLength_nonneg bs).
  unfold inBounds. lia.
Qed.

(** X13.  A COMPOUND read never returns when its cursor stands, in
    big-endian fixed-width mode, on the seven bytes 07 00 00 FF FF FF F9 (a
    BYTE_ARRAY entry with an empty name and length -7): the entry moves the
    cursor back onto itself, so every bound on the number of entries is
    exhausted. *)
Theorem compound_entry_loops_forever :
  forall decode fuel n value r,
    littleEndian r = false ->
    varint r = false ->
    bytesAt r loopingEntry ->
    readCompound_loop decode (readTag decode fuel) n value r = OutOfFuel.
Proof.
  intros decode fuel n value r Hbig Hfixed Hat.
  change loopingEntry with ([x07] ++ [x00; x00] ++ [xff; xff; xff; xf9]) in Hat.
  pose proof Hat as Hat0.
  apply bytesAt_app in Hat. destruct Hat as [Hkind Hat].
  change (byteLength [x07]) with 1 in Hat.
  apply bytesAt_app in Hat. destruct Hat as [Hname Hlength].
  change (byteLength [x00; x00]) with 2 in Hlength.
  assert (Htype : readTagType r = OK (BYTE_ARRAY, advance r 1)).
  { unfold readTagType.
    change [x07] with ([x07] ++ []) in Hkind.
    rewrite (readUnsignedByte_at r x07 [] Hkind). reflexivity. }
  assert (Hstring : readString decode (advance r 1)
                    = OK (decode (subarray (data r) (byteOffset r + 1 + 2)
                                    (byteOffset r + 1 + 2 + 0)),
                          advance (advance (advance r 1) 2) 0)).
  { unfold readString. cbn [varint advance]. rewrite Hfixed.
    unfold readUnsignedShort, DataView.getUint16.
    rewrite (readFixed_getUint_at 2 _ (advance r 1) [x00; x00] Hname eq_refl).
    cbn [littleEndian advance]. rewrite Hbig. cbn [bind].
    change (leValue (rev [x00; x00])) with 0.
    rewrite allocate_OK.
    - reflexivity.
    - apply bytesAt_inBounds in Hlength. unfold inBounds in Hlength.
      cbn [advance byteOffset data] in *. lia. }
  assert (Hentry : readTag decode fuel BYTE_ARRAY (advance (advance (advance r 1) 2) 0)
                   = OK (NumericArrayTag Int8Array
                           (newInt8Array
                              (subarray (data r) (byteOffset r + 1 + 2 + 0 + 4)
                                 (byteOffset r + 1 + 2 + 0 + 4 + -7))),
                         r)).
  { rewrite (readTag_scalar_fuel decode 0 fuel) by congruence.
    cbn [readTag]. unfold readByteArray, readLength.
    cbn [varint advance]. rewrite Hfixed.
    assert (Hat4 : bytesAt (advance (advance (advance r 1) 2) 0) [xff; xff; xff; xf9])
      by (rewrite advance_0; exact Hlength).
    unfold readInt, DataView.getInt32.
    rewrite (readFixed_getInt_at 4 _ _ [xff; xff; xff; xf9] Hat4 eq_refl).
    cbn [littleEndian advance]. rewrite Hbig. cbn [bind].
    change (toSigned (8 * 4) (leValue (rev [xff; xff; xff; xf9]))) with (-7).
    rewrite allocate_OK.
    - cbn [bind]. do 2 f_equal.
      rewrite !advance_advance.
      replace (1 + 2 + 0 + 4 + -7) with 0 by lia. apply advance_0.
    - apply bytesAt_inBounds in Hat0. unfold inBounds in Hat0.
      cbn [advance byteOffset data]. lia. }
  revert value.
  induction n as [ | n' IH]; intros value; [reflexivity | ].
  cbn [readCompound_loop].
  rewrite Htype. cbn [bind]. rewrite Hstring. cbn [bind]. rewrite Hentry. cbn [bind].
  apply IH.
Qed.

(** ** The header peeks *)

(** X16.  The gzip peek raises RangeError on a buffer shorter than two bytes
    and otherwise tells whether the first two bytes are 1F 8B; the zlib peek
    raises RangeError on the empty buffer and otherwise tells whether the
    first byte is 78; the Bedrock level peek never raises. All three look at
    the start of the buffer, whatever the cursor. *)
Theorem header_peeks :
  forall r endian,
    (byteLength (data r) < 2 -> hasGzipHeader r = Err RangeError)
    /\ (forall b0 b1 rest,
          data r = b0 :: b1 :: rest ->
          hasGzipHeader r = OK ((u8 b0 =? 0x1F) && (u8 b1 =? 0x8B)))
    /\ (data r = [] -> hasZlibHeader r = Err RangeError)
    /\ (forall b0 rest,
          data r = b0 :: rest -> hasZlibHeader r = OK (u8 b0 =? 0x78))
    /\ (exists b, hasBedrockLevelHeader r endian = OK b).
Proof.
  intros r endian. split; [ | split; [ | split; [ | split]]].
  - intros Hshort. unfold hasGzipHeader, DataView.getUint16, DataView.getUint,
      DataView.slice.
    destruct (Z.leb_spec (0 + 2) (byteLength (data r))); [lia | ].
    reflexivity.
  - intros b0 b1 rest Hd. unfold hasGzipHeader, DataView.getUint16, DataView.getUint,
      DataView.slice.
    rewrite Hd.
    assert (Hroom : (0 + 2 <=? byteLength (b0 :: b1 :: rest)) = true).
    { apply Z.leb_le. rewrite !byteLength_cons. pose proof (byteLength_nonneg rest). lia. }
    rewrite Hroom.
    change (Z.to_nat 2) with 2%nat. change (Z.to_nat 0) with 0%nat.
    change (0 <=? 0) with true.
    cbn [andb skipn firstn rev app leValue bind].
    f_equal. pose proof (u8_range b0). pose proof (u8_range b1).
    destruct (Z.eqb_spec (u8 b1 + 256 * (u8 b0 + 256 * 0)) 8075);
      destruct (Z.eqb_spec (u8 b0) 31); destruct (Z.eqb_spec (u8 b1) 139);
      cbn [andb]; try reflexivity; lia.
  - intros Hd. unfold hasZlibHeader. rewrite Hd. reflexivity.
  - intros b0 rest Hd. unfold hasZlibHeader, DataView.getUint8, DataView.getUint,
      DataView.slice.
    rewrite Hd.
    assert (Hroom : (0 + 1 <=? byteLength (b0 :: rest)) = true).
    { apply Z.leb_le. rewrite !byteLength_cons. pose proof (byteLength_nonneg rest). lia. }
    rewrite Hroom.
    change (Z.to_nat 1) with 1%nat. change (Z.to_nat 0) with 0%nat.
    change (0 <=? 0) with true.
    cbn [andb skipn firstn rev app leValue bind].
    rewrite Z.mul_0_r, Z.add_0_r. reflexivity.
  - unfold hasBedrockLevelHeader.
    destruct (negb (Endian_eqb endian little)); cbn [orb]; [eexists; reflexivity | ].
    destruct (Z.ltb_spec (byteLength (data r)) 8) as [ | Hge]; [eexists; reflexivity | ].
    unfold DataView.getUint32, DataView.getUint.
    rewrite slice_OK by lia. cbn [bind]. eexists. reflexivity.
Qed.

Lemma hasGzipHeader_short (r : NBTReader) :
  byteLength (data r) < 2 -> hasGzipHeader r = Err RangeError.
Proof.
  intros Hshort. unfold hasGzipHeader, DataView.getUint16, DataView.getUint,
    DataView.slice.
  destruct (Z.leb_spec (0 + 2) (byteLength (data r))); [lia | ].
  reflexivity.
Qed.

(** X17.  With the compression option omitted, read fails with RangeError on
    every input shorter than two bytes, whatever the other options are. *)
Theorem read_short_input_without_compression_hint :
  forall decode decompress fuel input rn en bl st,
    byteLength input < 2 ->
    read decode decompress fuel input
      {| rootName_opt := rn; endian_opt := en; compression_opt := None;
         bedrockLevel_opt := bl; strict_opt := st |}
    = Err RangeError.
Proof.
  intros decode decompress fuel input rn en bl st Hshort.
  unfold read. cbn [compression_opt endian_opt].
  rewrite hasGzipHeader_short; [reflexivity | ].
  destruct en as [[] | ]; exact Hshort.
Qed.

(** ** The opening byte *)

Lemma readerFor_bytesAt (input : list byte) (endian : option Endian) :
  bytesAt (readerFor input endian) input.
Proof.
  exists [], []. split; [ | reflexivity].
  cbn [readerFor newReader data app]. now rewrite app_nil_r.
Qed.

Lemma readRoot_opening_byte :
  forall decode decompress fuel r o b rest,
    compression o = None -> bedrockLevel o = false ->
    bytesAt r (b :: rest) ->
    readRoot decode decompress fuel r o
    = match isTagType (u8 b) with
      | None => Err InvalidTagError
      | Some LIST | Some COMPOUND => readRoot decode decompress fuel r o
      | Some _ => Err InvalidOpeningTagError
      end.
Proof.
  intros decode decompress fuel r o b rest Hc Hb Hat.
  destruct (isTagType (u8 b)) as [t | ] eqn:Ht.
  - destruct t; try reflexivity;
      unfold readRoot; rewrite Hc, Hb; cbn [bind];
      unfold readTagType; rewrite (readUnsignedByte_at r b rest Hat); cbn [bind];
      rewrite Ht; reflexivity.
  - unfold readRoot; rewrite Hc, Hb; cbn [bind];
      unfold readTagType; rewrite (readUnsignedByte_at r b rest Hat); cbn [bind];
      rewrite Ht; reflexivity.
Qed.

Lemma read_all_candidates_fail :
  forall decode decompress fuel input rn en bl st e,
    (forall endian rootName,
       read_resolved decode decompress fuel input
         {| rootName_opt := rn; endian_opt := en; compression_opt := Some None;
            bedrockLevel_opt := Some bl; strict_opt := st |}
         None endian rootName = Err e) ->
    read decode decompress fuel input
      {| rootName_opt := rn; endian_opt := en; compression_opt := Some None;
         bedrockLevel_opt := Some bl; strict_opt := st |}
    = Err e.
Proof.
  intros decode decompress fuel input rn en bl st e Hall.
  unfold read, read_endian, read_rootName.
  cbn [compression_opt endian_opt rootName_opt].
  destruct en as [endian | ]; destruct rn as [rootName | ];
    rewrite ?Hall; cbn [tryCatch]; rewrite ?Hall; cbn [tryCatch];
    rewrite ?Hall; cbn [tryCatch]; reflexivity.
Qed.

(** X18.  With compression null and bedrockLevel false, the first byte alone
    can fail the whole read, whatever is given or omitted for endian,
    rootName and strict: a byte above 12 gives the invalid-tag error, a
    valid kind other than LIST and COMPOUND gives the invalid-opening-tag
    error. *)
Theorem read_opening_byte :
  forall decode decompress fuel b rest rn en st,
    (isTagType (u8 b) = None ->
     read decode decompress fuel (b :: rest)
       {| rootName_opt := rn; endian_opt := en; compression_opt := Some None;
          bedrockLevel_opt := Some false; strict_opt := st |}
     = Err InvalidTagError)
    /\ (forall t,
          isTagType (u8 b) = Some t -> t <> LIST -> t <> COMPOUND ->
          read decode decompress fuel (b :: rest)
            {| rootName_opt := rn; endian_opt := en; compression_opt := Some None;
               bedrockLevel_opt := Some false; strict_opt := st |}
          = Err InvalidOpeningTagError).
Proof.
  intros decode decompress fuel b rest rn en st. split.
  - intros Hnone. apply read_all_candidates_fail. intros endian rootName.
    unfold read_resolved. cbn [bind bedrockLevel_opt].
    rewrite (readRoot_opening_byte _ _ _ _ _ b rest); try reflexivity.
    + now rewrite Hnone.
    + apply readerFor_bytesAt.
  - intros t Hsome Hl Hc. apply read_all_candidates_fail. intros endian rootName.
    unfold read_resolved. cbn [bind bedrockLevel_opt].
    rewrite (readRoot_opening_byte _ _ _ _ _ b rest); try reflexivity.
    + rewrite Hsome. destruct t; try reflexivity; congruence.
    + apply readerFor_bytesAt.
Qed.

(** ** The root name hint *)

Lemma readRoot_reports :
  forall decode decompress fuel r o result,
    readRoot decode decompress fuel r o = OK result ->
    readsRootName (rootName o)
    = match nbt_rootName result with Some _ => true | None => false end
    /\ rootNameMismatch (rootName o) (nbt_rootName result) = false
    /\ nbt_endian result = endian o
    /\ nbt_compression result = compression o
    /\ nbt_bedrockLevel result = bedrockLevel o.
Proof.
  intros decode decompress fuel r o result H.
  unfold readRoot in H.
  inv_bind H. inv_bind H. inv_bind H.
  destruct a1 as [type r3].
  destruct type; try discriminate.
  all: inv_bind H; destruct a1 as [rootNameV r4];
    destruct (rootNameMismatch (rootName o) rootNameV) eqn:Hmis; [discriminate | ];
    inv_bind H; destruct a1 as [root r5];
    destruct (strict o && (byteLength (data r5) >? byteOffset r5)); [discriminate | ];
    injection H as <-; cbn [nbt_rootName nbt_endian nbt_compression nbt_bedrockLevel];
    (split; [ | auto]);
    destruct (readsRootName (rootName o));
    [ inv_bind Hm2; destruct a1; injection Hm2 as <- _; reflexivity
    | injection Hm2 as <- _; reflexivity ].
Qed.

Lemma readRoot_rootName_hint :
  forall decode decompress fuel r o result hint,
    readRoot decode decompress fuel r o = OK result ->
    readsRootName hint = readsRootName (rootName o) ->
    readRoot decode decompress fuel r (withRootName o hint)
    = if rootNameMismatch hint (nbt_rootName result)
      then Err UnexpectedRootNameError
      else OK result.
Proof.
  intros decode decompress fuel r o result hint H Hreads.
  unfold readRoot in *.
  cbn [withRootName compression bedrockLevel rootName endian strict].
  rewrite Hreads.
  inv_bind H. rewrite Hm. cbn [bind].
  inv_bind H. rewrite Hm0. cbn [bind].
  inv_bind H. rewrite Hm1. cbn [bind].
  destruct a1 as [type r3].
  destruct type; try discriminate.
  all: inv_bind H; rewrite Hm2; cbn [bind]; destruct a1 as [rootNameV r4];
    destruct (rootNameMismatch (rootName o) rootNameV); [discriminate | ];
    inv_bind H; rewrite Hm3; cbn [bind]; destruct a1 as [root r5];
    destruct (strict o && (byteLength (data r5) >? byteOffset r5)); [discriminate | ];
    injection H as <-; cbn [nbt_rootName];
    destruct (rootNameMismatch hint rootNameV); reflexivity.
Qed.

(** X15.  If a decoding attempt that reads the root name (rootName: true)
    succeeds with name s, the same attempt with an expected name e yields
    the same result when e equals s and fails with the unexpected-root-name
    error otherwise. *)
Theorem readRoot_exact_root_name :
  forall decode decompress fuel r o result expected,
    rootName o = RootNameFlag true ->
    readRoot decode decompress fuel r o = OK result ->
    exists found,
      nbt_rootName result = Some found
      /\ readRoot decode decompress fuel r (withRootName o (RootNameIs (Some expected)))
         = if String.eqb found expected
           then OK result
           else Err UnexpectedRootNameError.
Proof.
  intros decode decompress fuel r o result expected Hflag H.
  pose proof (readRoot_reports _ _ _ _ _ _ H) as [Hreads _].
  rewrite Hflag in Hreads. cbn [readsRootName] in Hreads.
  destruct (nbt_rootName result) as [found | ] eqn:Hname; [ | discriminate].
  exists found. split; [reflexivity | ].
  rewrite (readRoot_rootName_hint _ _ _ _ _ result _ H)
    by (rewrite Hflag; reflexivity).
  rewrite Hname. cbn [rootNameMismatch].
  destruct (String.eqb found expected); reflexivity.
Qed.

(** ** Reading again with the reported framing *)

Lemma tryCatch_OK {A : Type} (m : res A) (h : error -> res A) (a : A) :
  tryCatch m h = OK a -> m = OK a \/ exists e, m = Err e /\ h e = OK a.
Proof.
  destruct m as [x | e | ]; cbn [tryCatch]; intros H.
  - now left.
  - right. exists e. auto.
  - discriminate.
Qed.

Lemma read_resolved_reports :
  forall decode decompress fuel input options c e rn result,
    read_resolved decode decompress fuel input options c e rn = OK result ->
    nbt_endian result = e /\ nbt_compression result = c
    /\ read_resolved decode decompress fuel input
         (resolvedHints result (strict_opt options)) c e
         (RootNameIs (nbt_rootName result))
       = OK result.
Proof.
  intros decode decompress fuel input options c e rn result H.
  unfold read_resolved in *.
  inv_bind H. rewrite Hm. cbn [bind].
  inv_bind H. rename a0 into b.
  pose proof (readRoot_reports _ _ _ _ _ _ H) as (Hreads & Hmis & He & Hc & Hb).
  cbn [rootName endian compression bedrockLevel] in Hreads, Hmis, He, Hc, Hb.
  split; [exact He | split; [exact Hc | ]].
  cbn [resolvedHints bedrockLevel_opt bind]. rewrite Hb.
  change (strictOf (resolvedHints result (strict_opt options))) with (strictOf options).
  change {| rootName := RootNameIs (nbt_rootName result); endian := e;
            compression := c; bedrockLevel := b; strict := strictOf options |}
    with (withRootName
            {| rootName := rn; endian := e; compression := c;
               bedrockLevel := b; strict := strictOf options |}
            (RootNameIs (nbt_rootName result))).
  rewrite (readRoot_rootName_hint _ _ _ _ _ result _ H).
  - destruct (nbt_rootName result) as [s | ]; cbn [rootNameMismatch].
    + now rewrite String.eqb_refl.
    + reflexivity.
  - cbn [rootName]. rewrite Hreads.
    destruct (nbt_rootName result); reflexivity.
Qed.

Lemma read_rootName_resolves :
  forall decode decompress fuel input options c e result,
    read_rootName decode decompress fuel input options c e = OK result ->
    exists rn, read_resolved decode decompress fuel input options c e rn = OK result.
Proof.
  intros decode decompress fuel input options c e result H.
  unfold read_rootName in H.
  destruct (rootName_opt options) as [rn | ].
  - now exists rn.
  - apply tryCatch_OK in H. destruct H as [H | [err [_ H]]].
    + now exists (RootNameFlag true).
    + apply tryCatch_OK in H. destruct H as [H | [err' [_ H]]].
      * now exists (RootNameFlag false).
      * discriminate.
Qed.

Lemma read_endian_resolves :
  forall decode decompress fuel input options c result,
    read_endian decode decompress fuel input options c = OK result ->
    exists e, read_rootName decode decompress fuel input options c e = OK result.
Proof.
  intros decode decompress fuel input options c result H.
  unfold read_endian in H.
  destruct (endian_opt options) as [e | ].
  - now exists e.
  - apply tryCatch_OK in H. destruct H as [H | [err [_ H]]]; [now exists big | ].
    apply tryCatch_OK in H. destruct H as [H | [err' [_ H]]]; [now exists little | ].
    apply tryCatch_OK in H. destruct H as [H | [err'' [_ H]]];
      [now exists little_varint | discriminate].
Qed.

Lemma read_resolves :
  forall decode decompress fuel input options result,
    read decode decompress fuel input options = OK result ->
    exists c, read_endian decode decompress fuel input options c = OK result.
Proof.
  intros decode decompress fuel input options result H.
  unfold read in H.
  destruct (compression_opt options) as [c | ].
  - now exists c.
  - cbv zeta in H. inv_bind H.
    destruct a; [now exists (Some gzip) | ].
    inv_bind H.
    destruct a; [now exists (Some deflate) | ].
    apply tryCatch_OK in H. destruct H as [H | [err [_ H]]]; [now exists None | ].
    apply tryCatch_OK in H. destruct H as [H | [err' [_ H]]];
      [now exists (Some deflate_raw) | discriminate].
Qed.

(** X20.  If read succeeds, reading the same input again with the root name,
    byte order, compression and Bedrock level flag that the result reports
    (and the same strict option) succeeds with the same result. *)
Theorem read_again_with_reported_framing :
  forall decode decompress fuel input options result,
    read decode decompress fuel input options = OK result ->
    read decode decompress fuel input (resolvedHints result (strict_opt options))
    = OK result.
Proof.
  intros decode decompress fuel input options result H.
  apply read_resolves in H. destruct H as [c H].
  apply read_endian_resolves in H. destruct H as [e H].
  apply read_rootName_resolves in H. destruct H as [rn H].
  apply read_resolved_reports in H. destruct H as (He & Hc & H).
  unfold read, read_endian, read_rootName.
  cbn [resolvedHints compression_opt endian_opt rootName_opt].
  rewrite He, Hc. exact H.
Qed.

(** ** The command line arguments *)

Lemma afterPrefix_Some (p s v : string) :
  CLI.afterPrefix p s = Some v -> s = (p ++ v)%string.
Proof.
  revert s. induction p as [ | a p IH]; intros s H.
  - cbn in H. injection H as <-. reflexivity.
  - destruct s as [ | b s]; [discriminate | ].
    cbn [CLI.afterPrefix] in H.
    destruct (Ascii.eqb a b) eqn:Hab; [ | discriminate].
    apply Ascii.eqb_eq in Hab. subst b.
    cbn [String.append]. f_equal. now apply IH.
Qed.

Lemma test_Prefix (literal s : string) :
  CLI.test (CLI.Prefix literal) s = true -> exists v, s = (literal ++ v)%string.
Proof.
  cbn [CLI.test]. destruct (CLI.afterPrefix literal s) as [v | ] eqn:H; [ | discriminate].
  intros _. exists v. now apply afterPrefix_Some.
Qed.

Lemma test_Exact (literal s : string) :
  CLI.test (CLI.Exact literal) s = true -> s = literal.
Proof.
  cbn [CLI.test]. apply String.eqb_eq.
Qed.

Lemma patterns_exclusive (p q : CLI.Pattern) (s : string) :
  In p CLI.PATTERNS -> In q CLI.PATTERNS ->
  CLI.test p s = true -> CLI.test q s = true -> p = q.
Proof.
  intros Hp Hq Htp Htq.
  cbn [In CLI.PATTERNS] in Hp.
  destruct Hp as [<- | [<- | [<- | [<- | [<- | [<- | [<- | [<- | []]]]]]]]];
    unfold CLI.NBT_PATTERN, CLI.SNBT_PATTERN, CLI.JSON_PATTERN, CLI.ROOT_NAME_PATTERN,
      CLI.ENDIAN_PATTERN, CLI.COMPRESSION_PATTERN, CLI.BEDROCK_LEVEL_PATTERN,
      CLI.SPACE_PATTERN in Htp;
    [ apply test_Exact in Htp; subst
    | apply test_Exact in Htp; subst
    | apply test_Exact in Htp; subst
    | apply test_Prefix in Htp; destruct Htp as [v ->]
    | apply test_Prefix in Htp; destruct Htp as [v ->]
    | apply test_Prefix in Htp; destruct Htp as [v ->]
    | cbn [CLI.test] in Htp; apply orb_true_iff in Htp; destruct Htp as [Htp | Htp];
      [ apply String.eqb_eq in Htp; subst
      | apply (test_Prefix "--bedrock-level=") in Htp; destruct Htp as [v ->] ]
    | apply test_Prefix in Htp; destruct Htp as [v ->] ];
    cbn [In CLI.PATTERNS] in Hq;
    destruct Hq as [<- | [<- | [<- | [<- | [<- | [<- | [<- | [<- | []]]]]]]]];
    try reflexivity; cbn in Htq; discriminate Htq.
Qed.

Lemma find_app {A : Type} (f : A -> bool) (l l' : list A) :
  find f (l ++ l') = match find f l with Some a => Some a | None => find f l' end.
Proof.
  induction l as [ | x l IH]; cbn [app find]; [reflexivity | ].
  destruct (f x); [reflexivity | exact IH].
Qed.

Lemma sameOption_inv (extra : string) (args : list string) :
  existsb (CLI.sameOption extra) args = true ->
  exists arg q,
    In arg args /\ In q CLI.PATTERNS
    /\ CLI.test q extra = true /\ CLI.test q arg = true.
Proof.
  intros H. apply existsb_exists in H. destruct H as [arg [Hin Hsame]].
  unfold CLI.sameOption in Hsame.
  apply existsb_exists in Hsame. destruct Hsame as [q [Hq Hboth]].
  apply andb_true_iff in Hboth. destruct Hboth as [H1 H2].
  exists arg, q. auto.
Qed.

Lemma repeated_find (p : CLI.Pattern) (extra : string) (args : list string) :
  In p CLI.PATTERNS ->
  existsb (CLI.sameOption extra) args = true ->
  find (CLI.test p) (args ++ [extra]) = find (CLI.test p) args.
Proof.
  intros Hp Hsame. apply sameOption_inv in Hsame.
  destruct Hsame as (arg & q & Hin & Hq & Hextra & Harg).
  rewrite find_app.
  destruct (find (CLI.test p) args) as [a | ] eqn:Hfind; [reflexivity | ].
  cbn [find]. destruct (CLI.test p extra) eqn:Hpe; [ | reflexivity].
  assert (p = q) by (eapply patterns_exclusive; eassumption). subst q.
  pose proof (find_none _ _ Hfind arg Hin). congruence.
Qed.

Lemma repeated_existsb (p : CLI.Pattern) (extra : string) (args : list string) :
  In p CLI.PATTERNS ->
  existsb (CLI.sameOption extra) args = true ->
  existsb (CLI.test p) (args ++ [extra]) = existsb (CLI.test p) args.
Proof.
  intros Hp Hsame. apply sameOption_inv in Hsame.
  destruct Hsame as (arg & q & Hin & Hq & Hextra & Harg).
  rewrite existsb_app. cbn [existsb]. rewrite orb_false_r.
  destruct (CLI.test p extra) eqn:Hpe; [ | apply orb_false_r].
  assert (p = q) by (eapply patterns_exclusive; eassumption). subst q.
  rewrite orb_true_r. symmetry. apply existsb_exists. exists arg. auto.
Qed.

Lemma expected_iff (arg : string) :
  CLI.expected arg = existsb (fun p => CLI.test p arg) CLI.PATTERNS.
Proof.
  unfold CLI.expected. cbn [existsb CLI.PATTERNS].
  rewrite orb_false_r, !orb_assoc. reflexivity.
Qed.

Lemma checkArguments_app (args : list string) (extra : string) :
  CLI.checkArguments args = CLI.Ok tt ->
  CLI.expected extra = true ->
  CLI.checkArguments (args ++ [extra]) = CLI.Ok tt.
Proof.
  intros H Hextra. induction args as [ | arg args IH]; cbn [app CLI.checkArguments] in *.
  - now rewrite Hextra.
  - destruct (CLI.expected arg); [now apply IH | discriminate].
Qed.

Lemma checkArguments_unexpected (args : list string) (arg : string) :
  find (fun a => negb (CLI.expected a)) args = Some arg ->
  CLI.checkArguments args = CLI.Throw (CLI.UnexpectedArgument arg).
Proof.
  induction args as [ | a args IH]; cbn [find CLI.checkArguments]; [discriminate | ].
  destruct (CLI.expected a); cbn [negb].
  - exact IH.
  - intros H. injection H as <-. reflexivity.
Qed.

(** X21.  If some argument after the input file matches none of the eight
    option patterns, the command line is rejected with Unexpected argument
    naming the first such argument, before any option value is validated;
    when the input is piped (stdin is not a terminal) the first argument is
    checked as an option too. *)
Theorem CLI_unexpected_argument :
  forall args arg,
    find (fun a => negb (CLI.expected a)) args = Some arg ->
    CLI.exports false args = CLI.Throw (CLI.UnexpectedArgument arg)
    /\ forall path,
         CLI.exports true (path :: args) = CLI.Throw (CLI.UnexpectedArgument arg).
Proof.
  intros args arg H. apply checkArguments_unexpected in H.
  split; [ | intros path]; unfold CLI.exports; cbn [CLI.file negb CLI.andThen];
    rewrite H; reflexivity.
Qed.

Lemma andThen_Ok {A B : Type} (m : CLI.outcome A) (k : A -> CLI.outcome B) (b : B) :
  CLI.andThen m k = CLI.Ok b -> exists a, m = CLI.Ok a /\ k a = CLI.Ok b.
Proof.
  destruct m as [a | e]; cbn [CLI.andThen]; intros H; [ | discriminate].
  exists a. auto.
Qed.

Lemma file_app (isTTY : bool) (argv : list string) (extra : string) input args :
  CLI.file isTTY argv = CLI.Ok (input, args) ->
  args = CLI.optionArguments isTTY argv
  /\ CLI.file isTTY (argv ++ [extra]) = CLI.Ok (input, args ++ [extra]).
Proof.
  unfold CLI.file, CLI.optionArguments. destruct isTTY; cbn [negb].
  - destruct argv as [ | first rest]; [discriminate | ].
    intros H. injection H as <- <-. cbn [tl app]. auto.
  - intros H. injection H as <- <-. auto.
Qed.

(** X22.  Appending an argument that sets an option already set by an
    earlier argument changes nothing: an accepted command line stays
    accepted with the same file, switches and format, even when the value of
    the appended argument is invalid. *)
Theorem CLI_repeated_option_ignored :
  forall isTTY argv extra result,
    CLI.exports isTTY argv = CLI.Ok result ->
    existsb (CLI.sameOption extra) (CLI.optionArguments isTTY argv) = true ->
    CLI.exports isTTY (argv ++ [extra]) = CLI.Ok result.
Proof.
  intros isTTY argv extra result H Hsame.
  unfold CLI.exports in *.
  apply andThen_Ok in H. destruct H as [[input args] [Hfile H]].
  destruct (file_app isTTY argv extra input args Hfile) as [Hargs Hfile'].
  rewrite Hfile'. cbn [CLI.andThen]. rewrite <- Hargs in Hsame.
  apply andThen_Ok in H. destruct H as [[] [Hcheck H]].
  assert (Hexp : CLI.expected extra = true).
  { apply sameOption_inv in Hsame.
    destruct Hsame as (arg & q & _ & Hq & Hextra & _).
    rewrite expected_iff. apply existsb_exists. exists q. auto. }
  rewrite (checkArguments_app args extra Hcheck Hexp). cbn [CLI.andThen].
  unfold CLI.endian, CLI.compression, CLI.bedrockLevel, CLI.rootName, CLI.nbt,
    CLI.snbt, CLI.json, CLI.valueOf in *.
  rewrite !repeated_find, !repeated_existsb by (assumption || (cbn; tauto)).
  exact H.
Qed.

(** ** The error of a failed detection *)

Lemma tryCatch_rethrows {A : Type} (m : res A) (h : error -> res A) (e : error) :
  (forall e0 e1, h e0 = Err e1 -> e1 = e0) ->
  tryCatch m h = Err e -> m = Err e.
Proof.
  intros Hh H. destruct m as [a | e0 | ]; cbn [tryCatch] in H; try discriminate.
  apply Hh in H. congruence.
Qed.

Lemma rethrow_last {A : Type} (m : res A) (e0 e1 : error) :
  tryCatch m (fun _ => Err e0) = Err e1 -> e1 = e0.
Proof.
  destruct m as [a | e | ]; cbn [tryCatch]; intros H; try discriminate.
  congruence.
Qed.

(** X19.  When the compression option is given and read fails, the error it
    reports is the error of its first attempt: the given or else big byte
    order, the given root name option or else rootName true. Errors of later
    attempts are discarded. *)
Theorem read_failure_is_first_attempt :
  forall decode decompress fuel input options c e,
    compression_opt options = Some c ->
    read decode decompress fuel input options = Err e ->
    read_resolved decode decompress fuel input options c
      (match endian_opt options with Some endian => endian | None => big end)
      (match rootName_opt options with
       | Some rootName => rootName
       | None => RootNameFlag true
       end)
    = Err e.
Proof.
  intros decode decompress fuel input options c e Hc H.
  unfold read in H. rewrite Hc in H.
  assert (Hname : forall endian,
             read_rootName decode decompress fuel input options c endian = Err e ->
             read_resolved decode decompress fuel input options c endian
               (match rootName_opt options with
                | Some rootName => rootName
                | None => RootNameFlag true
                end) = Err e).
  { intros endian Hr. unfold read_rootName in Hr.
    destruct (rootName_opt options) as [rootName | ]; [exact Hr | ].
    apply tryCatch_rethrows in Hr; [exact Hr | ].
    intros e0 e1 H1. apply rethrow_last in H1. exact H1. }
  unfold read_endian in H.
  destruct (endian_opt options) as [endian | ]; [now apply Hname | ].
  apply Hname. apply tryCatch_rethrows in H; [exact H | ].
  intros e0 e1 H1.
  destruct (read_rootName decode decompress fuel input options c little)
    as [a | e2 | ]; cbn [tryCatch] in H1; try discriminate.
  apply rethrow_last in H1. exact H1.
Qed.

(** ** A list of bytes and a byte array *)

Lemma bytesAt_room (r : NBTReader) (n : Z) :
  0 <= byteOffset r -> 0 <= n -> byteOffset r + n <= byteLength (data r) ->
  exists bs, bytesAt r bs /\ byteLength bs = n.
Proof.
  intros Hoff Hn Hroom.
  exists (firstn (Z.to_nat n) (skipn (Z.to_nat (byteOffset r)) (data r))).
  unfold byteLength in *.
  split.
  - exists (firstn (Z.to_nat (byteOffset r)) (data r)),
           (skipn (Z.to_nat n) (skipn (Z.to_nat (byteOffset r)) (data r))).
    split.
    + now rewrite !firstn_skipn.
    + unfold byteLength. rewrite length_firstn. lia.
  - rewrite length_firstn, length_skipn. lia.
Qed.

Lemma storeAt_app (done rest : list Z) (x entry : Z) :
  storeAt (done ++ x :: rest) (List.length done) entry = done ++ entry :: rest.
Proof.
  induction done as [ | d done IH]; [reflexivity | ].
  cbn [app List.length storeAt]. now rewrite IH.
Qed.

Lemma readArray_loop_bytes (decode : list byte -> string) (fuel : nat) :
  forall (content : list byte) done r,
    bytesAt r content ->
    readArray_loop
      (fun r => '(entry, r') <- readTag decode fuel BYTE r ;;
                OK (elementOf Int8Array entry, r'))
      (List.length content) (List.length done)
      (done ++ repeat 0 (List.length content)) r
    = OK (done ++ newInt8Array content, advance r (byteLength content)).
Proof.
  induction content as [ | b rest IH]; intros done r Hat.
  - cbn [List.length readArray_loop repeat newInt8Array map].
    change (byteLength []) with 0. now rewrite advance_0.
  - cbn [List.length readArray_loop repeat].
    destruct (readByte_at r b rest Hat) as [Hread Hat'].
    assert (Hentry : readTag decode fuel BYTE r = OK (NumberTag (toSigned 8 (u8 b)), advance r 1)).
    { destruct fuel; cbn [readTag]; unfold tagged; rewrite Hread; reflexivity. }
    rewrite Hentry. cbn [bind elementOf BITS_PER_ELEMENT].
    rewrite toIntN_id.
    + rewrite storeAt_app.
      replace (done ++ toSigned 8 (u8 b) :: repeat 0 (List.length rest))
        with ((done ++ [toSigned 8 (u8 b)]) ++ repeat 0 (List.length rest))
        by (now rewrite <- app_assoc).
      replace (S (List.length done)) with (List.length (done ++ [toSigned 8 (u8 b)]))
        by (rewrite length_app; cbn [List.length]; lia).
      rewrite (IH _ _ Hat'), advance_advance, <- app_assoc.
      cbn [newInt8Array map app]. rewrite byteLength_cons.
      do 3 f_equal.
    + lia.
    + apply (toSigned_range 8); [lia | ]. pose proof (u8_range b).
      change (2 ^ 8) with 256. lia.
Qed.

(** X11.  A LIST whose element kind is BYTE and whose length prefix is not
    negative reads exactly as a BYTE_ARRAY started after the kind byte: same
    signed bytes, same error when the buffer is too short, same final
    cursor. *)
Theorem list_of_bytes_reads_as_byte_array :
  forall decode fuel r r1 length r2,
    readTagType r = OK (BYTE, r1) ->
    readLength r1 = OK (length, r2) ->
    0 <= length ->
    readTag decode (S fuel) LIST r = readByteArray r1.
Proof.
  intros decode fuel r r1 length r2 Htype Hlen Hpos.
  cbn [readTag]. unfold readList_with, readByteArray.
  rewrite Htype. cbn [bind]. rewrite Hlen. cbn [bind getAppropriateTypedArray].
  unfold newTypedArray.
  destruct (Z.ltb_spec length 0) as [ | _]; [lia | ]. cbn [bind].
  pose proof (readLength_nonneg _ _ _ Hlen) as Hoff.
  destruct (Z.le_gt_cases (byteOffset r2 + length) (byteLength (data r2)))
    as [Hroom | Hshort].
  - destruct (bytesAt_room r2 length Hoff Hpos Hroom) as [payload [Hat Hlength]].
    assert (Hn : Z.to_nat length = List.length payload).
    { rewrite <- Hlength. unfold byteLength. now rewrite Nat2Z.id. }
    rewrite Hn.
    pose proof (readArray_loop_bytes decode fuel payload [] r2 Hat) as Hloop.
    cbn [app List.length] in Hloop. rewrite Hloop. cbn [bind].
    rewrite <- Hlength, (allocate_bytesAt r2 payload Hat). cbn [bind].
    rewrite (subarray_at r2 payload Hat). reflexivity.
  - rewrite allocate_short by lia. cbn [bind].
    assert (Hloop : forall value,
               readArray_loop
                 (fun r => '(entry, r') <- readTag decode fuel BYTE r ;;
                           OK (elementOf Int8Array entry, r'))
                 (Z.to_nat length) 0 value r2 = Err UnexpectedBufferEndError).
    { intros value. apply (readArray_loop_short _ 1).
      - lia.
      - intros r0 H0 H1.
        destruct (readFixed_getInt_OK 1 (fun _ => false) r0 H0 H1) as [v Hv].
        eexists. destruct fuel; cbn [readTag]; unfold tagged, readByte, DataView.getInt8;
          cbv beta in Hv; rewrite Hv; reflexivity.
      - intros r0 H0.
        destruct fuel; cbn [readTag]; unfold tagged, readByte, DataView.getInt8;
          rewrite (readFixed_getInt_short 1 false r0 H0); reflexivity.
      - exact Hoff.
      - rewrite Z2Nat.id by lia. lia.
      - eapply readLength_landing. exact Hlen. }
    rewrite Hloop. reflexivity.
Qed.

(** ** The shape of a list *)

Lemma toInt32_lxor (a b : Z) :
  Z.lxor (JS.toInt32 a) (JS.toInt32 b) = JS.toInt32 (Z.lxor a b).
Proof.
  apply Z.bits_inj'. intros i Hi.
  rewrite Z.lxor_spec, !toInt32_testbit, Z.lxor_spec by exact Hi. reflexivity.
Qed.

Lemma readVarIntZigZag_range (r r' : NBTReader) (v : Z) :
  readVarIntZigZag r = OK (v, r') -> - 2^31 <= v < 2^31.
Proof.
  unfold readVarIntZigZag. intros H. inv_bind H. destruct a as [result r1].
  injection H as <- _.
  assert (Hxor : forall a b, - 2^31 <= JS.xor a b < 2^31)
    by (intros a b; unfold JS.xor; rewrite toInt32_lxor; apply toInt32_range).
  apply Hxor.
Qed.

Lemma readByte_range (r r' : NBTReader) (v : Z) :
  readByte r = OK (v, r') -> - 2^7 <= v < 2^7.
Proof.
  intros H. apply readFixed_inv in H. destruct H as (_ & Hget & _).
  apply (getInt_range 1) in Hget; [exact Hget | lia].
Qed.

Lemma readShort_range (r r' : NBTReader) (v : Z) :
  readShort r = OK (v, r') -> - 2^15 <= v < 2^15.
Proof.
  intros H. apply readFixed_inv in H. destruct H as (_ & Hget & _).
  apply (getInt_range 2) in Hget; [exact Hget | lia].
Qed.

Lemma toIntN_wraps (bits z : Z) :
  0 < bits ->
  - 2 ^ (bits - 1) <= toIntN bits z < 2 ^ (bits - 1)
  /\ (toIntN bits z - z) mod 2 ^ bits = 0.
Proof.
  intros Hb. unfold toIntN.
  assert (Hsplit : 2 ^ bits = 2 * 2 ^ (bits - 1)).
  { replace bits with (1 + (bits - 1)) at 1 by lia.
    rewrite Z.pow_add_r by lia. reflexivity. }
  assert (Hpos : 0 < 2 ^ (bits - 1)) by (apply Z.pow_pos_nonneg; lia).
  pose proof (Z.mod_pos_bound (z + 2 ^ (bits - 1)) (2 ^ bits) ltac:(lia)) as Hmod.
  split; [lia | ].
  pose proof (Z.div_mod (z + 2 ^ (bits - 1)) (2 ^ bits) ltac:(lia)) as Hdm.
  replace ((z + 2 ^ (bits - 1)) mod 2 ^ bits - 2 ^ (bits - 1) - z)
    with (- ((z + 2 ^ (bits - 1)) / 2 ^ bits) * 2 ^ bits) by lia.
  apply Z.mod_mul. lia.
Qed.

(** An entry read as a numeric kind is held by the element it is stored
    in. *)
Lemma readTag_numeric_holds decode fuel type c r entry r' :
  getAppropriateTypedArray type = Some c ->
  readTag decode fuel type r = OK (entry, r') ->
  holds entry (elementOf c entry)
  /\ (type <> LONG \/ varint r = false ->
      match entry with
      | NumberTag n | BigIntTag n => elementOf c entry = n
      | _ => True
      end).
Proof.
  intros Hc H.
  rewrite (readTag_scalar_fuel decode 0 fuel) in H
    by (destruct type; discriminate).
  destruct type; inversion Hc; subst c; cbn [readTag] in H; unfold tagged in H;
    inv_bind H; destruct a as [v r1]; injection H as <- <-;
    cbn [holds elementOf BITS_PER_ELEMENT].
  - apply readByte_range in Hm. rewrite toIntN_id by lia. auto.
  - apply readShort_range in Hm. rewrite toIntN_id by lia. auto.
  - assert (Hr : - 2^31 <= v < 2^31).
    { destruct (varint r);
        [eapply readVarIntZigZag_range | eapply readInt_range]; exact Hm. }
    rewrite toIntN_id by lia. auto.
  - split.
    + apply (toIntN_wraps 64). lia.
    + intros [Hne | Hv]; [congruence | ]. rewrite Hv in Hm.
      apply readLong_range in Hm. apply toIntN_id; lia.
  - auto.
  - auto.
Qed.

Section Elements.

Variable decode : list byte -> string.
Variable fuel : nat.
Variable type : TAG.
Variable c : NumericArrayConstructor.

Lemma readArray_loop_entries_OK :
  forall entries done r r',
    readsInOrder (readTag decode fuel) type r entries r' ->
    readArray_loop
      (fun r => '(entry, r') <- readTag decode fuel type r ;;
                OK (elementOf c entry, r'))
      (List.length entries) (List.length done)
      (done ++ repeat 0 (List.length entries)) r
    = OK (done ++ map (elementOf c) entries, r').
Proof.
  induction entries as [ | entry rest IH]; intros done r r' Horder;
    inversion Horder; subst.
  - reflexivity.
  - cbn [List.length readArray_loop repeat].
    match goal with H : readTag _ _ _ _ = OK _ |- _ => rewrite H end.
    cbn [bind]. rewrite storeAt_app.
    replace (done ++ elementOf c entry :: repeat 0 (List.length rest))
      with ((done ++ [elementOf c entry]) ++ repeat 0 (List.length rest))
      by (now rewrite <- app_assoc).
    replace (S (List.length done)) with (List.length (done ++ [elementOf c entry]))
      by (rewrite length_app; cbn [List.length]; lia).
    match goal with H : readsInOrder _ _ _ rest _ |- _ => rewrite (IH _ _ _ H) end.
    rewrite <- app_assoc. reflexivity.
Qed.

Lemma readArray_loop_entries_inv :
  forall n done r value r',
    readArray_loop
      (fun r => '(entry, r') <- readTag decode fuel type r ;;
                OK (elementOf c entry, r'))
      n (List.length done) (done ++ repeat 0 n) r
    = OK (value, r') ->
    exists entries,
      List.length entries = n
      /\ readsInOrder (readTag decode fuel) type r entries r'
      /\ value = done ++ map (elementOf c) entries.
Proof.
  induction n as [ | n IH]; intros done r value r' H;
    cbn [readArray_loop repeat] in H.
  - injection H as <- <-. exists []. repeat split. constructor.
  - inv_bind H. destruct a as [element r1].
    inv_bind Hm. destruct a as [entry r1']. injection Hm as <- <-.
    rewrite storeAt_app in H.
    replace (done ++ elementOf c entry :: repeat 0 n)
      with ((done ++ [elementOf c entry]) ++ repeat 0 n) in H
      by (now rewrite <- app_assoc).
    replace (S (List.length done)) with (List.length (done ++ [elementOf c entry])) in H
      by (rewrite length_app; cbn [List.length]; lia).
    apply IH in H. destruct H as (entries & Hn & Horder & ->).
    exists (entry :: entries). split; [cbn; lia | split].
    + econstructor; eassumption.
    + rewrite <- app_assoc. reflexivity.
Qed.

Lemma readsInOrder_holds :
  getAppropriateTypedArray type = Some c ->
  forall entries r r',
    readsInOrder (readTag decode fuel) type r entries r' ->
    Forall2 holds entries (map (elementOf c) entries)
    /\ (type <> LONG \/ varint r = false ->
        Forall2 (fun entry element =>
                   match entry with
                   | NumberTag n | BigIntTag n => element = n
                   | _ => True
                   end) entries (map (elementOf c) entries)).
Proof.
  intros Hc. induction 1 as [r | r r1 r' entry rest Hentry Hrest IH].
  - split; constructor.
  - destruct (readTag_numeric_holds _ _ _ _ _ _ _ Hc Hentry) as [Hholds Hexact].
    destruct IH as [IHholds IHexact].
    split.
    + constructor; assumption.
    + intros Hfixed. constructor; [apply Hexact; exact Hfixed | ].
      apply IHexact. destruct Hfixed as [Hne | Hv]; [now left | right].
      apply readTag_moving in Hentry. rewrite (moves_varint _ _ Hentry). exact Hv.
Qed.

End Elements.

Lemma readList_push_entries_OK readEntry type :
  forall elements value r r',
    readsInOrder readEntry type r elements r' ->
    readList_push readEntry type (List.length elements) value r
    = OK (value ++ elements, r').
Proof.
  induction elements as [ | entry rest IH]; intros value r r' Horder;
    inversion Horder; subst; cbn [List.length readList_push].
  - now rewrite app_nil_r.
  - match goal with H : readEntry _ _ = OK _ |- _ => rewrite H end.
    cbn [bind].
    match goal with H : readsInOrder _ _ _ rest _ |- _ => rewrite (IH _ _ _ H) end.
    rewrite <- app_assoc. reflexivity.
Qed.

(** C1.  Let a LIST declare the element kind [type] and the length
    [length].

    If [type] is one of BYTE, SHORT, INT, LONG, FLOAT, DOUBLE, the decode
    never runs out of fuel, and:
    - whenever it succeeds, the result is the packed buffer of the natural
      element kind (Int8, Int16, Int32, BigInt64, Float32, Float64), its
      length is the length prefix, and its elements hold, one by one and in
      wire order, the entries read as [type]: an integer as it is (a LONG
      read in varint mode wrapped to 64 bits), a float that is not a NaN by
      its bit pattern;
    - it does succeed, at the cursor where the entries end, whenever
      [length] entries can be read as [type] one after the other;
    - that is so when the elements have a fixed width and the buffer holds
      them all.

    For every other element kind the decode succeeds exactly when [length]
    children (none for a negative length) can be read one after the other,
    and the result is the sequence of those children in wire order. *)
Theorem readList_shape :
  forall decode fuel r type r1 length r2,
    readTagType r = OK (type, r1) ->
    readLength r1 = OK (length, r2) ->
    (forall c, In (type, c) naturalBuffer ->
       readList decode (S fuel) r <> OutOfFuel
       /\ (forall value r',
             readList decode (S fuel) r = OK (value, r') ->
             exists entries elements,
               value = NumericArrayTag c elements
               /\ Z.of_nat (List.length elements) = length
               /\ readsInOrder (readTag decode fuel) type r2 entries r'
               /\ Forall2 holds entries elements
               /\ (type <> LONG \/ varint r = false ->
                   Forall2 (fun entry element =>
                              match entry with
                              | NumberTag n | BigIntTag n => element = n
                              | _ => True
                              end) entries elements))
       /\ (forall entries r',
             Z.of_nat (List.length entries) = length ->
             readsInOrder (readTag decode fuel) type r2 entries r' ->
             exists elements,
               readList decode (S fuel) r = OK (NumericArrayTag c elements, r')
               /\ Forall2 holds entries elements)
       /\ (fixedWidthElement r2 type = true ->
           0 <= length ->
           byteOffset r2 + length * BYTES_PER_ELEMENT c <= byteLength (data r2) ->
           exists elements,
             readList decode (S fuel) r
             = OK (NumericArrayTag c elements,
                   advance r2 (length * BYTES_PER_ELEMENT c))))
    /\ ((forall c, ~ In (type, c) naturalBuffer) ->
        forall value r',
          readList decode (S fuel) r = OK (value, r') <->
          exists elements,
            value = ArrayTag elements
            /\ List.length elements = Z.to_nat length
            /\ readsInOrder (readTag decode fuel) type r2 elements r').
Proof.
  intros decode fuel r type r1 length r2 Htype Hlen.
  pose proof (readTagType_moving _ _ _ Htype) as H01.
  pose proof (readLength_moving _ _ _ Hlen) as H12.
  unfold readList. cbn [readTag]. unfold readList_with.
  rewrite Htype. cbn [bind]. rewrite Hlen. cbn [bind].
  split.
  - intros c Hc. apply naturalBuffer_spec in Hc. rewrite Hc.
    unfold newTypedArray.
    destruct (Z.ltb_spec length 0) as [Hneg | Hpos]; cbn [bind].
    { repeat split; try discriminate.
      - intros entries r' Hn _. lia.
      - intros _ Hge. lia. }
    set (readElement := fun r0 : NBTReader =>
           ' (entry, r') <- readTag decode fuel type r0;;
           OK (elementOf c entry, r')).
    assert (Hterm : forall r0, readElement r0 <> OutOfFuel).
    { intros r0. unfold readElement.
      pose proof (readTag_numeric_terminates decode fuel type c r0 Hc) as Hne.
      destruct (readTag decode fuel type r0) as [[entry r'] | e | ];
        cbn [bind]; congruence. }
    split; [ | split; [ | split]].
    + pose proof (readArray_loop_terminates readElement Hterm
                    (Z.to_nat length) 0%nat (repeat 0 (Z.to_nat length)) r2) as Hne.
      destruct (readArray_loop readElement (Z.to_nat length) 0
                  (repeat 0 (Z.to_nat length)) r2) as [[value r3] | e | ];
        cbn [bind]; congruence.
    + intros value r' H. inv_bind H. destruct a as [elements r3].
      injection H as <- <-.
      apply (readArray_loop_entries_inv decode fuel type c _ []) in Hm.
      destruct Hm as (entries & Hn & Horder & ->). cbn [app].
      destruct (readsInOrder_holds decode fuel type c Hc _ _ _ Horder)
        as [Hholds Hexact].
      exists entries, (map (elementOf c) entries).
      split; [reflexivity | split; [ | split; [exact Horder | split]]].
      * rewrite length_map, Hn. lia.
      * exact Hholds.
      * intros Hfixed. apply Hexact.
        destruct Hfixed as [Hne | Hv]; [now left | right].
        rewrite (moves_varint r r2); [exact Hv | ].
        eapply moves_trans; eassumption.
    + intros entries r' Hn Horder.
      replace (Z.to_nat length) with (List.length entries) by lia.
      pose proof (readArray_loop_entries_OK decode fuel type c entries [] r2 r' Horder)
        as Hloop.
      cbn [app List.length] in Hloop. fold readElement in Hloop.
      rewrite Hloop. cbn [bind]. eexists. split; [reflexivity | ].
      apply (readsInOrder_holds decode fuel type c Hc _ _ _ Horder).
    + intros Hfixed _ Hroom.
      destruct (readArray_loop_OK readElement (BYTES_PER_ELEMENT c)
                  (fun r0 => varint r0 = varint r2))
        with (n := Z.to_nat length) (i := 0%nat)
             (value := repeat 0 (Z.to_nat length)) (r := r2)
        as [elements Hloop].
      * destruct c; vm_compute; discriminate.
      * intros r0 k Hv. exact Hv.
      * intros r0 Hv Hoff0 Hlen0. unfold readElement.
        destruct (readTag_fixedWidth_OK decode fuel type c r0 Hc) as [entry Hentry];
          try assumption.
        { unfold fixedWidthElement in *. rewrite Hv. exact Hfixed. }
        rewrite Hentry. cbn [bind]. eexists. reflexivity.
      * reflexivity.
      * eapply readLength_nonneg. exact Hlen.
      * rewrite Z2Nat.id by lia. exact Hroom.
      * rewrite Z2Nat.id in Hloop by lia.
        exists elements. rewrite Hloop. reflexivity.
  - intros Hnone.
    destruct (getAppropriateTypedArray type) as [c | ] eqn:Hc.
    { exfalso. apply (Hnone c). apply naturalBuffer_spec. exact Hc. }
    intros value r'. split.
    + intros H. inv_bind H. destruct a as [elements r3].
      inversion H; subst.
      apply readList_push_inOrder in Hm.
      destruct Hm as (elements' & -> & Hn & Horder).
      exists elements'. auto.
    + intros (elements & -> & Hn & Horder).
      rewrite <- Hn.
      rewrite (readList_push_entries_OK _ _ _ [] _ _ Horder). reflexivity.
Qed.

End Decoding.

(** * Concrete runs

    The runs take the engine [engine27]. *)

#[local] Existing Instance engine27.

(** C3, as stated, fails: a LIST of END with length 1 ends in the
    unexpected-end-tag error thrown by the END case of [readTag], not in
    the invalid-tag error. *)
Lemma readList_END_nonempty_not_InvalidTag :
  let r := bigEndianReader [0; 0; 0; 0; 1] in
  readTagType r = OK (END, advance r 1)
  /\ readLength (advance r 1) = OK (1, advance (advance r 1) 4)
  /\ readList asciiDecode 1 r = Err UnexpectedEndTagError
  /\ readList asciiDecode 1 r <> Err InvalidTagError.
Proof.
  cbv zeta. repeat split; try reflexivity. discriminate.
Qed.

Lemma readList_END_witness :
  let r := bigEndianReader [0; 0; 0; 0; 0] in
  readList asciiDecode 1 r = OK (ArrayTag [], advance (advance r 1) 4).
Proof.
  cbv zeta.
  apply (readList_END asciiDecode 0 (bigEndianReader [0; 0; 0; 0; 0])
           (advance (bigEndianReader [0; 0; 0; 0; 0]) 1)
           (advance (advance (bigEndianReader [0; 0; 0; 0; 0]) 1) 4) 0);
    reflexivity.
Defined.

(** C6, as stated, fails: with the length prefix -1 an INT_ARRAY ends in
    the [RangeError] of the buffer allocation, and a BYTE_ARRAY is not
    rejected at all. *)
Lemma negative_array_length_not_InvalidTag :
  let r := bigEndianReader [255; 255; 255; 255] in
  readLength r = OK (-1, advance r 4)
  /\ readIntArray r = Err RangeError
  /\ readLongArray r = Err RangeError
  /\ readByteArray r = OK (NumericArrayTag Int8Array [], advance (advance r 4) (-1))
  /\ readIntArray r <> Err InvalidTagError
  /\ readByteArray r <> Err InvalidTagError.
Proof.
  cbv zeta. repeat split; try reflexivity; discriminate.
Qed.

Lemma negative_array_length_witness :
  readIntArray (bigEndianReader [255; 255; 255; 255]) = Err RangeError
  /\ readLongArray (bigEndianReader [255; 255; 255; 255]) = Err RangeError.
Proof.
  apply (negative_array_length (bigEndianReader [255; 255; 255; 255])
           (advance (bigEndianReader [255; 255; 255; 255]) 4) (-1));
    [reflexivity | lia].
Defined.

Lemma strict_trailing_bytes_witness :
  let input := bytes [0x0A; 0; 0; 0; 0xFF] in
  let result offset := emptyCompound (Some ""%string) big None false offset in
  read asciiDecode storedDecompress 1 input
    (givenHints (RootNameFlag true) big None None (Some false))
  = OK (result (Some 4))
  /\ read asciiDecode storedDecompress 1 input
       (givenHints (RootNameFlag true) big None None None)
     = Err UnexpectedEndTagError
  /\ read asciiDecode storedDecompress 1 input
       (givenHints (RootNameFlag true) big None None (Some true))
     = Err UnexpectedEndTagError.
Proof.
  cbv zeta.
  destruct (proj2 (strict_trailing_bytes asciiDecode storedDecompress 1)
              (bytes [0x0A; 0; 0; 0; 0xFF]) (RootNameFlag true) big None None false
              (CompoundTag []) (Some ""%string)
              (advance (bigEndianReader [0x0A; 0; 0; 0; 0xFF]) 4)
              eq_refl eq_refl)
    as [Hfalse Hstrict].
  split; [exact Hfalse | split].
  - apply (proj1 (Hstrict None (or_introl eq_refl))). vm_compute. reflexivity.
  - apply (proj1 (Hstrict (Some true) (or_intror eq_refl))). vm_compute. reflexivity.
Defined.

(** C7, as stated, fails when hints are left open: on [0A 00 FF] with byte
    order and root name omitted, the non-strict read succeeds at offset 2
    of 3 (big-endian, no root name), and the strict read fails with the
    error of its first trial, the unexpected-buffer-end error of the root
    name read, not with the unexpected-end-tag error. *)
Lemma strict_read_with_open_hints :
  let input := bytes [0x0A; 0; 0xFF] in
  let hints strict :=
    {| rootName_opt := None; endian_opt := None; compression_opt := Some None;
       bedrockLevel_opt := None; strict_opt := strict |} in
  read asciiDecode storedDecompress 1 input (hints (Some false))
  = OK (emptyCompound None big None false (Some 2))
  /\ read asciiDecode storedDecompress 1 input (hints (Some true))
     = Err UnexpectedBufferEndError
  /\ read asciiDecode storedDecompress 1 input (hints None)
     = Err UnexpectedBufferEndError
  /\ read asciiDecode storedDecompress 1 input (hints (Some true))
     <> Err UnexpectedEndTagError.
Proof.
  cbv zeta. repeat split; try reflexivity. discriminate.
Qed.

Lemma readList_shape_witness :
  let r := bigEndianReader [1; 0; 0; 0; 3; 1; 2; 0xFF] in
  let strings := bigEndianReader [8; 0; 0; 0; 2; 0; 1; 0x61; 0; 1; 0x62] in
  readList asciiDecode 1 r = OK (NumericArrayTag Int8Array [1; 2; -1], advance r 8)
  /\ (exists entries elements,
        NumericArrayTag Int8Array [1; 2; -1] = NumericArrayTag Int8Array elements
        /\ Z.of_nat (List.length elements) = 3
        /\ readsInOrder (readTag asciiDecode 0) BYTE (advance r 5) entries (advance r 8)
        /\ Forall2 holds entries elements
        /\ (BYTE <> LONG \/ varint r = false ->
            Forall2 (fun entry element =>
                       match entry with
                       | NumberTag n | BigIntTag n => element = n
                       | _ => True
                       end) entries elements))
  /\ readList asciiDecode 1 strings
     = OK (ArrayTag [StringTag "a"; StringTag "b"], advance strings 11).
Proof.
  cbv zeta. split; [reflexivity | split].
  - apply (proj1 (proj2 (proj1 (readList_shape asciiDecode 0
                                  (bigEndianReader [1; 0; 0; 0; 3; 1; 2; 0xFF]) BYTE
                                  (advance (bigEndianReader [1; 0; 0; 0; 3; 1; 2; 0xFF]) 1)
                                  3
                                  (advance (bigEndianReader [1; 0; 0; 0; 3; 1; 2; 0xFF]) 5)
                                  eq_refl eq_refl)
                           Int8Array (or_introl eq_refl)))).
    reflexivity.
  - apply (proj2 (readList_shape asciiDecode 0
                    (bigEndianReader [8; 0; 0; 0; 2; 0; 1; 0x61; 0; 1; 0x62]) STRING
                    (advance (bigEndianReader [8; 0; 0; 0; 2; 0; 1; 0x61; 0; 1; 0x62]) 1)
                    2
                    (advance (bigEndianReader [8; 0; 0; 0; 2; 0; 1; 0x61; 0; 1; 0x62]) 5)
                    eq_refl eq_refl)).
    + intros c Hin. cbn in Hin.
      repeat (destruct Hin as [Hin | Hin]; [discriminate | ]). exact Hin.
    + exists [StringTag "a"; StringTag "b"].
      split; [reflexivity | split; [reflexivity | ]].
      eapply readsInOrder_cons; [reflexivity | ].
      eapply readsInOrder_cons; [reflexivity | ].
      apply readsInOrder_nil.
Defined.

Lemma readCompound_keys_witness :
  let r := bigEndianReader [1; 0; 1; 0x62; 5; 1; 0; 1; 0x61; 6; 1; 0; 1; 0x62; 7; 0] in
  readCompound asciiDecode 4 r
  = OK (CompoundTag [("b", NumberTag 7); ("a", NumberTag 6)]%string, advance r 16)
  /\ exists entries properties,
       CompoundTag [("b", NumberTag 7); ("a", NumberTag 6)]%string
       = CompoundTag properties
       /\ compoundEntries asciiDecode (readTag asciiDecode 3) r entries (advance r 16)
       /\ (~ In "__proto__"%string (map fst entries) ->
           let names := map fst entries in
           ownKeys properties
           = sortKeys (firstOccurrences (filter isArrayIndex names))
               ++ firstOccurrences (filter (fun k => negb (isArrayIndex k)) names)
           /\ NoDup (ownKeys properties)
           /\ (forall k, In k (ownKeys properties) <-> In k names)
           /\ (forall name, getProperty properties name = lastValue entries name)).
Proof.
  cbv zeta. split; [reflexivity | ].
  apply (readCompound_keys asciiDecode 4
           (bigEndianReader [1; 0; 1; 0x62; 5; 1; 0; 1; 0x61; 6; 1; 0; 1; 0x62; 7; 0])).
  reflexivity.
Defined.

(** C8, as stated, fails: the compound with the names [b] and [1], in
    that order on the wire, enumerates its keys as [1], [b]. *)
Lemma compound_keys_not_in_wire_order :
  let r := bigEndianReader [1; 0; 1; 0x62; 5; 1; 0; 1; 0x31; 6; 0] in
  let entries := [("b", NumberTag 5); ("1", NumberTag 6)]%string in
  compoundEntries asciiDecode (readTag asciiDecode 2) r entries (advance r 11)
  /\ readCompound asciiDecode 3 r = OK (CompoundTag entries, advance r 11)
  /\ ownKeys entries = ["1"; "b"]%string
  /\ ownKeys entries <> firstOccurrences (map fst entries).
Proof.
  cbv zeta. repeat split.
  - eapply compoundEntries_entry; [reflexivity | discriminate | reflexivity | reflexivity | ].
    eapply compoundEntries_entry; [reflexivity | discriminate | reflexivity | reflexivity | ].
    apply compoundEntries_end. reflexivity.
  - discriminate.
Qed.

(** ** Concrete runs of the further properties *)

Lemma readRoot_consumes_buffer_witness :
  let r := bigEndianReader [0x0A; 0; 0; 0] in
  let o := {| rootName := RootNameFlag true; endian := big; compression := None;
              bedrockLevel := false; strict := true |} in
  let result := emptyCompound (Some ""%string) big None false None in
  readRoot asciiDecode storedDecompress 1 r (withStrict o true) = OK result
  /\ exists buffer,
       decodedBuffer storedDecompress r o = Some buffer
       /\ readRoot asciiDecode storedDecompress 1 r (withStrict o false)
          = OK (withByteOffset result (Some (byteLength buffer))).
Proof.
  cbv zeta. split; [reflexivity | ].
  apply (proj1 (readRoot_consumes_buffer asciiDecode storedDecompress 1
                  (bigEndianReader [0x0A; 0; 0; 0])
                  {| rootName := RootNameFlag true; endian := big; compression := None;
                     bedrockLevel := false; strict := true |}
                  (emptyCompound (Some ""%string) big None false None))).
  reflexivity.
Defined.

Lemma readTag_fixed_width_bounds_witness :
  let r := bigEndianReader [0x01; 0x02] in
  let short := bigEndianReader [0x01] in
  let before := {| byteOffset := -1; data := bytes [0x01; 0x02];
                   littleEndian := false; varint := false |} in
  readTag asciiDecode 0 SHORT short = Err UnexpectedBufferEndError
  /\ readTag asciiDecode 0 SHORT before = Err RangeError
  /\ exists entry, readTag asciiDecode 0 SHORT r = OK (entry, advance r 2).
Proof.
  cbv zeta. split; [ | split].
  - apply (proj1 (readTag_fixed_width_bounds asciiDecode 0 SHORT Int16Array
                    (bigEndianReader [0x01]) eq_refl eq_refl)).
    vm_compute. reflexivity.
  - apply (proj1 (proj2 (readTag_fixed_width_bounds asciiDecode 0 SHORT Int16Array
                           {| byteOffset := -1; data := bytes [0x01; 0x02];
                              littleEndian := false; varint := false |}
                           eq_refl eq_refl))).
    + vm_compute. discriminate.
    + vm_compute. reflexivity.
  - apply (proj2 (proj2 (readTag_fixed_width_bounds asciiDecode 0 SHORT Int16Array
                           (bigEndianReader [0x01; 0x02]) eq_refl eq_refl))).
    + vm_compute. discriminate.
    + vm_compute. discriminate.
Defined.

Lemma readTagType_cases_witness :
  let r := bigEndianReader [0x0A; 0x0D] in
  (exists t, TAG_code t = 10 /\ readTagType r = OK (t, advance r 1))
  /\ readTagType (advance r 1) = Err InvalidTagError
  /\ readTagType (advance r 2) = Err UnexpectedBufferEndError.
Proof.
  cbv zeta. split; [ | split].
  - apply (proj1 (proj1 (readTagType_cases (bigEndianReader [0x0A; 0x0D]))
                    (byteOfZ 0x0A) (bytes [0x0D])
                    (ex_intro _ [] (ex_intro _ [] (conj eq_refl eq_refl))))).
    vm_compute. discriminate.
  - apply (proj2 (proj1 (readTagType_cases (advance (bigEndianReader [0x0A; 0x0D]) 1))
                    (byteOfZ 0x0D) []
                    (ex_intro _ (bytes [0x0A]) (ex_intro _ [] (conj eq_refl eq_refl))))).
    vm_compute. reflexivity.
  - apply (proj2 (readTagType_cases (advance (bigEndianReader [0x0A; 0x0D]) 2))).
    vm_compute. discriminate.
Defined.

Lemma readVarInt_value_witness :
  let r := varintReader [0xAC; 0x02] in
  readVarInt r = OK (300, advance r 2).
Proof.
  cbv zeta.
  apply (proj1 (readVarInt_value (varintReader [0xAC; 0x02]) (bytes [0xAC; 0x02])
                  eq_refl
                  (ex_intro _ [] (ex_intro _ [] (conj eq_refl eq_refl)))
                  eq_refl)).
Defined.

Lemma readVarLongZigZag_decodes_witness :
  let r := varintReader [0xFF; 0xFF; 0xFF; 0xFF; 0xFF; 0xFF; 0xFF; 0xFF; 0xFF; 0x7F] in
  readVarLongZigZag r = OK (- 2^69, advance r 10).
Proof.
  cbv zeta.
  apply (readVarLongZigZag_decodes
           (varintReader [0xFF; 0xFF; 0xFF; 0xFF; 0xFF; 0xFF; 0xFF; 0xFF; 0xFF; 0x7F])
           (bytes [0xFF; 0xFF; 0xFF; 0xFF; 0xFF; 0xFF; 0xFF; 0xFF; 0xFF; 0x7F])).
  - reflexivity.
  - simpl. lia.
  - exists [], []. split; reflexivity.
Defined.

Lemma readString_payload_witness :
  let r := bigEndianReader [0; 2; 0x68; 0x69] in
  readString asciiDecode r = OK ("hi"%string, advance (advance r 2) 2)
  /\ readString asciiDecode (bigEndianReader [0; 2; 0x68])
     = Err UnexpectedBufferEndError.
Proof.
  cbv zeta. split.
  - apply (proj2 (readString_payload asciiDecode (bigEndianReader [0; 2; 0x68; 0x69])
                    2 (advance (bigEndianReader [0; 2; 0x68; 0x69]) 2) eq_refl)
             (bytes [0x68; 0x69])).
    + exists (bytes [0; 2]), []. split; reflexivity.
    + reflexivity.
  - apply (proj1 (readString_payload asciiDecode (bigEndianReader [0; 2; 0x68])
                    2 (advance (bigEndianReader [0; 2; 0x68]) 2) eq_refl)).
    vm_compute. reflexivity.
Defined.

Lemma readByteArray_payload_witness :
  let r := bigEndianReader [0; 0; 0; 2; 0xFF; 0x01] in
  readByteArray r = OK (NumericArrayTag Int8Array [-1; 1], advance (advance r 4) 2).
Proof.
  cbv zeta.
  apply (proj2 (readByteArray_payload (bigEndianReader [0; 0; 0; 2; 0xFF; 0x01])
                  2 (advance (bigEndianReader [0; 0; 0; 2; 0xFF; 0x01]) 4) eq_refl)
           (bytes [0xFF; 0x01])).
  - exists (bytes [0; 0; 0; 2]), []. split; reflexivity.
  - reflexivity.
Defined.

Lemma readByteArray_negative_length_witness :
  let r := bigEndianReader [0xFF; 0xFF; 0xFF; 0xFC] in
  exists elements,
    readByteArray r
    = OK (NumericArrayTag Int8Array elements, advance (advance r 4) (-4))
    /\ byteOffset (advance (advance r 4) (-4)) < byteOffset (advance r 4)
    /\ (0 <= byteOffset (advance r 4) + -4 -> elements = []).
Proof.
  cbv zeta.
  apply (readByteArray_negative_length (bigEndianReader [0xFF; 0xFF; 0xFF; 0xFC])
           (-4) (advance (bigEndianReader [0xFF; 0xFF; 0xFF; 0xFC]) 4)).
  - reflexivity.
  - lia.
Defined.

Lemma fixed_width_arrays_witness :
  let r := bigEndianReader [0; 0; 0; 1; 0; 0; 0; 7] in
  let many := bigEndianReader [8; 0; 0; 0] in
  (exists elements,
     readIntArray r
     = OK (NumericArrayTag Int32Array elements, advance (advance r 4) (4 * 1))
     /\ Z.of_nat (List.length elements) = 1)
  /\ readLongArray r = Err UnexpectedBufferEndError
  /\ readIntArray many = Err RangeError
  /\ readLongArray many = Err RangeError.
Proof.
  cbv zeta.
  pose proof (proj2 (fixed_width_arrays (bigEndianReader [0; 0; 0; 1; 0; 0; 0; 7]) 1
                       (advance (bigEndianReader [0; 0; 0; 1; 0; 0; 0; 7]) 4)
                       eq_refl ltac:(lia)))
    as Hfew.
  pose proof (proj1 (fixed_width_arrays (bigEndianReader [8; 0; 0; 0]) (2^27)
                       (advance (bigEndianReader [8; 0; 0; 0]) 4)
                       eq_refl ltac:(lia)))
    as Hmany.
  destruct Hfew as (Hint & _ & _ & Hlong); [vm_compute; discriminate | ].
  split; [ | split].
  - apply Hint. vm_compute. discriminate.
  - apply Hlong. vm_compute. reflexivity.
  - apply Hmany. vm_compute. reflexivity.
Defined.

Lemma list_of_ints_reads_as_array_witness :
  let r := bigEndianReader [3; 0; 0; 0; 1; 0; 0; 0; 7] in
  readList asciiDecode 1 r = readIntArray (advance r 1).
Proof.
  cbv zeta.
  apply (proj1 (list_of_ints_reads_as_array asciiDecode 0
                  (bigEndianReader [3; 0; 0; 0; 1; 0; 0; 0; 7])
                  (advance (bigEndianReader [3; 0; 0; 0; 1; 0; 0; 0; 7]) 1)
                  eq_refl
                  ltac:(intros length r2 H; vm_compute in H; injection H as <- _;
                        vm_compute; discriminate))).
  reflexivity.
Defined.

Lemma readList_without_elements_witness :
  let r := bigEndianReader [8; 0xFF; 0xFF; 0xFF; 0xFF] in
  readList asciiDecode 1 r = OK (ArrayTag [], advance r 5).
Proof.
  cbv zeta.
  apply (readList_without_elements asciiDecode 0
           (bigEndianReader [8; 0xFF; 0xFF; 0xFF; 0xFF]) STRING
           (advance (bigEndianReader [8; 0xFF; 0xFF; 0xFF; 0xFF]) 1) (-1)
           (advance (bigEndianReader [8; 0xFF; 0xFF; 0xFF; 0xFF]) 5)).
  - reflexivity.
  - reflexivity.
  - lia.
Defined.

Lemma compound_entry_loops_forever_witness :
  let r := {| byteOffset := 0; data := loopingEntry;
              littleEndian := false; varint := false |} in
  readCompound_loop asciiDecode (readTag asciiDecode 3) 1000 [] r = OutOfFuel.
Proof.
  cbv zeta. apply compound_entry_loops_forever.
  - reflexivity.
  - reflexivity.
  - exists [], []. split; reflexivity.
Defined.

Lemma header_peeks_witness :
  let r := bigEndianReader [0x1F; 0x8B; 8] in
  hasGzipHeader r = OK true
  /\ hasGzipHeader (bigEndianReader [0x1F]) = Err RangeError
  /\ hasZlibHeader r = OK false
  /\ hasZlibHeader (bigEndianReader []) = Err RangeError.
Proof.
  cbv zeta. split; [ | split; [ | split]].
  - apply (proj1 (proj2 (header_peeks (bigEndianReader [0x1F; 0x8B; 8]) big))
             (byteOfZ 0x1F) (byteOfZ 0x8B) (bytes [8]) eq_refl).
  - apply (proj1 (header_peeks (bigEndianReader [0x1F]) big)).
    vm_compute. reflexivity.
  - apply (proj1 (proj2 (proj2 (proj2 (header_peeks (bigEndianReader [0x1F; 0x8B; 8]) big))))
             (byteOfZ 0x1F) (bytes [0x8B; 8]) eq_refl).
  - apply (proj1 (proj2 (proj2 (header_peeks (bigEndianReader []) big)))).
    reflexivity.
Defined.

Lemma read_short_input_without_compression_hint_witness :
  read asciiDecode storedDecompress 1 (bytes [0x0A]) defaults = Err RangeError.
Proof.
  apply (read_short_input_without_compression_hint asciiDecode storedDecompress 1
           (bytes [0x0A]) None None None None).
  vm_compute. reflexivity.
Defined.

Lemma read_opening_byte_witness :
  read asciiDecode storedDecompress 1 (bytes [8; 0; 0])
    {| rootName_opt := None; endian_opt := None; compression_opt := Some None;
       bedrockLevel_opt := Some false; strict_opt := None |}
  = Err InvalidOpeningTagError
  /\ read asciiDecode storedDecompress 1 (bytes [13; 0; 0])
       {| rootName_opt := None; endian_opt := None; compression_opt := Some None;
          bedrockLevel_opt := Some false; strict_opt := None |}
     = Err InvalidTagError.
Proof.
  split.
  - apply (proj2 (read_opening_byte asciiDecode storedDecompress 1
                    (byteOfZ 8) (bytes [0; 0]) None None None) STRING).
    + reflexivity.
    + discriminate.
    + discriminate.
  - apply (proj1 (read_opening_byte asciiDecode storedDecompress 1
                    (byteOfZ 13) (bytes [0; 0]) None None None)).
    reflexivity.
Defined.

Lemma readRoot_exact_root_name_witness :
  let r := bigEndianReader [0x0A; 0; 1; 0x61; 0] in
  let o := {| rootName := RootNameFlag true; endian := big; compression := None;
              bedrockLevel := false; strict := true |} in
  let result := emptyCompound (Some "a"%string) big None false None in
  exists found,
    nbt_rootName result = Some found
    /\ readRoot asciiDecode storedDecompress 1 r
         (withRootName o (RootNameIs (Some "b"%string)))
       = if String.eqb found "b" then OK result else Err UnexpectedRootNameError.
Proof.
  cbv zeta.
  apply (readRoot_exact_root_name asciiDecode storedDecompress 1
           (bigEndianReader [0x0A; 0; 1; 0x61; 0])
           {| rootName := RootNameFlag true; endian := big; compression := None;
              bedrockLevel := false; strict := true |}
           (emptyCompound (Some "a"%string) big None false None) "b"%string).
  - reflexivity.
  - reflexivity.
Defined.

Lemma read_again_with_reported_framing_witness :
  let input := bytes [0x0A; 0; 0; 0] in
  let result := emptyCompound (Some ""%string) big None false None in
  read asciiDecode storedDecompress 1 input defaults = OK result
  /\ read asciiDecode storedDecompress 1 input (resolvedHints result None) = OK result.
Proof.
  cbv zeta. split; [reflexivity | ].
  apply (read_again_with_reported_framing asciiDecode storedDecompress 1
           (bytes [0x0A; 0; 0; 0]) defaults
           (emptyCompound (Some ""%string) big None false None)).
  reflexivity.
Defined.

Lemma CLI_unexpected_argument_witness :
  let args := ["--nbt"; "level.dat"; "--endian=bogus"]%string in
  CLI.exports false args = CLI.Throw (CLI.UnexpectedArgument "level.dat")
  /\ forall path,
       CLI.exports true (path :: args) = CLI.Throw (CLI.UnexpectedArgument "level.dat").
Proof.
  cbv zeta.
  apply (CLI_unexpected_argument ["--nbt"; "level.dat"; "--endian=bogus"]%string
           "level.dat"%string).
  reflexivity.
Defined.

Lemma CLI_repeated_option_ignored_witness :
  let result :=
    {| CLI.exports_file := CLI.File "level.dat";
       CLI.exports_nbt := false; CLI.exports_snbt := false; CLI.exports_json := false;
       CLI.exports_format :=
         {| CLI.format_rootName := None; CLI.format_endian := Some big;
            CLI.format_compression := None; CLI.format_bedrockLevel := None |} |} in
  CLI.exports true
    (["level.dat"%string; "--endian=big"%string] ++ ["--endian=bogus"%string])
  = CLI.Ok result.
Proof.
  cbv zeta.
  apply (CLI_repeated_option_ignored true ["level.dat"; "--endian=big"]%string
           "--endian=bogus"%string).
  - reflexivity.
  - reflexivity.
Defined.

Lemma read_failure_is_first_attempt_witness :
  let options := {| rootName_opt := None; endian_opt := None;
                    compression_opt := Some None;
                    bedrockLevel_opt := None; strict_opt := None |} in
  read asciiDecode storedDecompress 1 (bytes [0x0A; 0; 1]) options
  = Err UnexpectedBufferEndError
  /\ read_resolved asciiDecode storedDecompress 1 (bytes [0x0A; 0; 1]) options
       None big (RootNameFlag true)
     = Err UnexpectedBufferEndError.
Proof.
  cbv zeta. split; [reflexivity | ].
  apply (read_failure_is_first_attempt asciiDecode storedDecompress 1
           (bytes [0x0A; 0; 1])
           {| rootName_opt := None; endian_opt := None; compression_opt := Some None;
              bedrockLevel_opt := None; strict_opt := None |}
           None UnexpectedBufferEndError).
  - reflexivity.
  - reflexivity.
Defined.

Lemma list_of_bytes_reads_as_byte_array_witness :
  let r := bigEndianReader [1; 0; 0; 0; 2; 5; 6] in
  readTag asciiDecode 1 LIST r = readByteArray (advance r 1).
Proof.
  cbv zeta.
  apply (list_of_bytes_reads_as_byte_array asciiDecode 0
           (bigEndianReader [1; 0; 0; 0; 2; 5; 6])
           (advance (bigEndianReader [1; 0; 0; 0; 2; 5; 6]) 1) 2
           (advance (bigEndianReader [1; 0; 0; 0; 2; 5; 6]) 5)).
  - reflexivity.
  - reflexivity.
  - lia.
Defined.

Lemma zigzag_varints_too_large_witness :
  let r := varintReader [0x80; 0x80; 0x80; 0x80; 0x80; 0x80; 0x80; 0x80; 0x80; 0x80] in
  readVarIntZigZag r = Err VarNumTooLargeError
  /\ readVarLongZigZag r = Err VarNumTooLargeError.
Proof.
  cbv zeta.
  apply (zigzag_varints_too_large
           (varintReader [0x80; 0x80; 0x80; 0x80; 0x80; 0x80; 0x80; 0x80; 0x80; 0x80])
           (bytes [0x80; 0x80; 0x80; 0x80; 0x80; 0x80; 0x80; 0x80; 0x80; 0x80])).
  - reflexivity.
  - reflexivity.
  - exists [], []. split; reflexivity.
Defined.
